(** * Context assembly engine: repository map, dependency graph, ranking,
      semantic index and budgeted assembly

    Shallow embedding of the TypeScript sources of the course's context
    module ([src/context/graph.ts], [ranker.ts], [embeddings.ts] and
    [assembler.ts], with the loop of [repo-map.ts] and the class
    [DynamicContext]) together with the properties stated about them.

    Conventions.
    - JavaScript strings are [string]; [String.length] stands for [.length]
      (they agree on ASCII text).
    - [Set<string>] and [Map<string, _>] are [gset string] and [gmap string _].
    - Embedding components and similarities are IEEE 754 doubles: the
      primitive binary64 numbers [PrimFloat.float], whose operations round
      as the processor does, with the signed zeros, the infinities and [NaN].
    - Ranking scores are rationals [Q].  [rankFiles] computes them exactly:
      it tells which entries the map has and how the scores compare.
      [rankFilesRounded] rounds the result of every operation, as the
      doubles of the program do: it tells how far the sum of the scores is
      from 1.  The comparator that sorts scores returns a [number], a real
      extended by [NaN] and the two infinities.
    - [async] functions run in the monad [M]: a state of the outside world
      (file system, calls made to the embedding provider) is threaded
      through, and a rejected promise or a thrown exception is [None]. *)

From Stdlib Require Import QArith Qabs Qround Reals Lia Psatz.
From Stdlib Require Floats.
From stdpp Require Import gmap strings list fin_maps sorting pretty.

Set Warnings "-clear-no-such-hyp,-abstract-large-number".
Set Default Proof Using "Type".

(** * Part I: the program *)

(** ** Strings *)

Module Str.

Definition newline : Ascii.ascii := Ascii.ascii_of_nat 10.
Definition slash : Ascii.ascii := Ascii.ascii_of_nat 47.
Definition dot : Ascii.ascii := Ascii.ascii_of_nat 46.

Definition ofChar (c : Ascii.ascii) : string := String c EmptyString.

(** [s.split(c)] for a one-character separator: always at least one piece. *)
Fixpoint splitOn (sep : Ascii.ascii) (s : string) : list string :=
  match s with
  | EmptyString => [EmptyString]
  | String c s' =>
      if Ascii.eqb c sep then EmptyString :: splitOn sep s'
      else match splitOn sep s' with
           | l :: ls => String c l :: ls
           | [] => [String c EmptyString]
           end
  end.

(** [pieces.join(sep)]. *)
Fixpoint joinWith (sep : string) (pieces : list string) : string :=
  match pieces with
  | [] => EmptyString
  | [p] => p
  | p :: rest => p +:+ sep +:+ joinWith sep rest
  end.

(** [s.split('\n')] and [pieces.join('\n')]. *)
Definition split (s : string) : list string := splitOn newline s.
Definition join (pieces : list string) : string := joinWith (ofChar newline) pieces.

Fixpoint lacks (sep : Ascii.ascii) (s : string) : bool :=
  match s with
  | EmptyString => true
  | String c s' => negb (Ascii.eqb c sep) && lacks sep s'
  end.

Definition startsWith (p s : string) : bool := String.prefix p s.

(** [s.slice(n)]. *)
Fixpoint dropChars (n : nat) (s : string) : string :=
  match n, s with
  | 0, _ => s
  | S n', String _ s' => dropChars n' s'
  | S _, EmptyString => EmptyString
  end.

(** [s.slice(0, n)]. *)
Fixpoint takeChars (n : nat) (s : string) : string :=
  match n, s with
  | S n', String c s' => String c (takeChars n' s')
  | _, _ => EmptyString
  end.

Definition isEmpty (s : string) : bool :=
  match s with EmptyString => true | _ => false end.

End Str.

(** ** Node's [path] module (POSIX flavour)

    [dirname] and [extname] follow the loops of Node's [lib/path.js], which
    scan the characters from the last index down; [normalize] works on the
    [/]-separated segments. *)

Module NodePath.

(** The characters of [s] paired with their indices, last index first. *)
Definition backwards (s : string) : list (nat * Ascii.ascii) :=
  reverse (imap (λ i c, (i, c)) (String.list_ascii_of_string s)).

Definition firstIsSlash (s : string) : bool :=
  match s with String c _ => Ascii.eqb c Str.slash | EmptyString => false end.

Definition lastIsSlash (s : string) : bool :=
  match backwards s with (_, c) :: _ => Ascii.eqb c Str.slash | [] => false end.

(** [for (i = path.length - 1; i >= 1; --i)] of [dirname]: the index of the
    slash that ends the directory part, if any. *)
Fixpoint dirnameEnd (chars : list (nat * Ascii.ascii)) (matchedSlash : bool)
    : option nat :=
  match chars with
  | [] => None
  | (i, c) :: rest =>
      if i <? 1 then None
      else if Ascii.eqb c Str.slash then
        if matchedSlash then dirnameEnd rest matchedSlash else Some i
      else dirnameEnd rest false
  end.

Definition dirname (path : string) : string :=
  if Str.isEmpty path then "."
  else
    let hasRoot := firstIsSlash path in
    match dirnameEnd (backwards path) true with
    | None => if hasRoot then "/" else "."
    | Some e => if hasRoot && (e =? 1) then "//" else Str.takeChars e path
    end.

(** [normalizeString]: drop empty and [.] segments, let [..] cancel the
    segment before it. *)
Fixpoint normalizeSegments (allowAboveRoot : bool) (segs res : list string)
    : list string :=
  match segs with
  | [] => res
  | seg :: rest =>
      if Str.isEmpty seg || String.eqb seg "." then
        normalizeSegments allowAboveRoot rest res
      else if String.eqb seg ".." then
        match reverse res with
        | lastSeg :: before =>
            if String.eqb lastSeg ".." then
              normalizeSegments allowAboveRoot rest (res ++ [".."])
            else normalizeSegments allowAboveRoot rest (reverse before)
        | [] =>
            if allowAboveRoot then normalizeSegments allowAboveRoot rest [".."]
            else normalizeSegments allowAboveRoot rest []
        end
      else normalizeSegments allowAboveRoot rest (res ++ [seg])
  end.

Definition normalize (path : string) : string :=
  if Str.isEmpty path then "."
  else
    let isAbsolute := firstIsSlash path in
    let trailingSeparator := lastIsSlash path in
    let p :=
      Str.joinWith "/"
        (normalizeSegments (negb isAbsolute) (Str.splitOn Str.slash path) []) in
    if Str.isEmpty p then
      if isAbsolute then "/" else if trailingSeparator then "./" else "."
    else
      let p := if trailingSeparator then p +:+ "/" else p in
      if isAbsolute then "/" +:+ p else p.

(** [path.join(a, b)]: empty arguments are left out. *)
Definition join (a b : string) : string :=
  match filter (λ s, Str.isEmpty s = false) [a; b] with
  | [] => "."
  | args => normalize (Str.joinWith "/" args)
  end.

Record ExtState := mkExtState {
  startDot : option nat;
  startPart : nat;
  endPos : option nat;
  extMatchedSlash : bool;
  preDotState : Z
}.

(** [for (i = path.length - 1; i >= 0; --i)] of [extname]. *)
Fixpoint extnameLoop (chars : list (nat * Ascii.ascii)) (st : ExtState) : ExtState :=
  match chars with
  | [] => st
  | (i, c) :: rest =>
      if Ascii.eqb c Str.slash then
        if extMatchedSlash st then extnameLoop rest st
        else mkExtState (startDot st) (i + 1) (endPos st) (extMatchedSlash st)
               (preDotState st)
      else
        let st :=
          match endPos st with
          | None => mkExtState (startDot st) (startPart st) (Some (i + 1)) false
                      (preDotState st)
          | Some _ => st
          end in
        if Ascii.eqb c Str.dot then
          match startDot st with
          | None =>
              extnameLoop rest
                (mkExtState (Some i) (startPart st) (endPos st)
                   (extMatchedSlash st) (preDotState st))
          | Some _ =>
              extnameLoop rest
                (mkExtState (startDot st) (startPart st) (endPos st)
                   (extMatchedSlash st) 1%Z)
          end
        else
          match startDot st with
          | Some _ =>
              extnameLoop rest
                (mkExtState (startDot st) (startPart st) (endPos st)
                   (extMatchedSlash st) (-1)%Z)
          | None => extnameLoop rest st
          end
  end.

Definition extname (path : string) : string :=
  let st := extnameLoop (backwards path) (mkExtState None 0 None true 0%Z) in
  match startDot st, endPos st with
  | Some sd, Some e =>
      if (preDotState st =? 0)%Z
         || ((preDotState st =? 1)%Z && (sd =? e - 1) && (sd =? startPart st + 1))
      then ""
      else Str.takeChars (e - sd) (Str.dropChars sd path)
  | _, _ => ""
  end.

End NodePath.

(** ** JavaScript numbers that need not be finite *)

Inductive number :=
  | Num (r : R)
  | Inf (negative : bool)
  | NaN.

Module Number.

Definition ofQ (q : Q) : number := Num (Q2R q).

Definition add (x y : number) : number :=
  match x, y with
  | NaN, _ | _, NaN => NaN
  | Num a, Num b => Num (a + b)
  | Num _, Inf s | Inf s, Num _ => Inf s
  | Inf s, Inf t => if Bool.eqb s t then Inf s else NaN
  end.

Definition neg (x : number) : number :=
  match x with
  | Num a => Num (- a)
  | Inf s => Inf (negb s)
  | NaN => NaN
  end.

Definition sub (x y : number) : number := add x (neg y).

(** [x > 0], as a sort comparator's result is read ([NaN] counts as zero). *)
Definition isPositive (x : number) : bool :=
  match x with
  | Num a => if Rlt_dec 0 a then true else false
  | Inf s => negb s
  | NaN => false
  end.

End Number.

(** ** Doubles

    The numbers of the semantic index.  [PrimFloat.add], [sub], [mul], [div]
    and [sqrt] are the operations [+], [-], [*], [/] and [Math.sqrt] of the
    language on doubles. *)

Module Double.

Definition isNaN (x : PrimFloat.float) : bool := PrimFloat.is_nan x.

(** [x === 0], which holds of both zeros. *)
Definition isZero (x : PrimFloat.float) : bool := PrimFloat.eqb x PrimFloat.zero.

(** [x > 0]; [NaN] is not. *)
Definition isPositive (x : PrimFloat.float) : bool := PrimFloat.ltb PrimFloat.zero x.

(** A zero or [NaN]. *)
Definition vanishes (x : PrimFloat.float) : bool := isZero x || isNaN x.

(** The double nearest to a natural number, and the natural number that a
    double holds, when it holds one. *)
Definition ofNat (n : nat) : PrimFloat.float :=
  FloatOps.SF2Prim
    (SpecFloat.binary_normalize FloatOps.prec FloatOps.emax (Z.of_nat n) 0 false).

Definition toNat (x : PrimFloat.float) : option nat :=
  match FloatOps.Prim2SF x with
  | SpecFloat.S754_zero _ => Some 0
  | SpecFloat.S754_finite false m e =>
      match e with
      | Z0 => Some (Pos.to_nat m)
      | Z.pos _ => Some (Z.to_nat (Z.pos m * 2 ^ e))
      | Z.neg k =>
          if (Z.pos m mod 2 ^ Z.pos k =? 0)%Z
          then Some (Z.to_nat (Z.pos m / 2 ^ Z.pos k))
          else None
      end
  | _ => None
  end.

(** A natural number below [2^53]: every such number is a double. *)
Definition isSafe (n : nat) : Prop := (Z.of_nat n < 2 ^ 53)%Z.

End Double.

(** What [Array.prototype.sort] asks of the number its comparator returns:
    is it greater than zero? *)
Class Signed (N : Type) := isPositive : N → bool.
#[global] Instance number_signed : Signed number := Number.isPositive.
#[global] Instance float_signed : Signed PrimFloat.float := Double.isPositive.

(** ** The outside world and the monad of [async] functions

    The file system, the embedding provider and, further down, the sort of
    arrays and the JSON functions belong to the runtime and to libraries,
    not to the repository.  They are modelled from their documentation, as
    far as the code relies on them. *)

(** A path names a text file or a directory, or nothing. *)
Inductive FileData :=
  | TextFile (text : string)
  | Directory.

Record World := mkWorld {
  fs : gmap string FileData;
  embedCalls : nat
}.

Definition M (A : Type) : Type := World → option (A * World).

Definition ret {A} (a : A) : M A := λ w, Some (a, w).

Definition bind {A B} (m : M A) (k : A → M B) : M B :=
  λ w, match m w with
       | Some (a, w') => k a w'
       | None => None
       end.

Definition throw {A} : M A := λ _, None.

Notation "'let*' x := m 'in' k" := (bind m (λ x, k))
  (at level 10, x pattern, m at level 100, k at level 200).

(** [for (const x of xs) { ... }] with an [await] in the body. *)
Fixpoint forEach {A S} (xs : list A) (body : S → A → M S) (s : S) : M S :=
  match xs with
  | [] => ret s
  | x :: rest => let* s' := body s x in forEach rest body s'
  end.

(** [fs.readFile(path, 'utf-8')]. *)
Definition readFile (path : string) : M string :=
  λ w, match fs w !! path with
       | Some (TextFile text) => Some (text, w)
       | _ => None
       end.

(** [fs.writeFile(path, text)]: rejected when the path names a directory or
    the directory of the path does not exist; otherwise the file holds the
    text from then on.  (The other rejections of the runtime, such as a
    missing permission or a full disk, are not told apart: what is stated
    about a file written assumes that the call resolved.) *)
Definition writeFile (path text : string) : M unit :=
  λ w, match fs w !! path, fs w !! NodePath.dirname path with
       | Some Directory, _ => None
       | _, Some Directory =>
           Some (tt, mkWorld (<[path := TextFile text]> (fs w)) (embedCalls w))
       | _, _ => None
       end.

(** ** Semantic index: chunks ([embeddings.ts]) *)

Record CodeChunk := mkChunk {
  file : string;
  startLine : nat;
  endLine : nat;
  content : string;
  embedding : option (list PrimFloat.float)
}.

(** [/^(export |async )?(function|class|interface)/]: the optional group is
    tried first and given up when the keyword does not follow. *)
Definition declKeyword (s : string) : bool :=
  Str.startsWith "function" s || Str.startsWith "class" s
  || Str.startsWith "interface" s.

Definition matchesDeclaration (line : string) : bool :=
  (Str.startsWith "export " line && declKeyword (Str.dropChars 7 line))
  || (Str.startsWith "async " line && declKeyword (Str.dropChars 6 line))
  || declKeyword line.

(** The [for] loop of [chunkCode]; [i] is the index of the head of [lines]. *)
Fixpoint chunkLoop (f : string) (chunkSize : nat) (lines : list string) (i : nat)
    (chunks : list CodeChunk) (currentChunk : list string)
    (start currentLength : nat) : list CodeChunk * list string * nat :=
  match lines with
  | [] => (chunks, currentChunk, start)
  | line :: rest =>
      let currentChunk := currentChunk ++ [line] in
      let currentLength := currentLength + String.length line in
      let isBreakpoint :=
        matchesDeclaration line || (chunkSize <=? currentLength) in
      if isBreakpoint && (5 <? length currentChunk) then
        chunkLoop f chunkSize rest (S i)
          (chunks ++ [mkChunk f start i (Str.join currentChunk) None])
          [] (S i) 0
      else
        chunkLoop f chunkSize rest (S i) chunks currentChunk start currentLength
  end.

Definition chunkCode (f code : string) (chunkSize : nat) : list CodeChunk :=
  let lines := Str.split code in
  let '(chunks, currentChunk, start) := chunkLoop f chunkSize lines 0 [] [] 0 0 in
  if 0 <? length currentChunk then
    chunks ++ [mkChunk f start (length lines - 1) (Str.join currentChunk) None]
  else chunks.

(** [chunkSize: number = 1000]. *)
Definition defaultChunkSize : nat := 1000.

(** Number of lines held by a chunk. *)
Definition lineCount (c : CodeChunk) : nat := length (Str.split (content c)).

(** What every chunk closed inside the loop satisfies. *)
Definition fullChunk (c : CodeChunk) : Prop :=
  6 ≤ lineCount c ∧ lineCount c = S (endLine c) - startLine c.

(** ** Semantic index: similarity and ranking of chunks *)

(** [b[i]]: reading past the end gives [undefined], which is [NaN] in
    arithmetic. *)
Definition component (b : list PrimFloat.float) (i : nat) : PrimFloat.float :=
  default PrimFloat.nan (b !! i).

(** The loop of [cosineSimilarity], over the components [a[i]], [a[i+1]], ... *)
Fixpoint cosineLoop (a b : list PrimFloat.float) (i : nat)
    (acc : PrimFloat.float * PrimFloat.float * PrimFloat.float)
    : PrimFloat.float * PrimFloat.float * PrimFloat.float :=
  match a with
  | [] => acc
  | ai :: rest =>
      let '(dot, normA, normB) := acc in
      let bi := component b i in
      cosineLoop rest b (S i)
        (PrimFloat.add dot (PrimFloat.mul ai bi),
         PrimFloat.add normA (PrimFloat.mul ai ai),
         PrimFloat.add normB (PrimFloat.mul bi bi))
  end.

Definition cosineSimilarity (a b : list PrimFloat.float) : PrimFloat.float :=
  let '(dot, normA, normB) :=
    cosineLoop a b 0 (PrimFloat.zero, PrimFloat.zero, PrimFloat.zero) in
  PrimFloat.div dot (PrimFloat.mul (PrimFloat.sqrt normA) (PrimFloat.sqrt normB)).

(** [cosineSimilarity(queryEmbedding, chunk.embedding!)]: indexing a missing
    embedding throws, unless the loop body never runs. *)
Definition chunkSimilarity (queryEmbedding : list PrimFloat.float) (chunk : CodeChunk)
    : option PrimFloat.float :=
  match embedding chunk, queryEmbedding with
  | Some b, _ => Some (cosineSimilarity queryEmbedding b)
  | None, [] => Some (cosineSimilarity [] [])
  | None, _ :: _ => None
  end.

(** The measure as the specification writes it, in doubles: the dot product
    and the sum of squares are summed from the first component on, starting
    from zero; the magnitude is the square root of the sum of squares. *)
Fixpoint dotProductFrom (sum : PrimFloat.float) (a b : list PrimFloat.float)
    : PrimFloat.float :=
  match a, b with
  | ai :: a', bi :: b' => dotProductFrom (PrimFloat.add sum (PrimFloat.mul ai bi)) a' b'
  | _, _ => sum
  end.

Definition dotProduct (a b : list PrimFloat.float) : PrimFloat.float :=
  dotProductFrom PrimFloat.zero a b.

Definition sumSquares (a : list PrimFloat.float) : PrimFloat.float :=
  fold_left (λ sum x, PrimFloat.add sum (PrimFloat.mul x x)) a PrimFloat.zero.

Definition magnitude (a : list PrimFloat.float) : PrimFloat.float :=
  PrimFloat.sqrt (sumSquares a).

(** The similarity of a chunk to the query ([NaN] where the code throws). *)
Definition scoreOf (queryEmbedding : list PrimFloat.float) (chunk : CodeChunk)
    : PrimFloat.float :=
  default PrimFloat.nan (chunkSimilarity queryEmbedding chunk).

#[global] Instance R_eq_dec : EqDecision R := Req_dec_T.

(** [(a, b) => b.score - a.score]. *)
Definition byScoreDescending {A} (a b : A * PrimFloat.float) : PrimFloat.float :=
  PrimFloat.sub (snd b) (snd a).

(** [Array.prototype.sort]: a stable sort; [y] moves in front of [x] exactly
    when the comparator is positive on [(x, y)].  (For a comparator that is
    not a consistent ordering the standard leaves the result to the engine.) *)
Fixpoint sortInsert {A N} `{Signed N} (compareFn : A → A → N) (x : A)
    (sorted : list A) : list A :=
  match sorted with
  | [] => [x]
  | y :: rest =>
      if isPositive (compareFn x y) then y :: sortInsert compareFn x rest
      else x :: y :: rest
  end.

Definition jsSort {A N} `{Signed N} (compareFn : A → A → N) (items : list A)
    : list A :=
  foldr (sortInsert compareFn) [] items.

(** ** JSON ([JSON.stringify], [JSON.parse])

    The two functions are the runtime's; they are modelled after the
    ECMAScript standard, on the values the index stores.  A document is the
    syntax tree of a JSON text; an object keeps its members as they are
    written.  Numbers are doubles.  Printing and parsing work on the
    characters of the text; how a double is written in decimal digits and
    read back ([Number::toString] and the value of a number token) is left
    to two functions that the runtime provides. *)

#[warnings="-register-all"]
Inductive json :=
  | JNull
  | JBool (b : bool)
  | JNum (x : PrimFloat.float)
  | JStr (s : string)
  | JArr (items : list json)
  | JObj (members : list (string * json)).

Module JSON.

(** The character written between the quotes. *)
Definition ch (s : string) : Ascii.ascii :=
  match s with String c _ => c | EmptyString => Ascii.zero end.

Definition quote : Ascii.ascii := Ascii.ascii_of_nat 34.
Definition backslash : Ascii.ascii := Ascii.ascii_of_nat 92.

Definition chars (s : string) : list Ascii.ascii := String.list_ascii_of_string s.
Definition text (cs : list Ascii.ascii) : string := String.string_of_list_ascii cs.

Definition isDigit (c : Ascii.ascii) : bool :=
  let n := Ascii.nat_of_ascii c in (48 <=? n) && (n <=? 57).

Definition hexDigit (n : nat) : Ascii.ascii :=
  Ascii.ascii_of_nat (if n <? 10 then 48 + n else 87 + n).

Definition hexValue (c : Ascii.ascii) : option nat :=
  let n := Ascii.nat_of_ascii c in
  if (48 <=? n) && (n <=? 57) then Some (n - 48)
  else if (97 <=? n) && (n <=? 102) then Some (n - 87)
  else if (65 <=? n) && (n <=? 70) then Some (n - 55)
  else None.

(** [QuoteJSONString]: the two-character escapes, [\u00XX] for the other
    control characters, every other character as it is. *)
Definition escapeChar (c : Ascii.ascii) : list Ascii.ascii :=
  let n := Ascii.nat_of_ascii c in
  if Ascii.eqb c quote then [backslash; quote]
  else if Ascii.eqb c backslash then [backslash; backslash]
  else if n =? 8 then [backslash; ch "b"]
  else if n =? 12 then [backslash; ch "f"]
  else if n =? 10 then [backslash; ch "n"]
  else if n =? 13 then [backslash; ch "r"]
  else if n =? 9 then [backslash; ch "t"]
  else if n <? 32 then
    [backslash; ch "u"; ch "0"; ch "0"; hexDigit (n / 16); hexDigit (n mod 16)]
  else [c].

Definition quoteString (s : string) : list Ascii.ascii :=
  quote :: concat (escapeChar <$> chars s) ++ [quote].

Fixpoint joinChars (sep : Ascii.ascii) (pieces : list (list Ascii.ascii))
    : list Ascii.ascii :=
  match pieces with
  | [] => []
  | [p] => p
  | p :: rest => p ++ sep :: joinChars sep rest
  end.

Section Codec.

(** [Number::toString] on the finite doubles other than zero, and the value
    of a number token. *)
Variable numberToString : PrimFloat.float → string.
Variable stringToNumber : string → option PrimFloat.float.

(** A number that is not finite is written [null]; both zeros are written
    [0]. *)
Definition numberToken (x : PrimFloat.float) : string :=
  if PrimFloat.is_nan x || PrimFloat.is_infinity x then "null"
  else if PrimFloat.is_zero x then "0"
  else numberToString x.

Fixpoint render (j : json) : list Ascii.ascii :=
  match j with
  | JNull => chars "null"
  | JBool b => chars (if b then "true" else "false")
  | JNum x => chars (numberToken x)
  | JStr s => quoteString s
  | JArr items => ch "[" :: joinChars (ch ",") (render <$> items) ++ [ch "]"]
  | JObj members =>
      ch "{"
      :: joinChars (ch ",")
           ((λ member, quoteString (fst member) ++ ch ":" :: render (snd member))
              <$> members)
      ++ [ch "}"]
  end.

(** [JSON.stringify(value)], without indentation. *)
Definition stringify (j : json) : string := text (render j).

Definition isWhitespace (c : Ascii.ascii) : bool :=
  let n := Ascii.nat_of_ascii c in (n =? 32) || (n =? 9) || (n =? 10) || (n =? 13).

Fixpoint skipWhitespace (s : list Ascii.ascii) : list Ascii.ascii :=
  match s with
  | c :: s' => if isWhitespace c then skipWhitespace s' else s
  | [] => []
  end.

Definition unescape (e : Ascii.ascii) : option Ascii.ascii :=
  if Ascii.eqb e quote then Some quote
  else if Ascii.eqb e backslash then Some backslash
  else if Ascii.eqb e (ch "/") then Some (ch "/")
  else if Ascii.eqb e (ch "b") then Some (Ascii.ascii_of_nat 8)
  else if Ascii.eqb e (ch "f") then Some (Ascii.ascii_of_nat 12)
  else if Ascii.eqb e (ch "n") then Some (Ascii.ascii_of_nat 10)
  else if Ascii.eqb e (ch "r") then Some (Ascii.ascii_of_nat 13)
  else if Ascii.eqb e (ch "t") then Some (Ascii.ascii_of_nat 9)
  else None.

Definition consChar (c : Ascii.ascii) (r : list Ascii.ascii * list Ascii.ascii)
    : list Ascii.ascii * list Ascii.ascii :=
  (c :: fst r, snd r).

(** The characters of a string up to its closing quote, and what follows.
    (An escape above [\u00ff] denotes a character that the strings of this
    model do not have: it is refused.) *)
Fixpoint parseChars (s : list Ascii.ascii)
    : option (list Ascii.ascii * list Ascii.ascii) :=
  match s with
  | [] => None
  | c :: s1 =>
      if Ascii.eqb c quote then Some ([], s1)
      else if Ascii.eqb c backslash then
        match s1 with
        | e :: s2 =>
            if Ascii.eqb e (ch "u") then
              match s2 with
              | h1 :: h2 :: h3 :: h4 :: s3 =>
                  match hexValue h1, hexValue h2, hexValue h3, hexValue h4 with
                  | Some d1, Some d2, Some d3, Some d4 =>
                      let n := ((d1 * 16 + d2) * 16 + d3) * 16 + d4 in
                      if n <? 256 then consChar (Ascii.ascii_of_nat n) <$> parseChars s3
                      else None
                  | _, _, _, _ => None
                  end
              | _ => None
              end
            else
              match unescape e with
              | Some c' => consChar c' <$> parseChars s2
              | None => None
              end
        | [] => None
        end
      else if Ascii.nat_of_ascii c <? 32 then None
      else consChar c <$> parseChars s1
  end.

Definition isNumberChar (c : Ascii.ascii) : bool :=
  isDigit c || Ascii.eqb c (ch "-") || Ascii.eqb c (ch "+") || Ascii.eqb c (ch ".")
  || Ascii.eqb c (ch "e") || Ascii.eqb c (ch "E").

Fixpoint takeNumber (s : list Ascii.ascii) : list Ascii.ascii * list Ascii.ascii :=
  match s with
  | c :: s' => if isNumberChar c then consChar c (takeNumber s') else ([], s)
  | [] => ([], [])
  end.

Fixpoint skipDigits (s : list Ascii.ascii) : list Ascii.ascii :=
  match s with
  | c :: s' => if isDigit c then skipDigits s' else s
  | [] => []
  end.

Definition isExponent (s : list Ascii.ascii) : bool :=
  match s with
  | [] => true
  | e :: s1 =>
      (Ascii.eqb e (ch "e") || Ascii.eqb e (ch "E"))
      && match s1 with
         | c :: s2 =>
             let s3 := if Ascii.eqb c (ch "+") || Ascii.eqb c (ch "-") then s2 else s1 in
             match s3 with
             | d :: s4 => isDigit d && bool_decide (skipDigits s4 = [])
             | [] => false
             end
         | [] => false
         end
  end.

Definition isFraction (s : list Ascii.ascii) : bool :=
  match s with
  | c :: s1 =>
      if Ascii.eqb c (ch ".") then
        match s1 with
        | d :: s2 => isDigit d && isExponent (skipDigits s2)
        | [] => false
        end
      else isExponent s
  | [] => true
  end.

(** The grammar of a JSON number, a run of number characters made of: an
    optional minus sign; a zero, or a
    digit from 1 to 9 followed by digits; optionally a point and at least one
    digit; optionally an exponent ([e] or [E], an optional sign, at least one
    digit). *)
Definition isJsonNumber (token : list Ascii.ascii) : bool :=
  let s := match token with
           | c :: s' => if Ascii.eqb c (ch "-") then s' else token
           | [] => []
           end in
  forallb isNumberChar token
  && match s with
     | c :: s1 =>
         if Ascii.eqb c (ch "0") then isFraction s1
         else isDigit c && isFraction (skipDigits s1)
     | [] => false
     end.

Fixpoint skipPrefix (p s : list Ascii.ascii) : option (list Ascii.ascii) :=
  match p, s with
  | [], _ => Some s
  | c :: p', d :: s' => if Ascii.eqb c d then skipPrefix p' s' else None
  | _ :: _, [] => None
  end.

Definition literal (word : string) (value : json) (s : list Ascii.ascii)
    : option (json * list Ascii.ascii) :=
  rest ← skipPrefix (chars word) s; Some (value, rest).

Fixpoint parseValue (fuel : nat) (s : list Ascii.ascii) {struct fuel}
    : option (json * list Ascii.ascii) :=
  match fuel with
  | 0 => None
  | S fuel =>
      match skipWhitespace s with
      | [] => None
      | c :: rest =>
          if Ascii.eqb c (ch "n") then literal "null" JNull (c :: rest)
          else if Ascii.eqb c (ch "t") then literal "true" (JBool true) (c :: rest)
          else if Ascii.eqb c (ch "f") then literal "false" (JBool false) (c :: rest)
          else if Ascii.eqb c quote then
            r ← parseChars rest; Some (JStr (text (fst r)), snd r)
          else if Ascii.eqb c (ch "[") then
            match skipWhitespace rest with
            | d :: rest' =>
                if Ascii.eqb d (ch "]") then Some (JArr [], rest')
                else r ← parseElements fuel rest; Some (JArr (fst r), snd r)
            | [] => None
            end
          else if Ascii.eqb c (ch "{") then
            match skipWhitespace rest with
            | d :: rest' =>
                if Ascii.eqb d (ch "}") then Some (JObj [], rest')
                else r ← parseMembers fuel rest; Some (JObj (fst r), snd r)
            | [] => None
            end
          else
            let '(token, rest') := takeNumber (c :: rest) in
            if isJsonNumber token then
              x ← stringToNumber (text token); Some (JNum x, rest')
            else None
      end
  end
with parseElements (fuel : nat) (s : list Ascii.ascii) {struct fuel}
    : option (list json * list Ascii.ascii) :=
  match fuel with
  | 0 => None
  | S fuel =>
      r ← parseValue fuel s;
      match skipWhitespace (snd r) with
      | d :: rest =>
          if Ascii.eqb d (ch ",") then
            r' ← parseElements fuel rest; Some (fst r :: fst r', snd r')
          else if Ascii.eqb d (ch "]") then Some ([fst r], rest)
          else None
      | [] => None
      end
  end
with parseMembers (fuel : nat) (s : list Ascii.ascii) {struct fuel}
    : option (list (string * json) * list Ascii.ascii) :=
  match fuel with
  | 0 => None
  | S fuel =>
      match skipWhitespace s with
      | q :: s1 =>
          if Ascii.eqb q quote then
            k ← parseChars s1;
            match skipWhitespace (snd k) with
            | c :: s2 =>
                if Ascii.eqb c (ch ":") then
                  r ← parseValue fuel s2;
                  match skipWhitespace (snd r) with
                  | d :: rest =>
                      if Ascii.eqb d (ch ",") then
                        r' ← parseMembers fuel rest;
                        Some ((text (fst k), fst r) :: fst r', snd r')
                      else if Ascii.eqb d (ch "}") then
                        Some ([(text (fst k), fst r)], rest)
                      else None
                  | [] => None
                  end
                else None
            | [] => None
            end
          else None
      | [] => None
      end
  end.

(** [JSON.parse(text)]: one value, white space around it, nothing else. *)
Definition parse (t : string) : option json :=
  r ← parseValue (S (String.length t)) (chars t);
  match skipWhitespace (snd r) with
  | [] => Some (fst r)
  | _ :: _ => None
  end.

(** The numbers of a document. *)
Fixpoint numbers (j : json) : list PrimFloat.float :=
  match j with
  | JNum x => [x]
  | JArr items => concat (numbers <$> items)
  | JObj members => concat ((λ member, numbers (snd member)) <$> members)
  | _ => []
  end.

(** A number that the conversions write as a number token and read back as
    it was. *)
Definition survives (x : PrimFloat.float) : Prop :=
  isJsonNumber (chars (numberToken x)) = true
  ∧ stringToNumber (numberToken x) = Some x.

End Codec.
End JSON.

(** ** Persistence of the index as JSON *)

Definition jsonOfNat (n : nat) : json := JNum (Double.ofNat n).

(** The object [JSON.stringify] writes for a chunk: the properties in the
    order in which the chunk got them, an [undefined] embedding left out. *)
Definition chunkToJson (c : CodeChunk) : json :=
  JObj ([("file", JStr (file c));
         ("startLine", jsonOfNat (startLine c));
         ("endLine", jsonOfNat (endLine c));
         ("content", JStr (content c))]
        ++ match embedding c with
           | Some e => [("embedding", JArr (JNum <$> e))]
           | None => []
           end).

Definition chunksToJson (cs : list CodeChunk) : json := JArr (chunkToJson <$> cs).

Definition jsonToNumber (j : json) : option PrimFloat.float :=
  match j with JNum x => Some x | _ => None end.

(** Reading a parsed value as a [CodeChunk]: the objects that
    [JSON.stringify] writes for chunks are read; values of another shape are
    outside the typed model. *)
Definition chunkFromJson (j : json) : option CodeChunk :=
  match j with
  | JObj ((k1, JStr f) :: (k2, JNum s) :: (k3, JNum e) :: (k4, JStr c) :: more) =>
      if String.eqb k1 "file" && String.eqb k2 "startLine"
         && String.eqb k3 "endLine" && String.eqb k4 "content" then
        s' ← Double.toNat s;
        e' ← Double.toNat e;
        match more with
        | [] => Some (mkChunk f s' e' c None)
        | [(k5, JArr items)] =>
            if String.eqb k5 "embedding" then
              emb ← mapM jsonToNumber items; Some (mkChunk f s' e' c (Some emb))
            else None
        | _ => None
        end
      else None
  | _ => None
  end.

Definition chunksFromJson (j : json) : option (list CodeChunk) :=
  match j with JArr items => mapM chunkFromJson items | _ => None end.

(** The numbers that an index stores: line numbers and embedding
    components. *)
Definition storedNumbers (cs : list CodeChunk) : list PrimFloat.float :=
  JSON.numbers (chunksToJson cs).

(** ** Dependency graph ([graph.ts]) *)

Record FileGraph := mkGraph {
  nodes : gset string;
  edges : gmap string (gset string);
  reverseEdges : gmap string (gset string)
}.

(** The regular expression of [extractImports]: the word [import], any run
    of characters within the line, the word [from], white space, a quote
    (single or double), and the captured text up to the next quote; matched
    globally, left to right. *)
Module ImportRegex.

Definition isLineTerminator (c : Ascii.ascii) : bool :=
  let n := Ascii.nat_of_ascii c in (n =? 10) || (n =? 13).

Definition isWhitespace (c : Ascii.ascii) : bool :=
  let n := Ascii.nat_of_ascii c in ((9 <=? n) && (n <=? 13)) || (n =? 32).

Definition isQuote (c : Ascii.ascii) : bool :=
  let n := Ascii.nat_of_ascii c in (n =? 39) || (n =? 34).

Fixpoint skipPrefix (p : list Ascii.ascii) (s : list Ascii.ascii)
    : option (list Ascii.ascii) :=
  match p, s with
  | [], _ => Some s
  | c :: p', d :: s' => if Ascii.eqb c d then skipPrefix p' s' else None
  | _ :: _, [] => None
  end.

(** The captured text (no quote in it) and what follows the closing quote. *)
Fixpoint capture (s : list Ascii.ascii) : option (list Ascii.ascii * list Ascii.ascii) :=
  match s with
  | [] => None
  | c :: s' =>
      if isQuote c then Some ([], s')
      else '(cap, after) ← capture s'; Some (c :: cap, after)
  end.

(** More white space, the opening quote and a non-empty capture; entered
    after one white-space character. *)
Fixpoint spacesThenCapture (s : list Ascii.ascii)
    : option (list Ascii.ascii * list Ascii.ascii) :=
  match s with
  | [] => None
  | c :: s' =>
      if isWhitespace c then spacesThenCapture s'
      else if isQuote c then
        match capture s' with
        | Some ((_ :: _) as cap, after) => Some (cap, after)
        | _ => None
        end
      else None
  end.

(** The word [from], white space, and the quoted capture. *)
Definition fromClause (s : list Ascii.ascii)
    : option (list Ascii.ascii * list Ascii.ascii) :=
  match skipPrefix (String.list_ascii_of_string "from") s with
  | Some (c :: s') => if isWhitespace c then spacesThenCapture s' else None
  | _ => None
  end.

(** Any run of characters within the line, then the [from] clause: the
    longest run is tried first. *)
Fixpoint dotStarThenFrom (s : list Ascii.ascii)
    : option (list Ascii.ascii * list Ascii.ascii) :=
  match s with
  | c :: s' =>
      if isLineTerminator c then fromClause s
      else match dotStarThenFrom s' with
           | Some r => Some r
           | None => fromClause s
           end
  | [] => fromClause s
  end.

Definition matchAt (s : list Ascii.ascii)
    : option (list Ascii.ascii * list Ascii.ascii) :=
  match skipPrefix (String.list_ascii_of_string "import") s with
  | Some s' => dotStarThenFrom s'
  | None => None
  end.

(** The [while ((match = importRegex.exec(code)) !== null)] loop: each match
    is searched from where the previous one ended. *)
Fixpoint execAll (fuel : nat) (s : list Ascii.ascii) : list string :=
  match fuel with
  | 0 => []
  | S fuel' =>
      match matchAt s with
      | Some (cap, after) => String.string_of_list_ascii cap :: execAll fuel' after
      | None =>
          match s with
          | [] => []
          | _ :: s' => execAll fuel' s'
          end
      end
  end.

(** The first capture group of every match, in order. *)
Definition captures (code : string) : list string :=
  execAll (S (String.length code)) (String.list_ascii_of_string code).

End ImportRegex.

Definition importExtensions : list string :=
  [".ts"; ".tsx"; ".js"; ".jsx"; "/index.ts"; "/index.js"].

(** The loop over [importExtensions] ends in [break]: only the first
    extension is ever appended, and nothing is checked against the files. *)
Definition resolveImport (fromFile importPath : string) : option string :=
  let dir := NodePath.dirname fromFile in
  let resolved := NodePath.join dir importPath in
  let resolved :=
    if Str.isEmpty (NodePath.extname resolved) then
      match importExtensions with
      | ext :: _ => resolved +:+ ext
      | [] => resolved
      end
    else resolved in
  Some resolved.

(** The body of the [while] loop of [extractImports], for one match. *)
Definition collectImport (currentFile : string) (imports : gset string)
    (importPath : string) : gset string :=
  if negb (Str.startsWith "." importPath) then imports
  else match resolveImport currentFile importPath with
       | Some resolved =>
           if Str.isEmpty resolved then imports else imports ∪ {[resolved]}
       | None => imports
       end.

Definition extractImports (code currentFile : string) : gset string :=
  fold_left (collectImport currentFile) (ImportRegex.captures code) ∅.

(** [reverseEdges.get(imp).add(file)] for every [imp] of [imports]. *)
Definition addReverseEdges (fileName : string) (imports : gset string)
    (rev : gmap string (gset string)) : gmap string (gset string) :=
  set_fold (λ imp rev, <[imp := default ∅ (rev !! imp) ∪ {[fileName]}]> rev)
    rev imports.

(** The body of the [for] loop of [buildDependencyGraph], for one file. *)
Definition visitFile (projectRoot : string) (graph : FileGraph)
    (fileName : string) : M FileGraph :=
  let* code := readFile (NodePath.join projectRoot fileName) in
  let imports := extractImports code fileName in
  ret (mkGraph (nodes graph)
         (<[fileName := imports]> (edges graph))
         (addReverseEdges fileName imports (reverseEdges graph))).

Definition buildDependencyGraph (projectRoot : string) (files : list string)
    : M FileGraph :=
  forEach files (visitFile projectRoot) (mkGraph (list_to_set files) ∅ ∅).

(** The imports of a file as [buildDependencyGraph] computes them. *)
Definition importsOf (projectRoot : string) (w : World) (fileName : string)
    : option (gset string) :=
  match fs w !! NodePath.join projectRoot fileName with
  | Some (TextFile code) => Some (extractImports code fileName)
  | _ => None
  end.

(** ** Importance ranking ([ranker.ts]) *)

Record RankOptions := mkRankOptions {
  damping : option Q;
  iterations : option nat
}.

Definition defaultRankOptions : RankOptions := mkRankOptions None None.

Definition QofNat (n : nat) : Q := inject_Z (Z.of_nat n).

(** [scores.get(k) ?? 0]. *)
Definition getScore (scores : gmap string Q) (k : string) : Q :=
  default 0%Q (scores !! k).

(** [graph.edges.get(importer)?.size ?? 1]. *)
Definition outDegree (graph : FileGraph) (importer : string) : Q :=
  match edges graph !! importer with
  | Some targets => QofNat (size targets)
  | None => 1%Q
  end.

Definition initialScores (graph : FileGraph) (n : Q) : gmap string Q :=
  set_fold (λ node scores, <[node := (1 / n)%Q]> scores) ∅ (nodes graph).

(** [scores.set(seed, (scores.get(seed) ?? 0) + boost)] for every seed. *)
Definition boostSeeds (boost : string → Q) (seedFiles : list string)
    (scores : gmap string Q) : gmap string Q :=
  fold_left (λ scores seed, <[seed := (getScore scores seed + boost seed)%Q]> scores)
    seedFiles scores.

(** The new score of one node in one pass. *)
Definition nodeScore (graph : FileGraph) (d n : Q) (scores : gmap string Q)
    (node : string) : Q :=
  let importers := default ∅ (reverseEdges graph !! node) in
  set_fold
    (λ importer score,
       (score + d * (getScore scores importer / outDegree graph importer))%Q)
    ((1 - d) / n)%Q importers.

(** One pass: all new scores are computed from the old ones, then written
    over them. *)
Definition rankPass (graph : FileGraph) (d n : Q) (scores : gmap string Q)
    : gmap string Q :=
  let newScores :=
    set_fold (λ node acc, <[node := nodeScore graph d n scores node]> acc)
      ∅ (nodes graph) in
  newScores ∪ scores.

(** [rankFiles] with the boost of each seed as a parameter. *)
Definition rankFilesBoosted (boost : string → Q) (graph : FileGraph)
    (seedFiles : list string) (options : RankOptions) : gmap string Q :=
  let d := default 0.85%Q (damping options) in
  let iters := default 20 (iterations options) in
  let n := QofNat (size (nodes graph)) in
  let scores := initialScores graph n in
  let scores := boostSeeds boost seedFiles scores in
  Nat.iter iters (rankPass graph d n) scores.

(** The source boosts every seed by [0.5]. *)
Definition seedBoost : Q := 0.5%Q.

Definition rankFiles (graph : FileGraph) (seedFiles : list string)
    (options : RankOptions) : gmap string Q :=
  rankFilesBoosted (λ _, seedBoost) graph seedFiles options.

Fixpoint sumQ (l : list Q) : Q :=
  match l with
  | [] => 0%Q
  | x :: rest => (x + sumQ rest)%Q
  end.

(** The sum of the scores of the graph's nodes. *)
Definition totalScore (graph : FileGraph) (scores : gmap string Q) : Q :=
  sumQ (getScore scores <$> elements (nodes graph)).

(** *** The ranker over rounded arithmetic

    The scores of the program are doubles: every arithmetic result is
    rounded.  [rankFilesRounded round] is [rankFiles] with the result of
    every operation of the source passed through [round]; with the identity
    for [round] it is the exact ranker above.  Rounding to the nearest
    double is such a [round] on the rationals below the overflow threshold,
    which the scores, being sums of shares of the initial mass, stay far
    from. *)

Section Rounded.

Variable round : Q → Q.

(** [scores.set(node, 1 / n)]. *)
Definition initialScoresRounded (graph : FileGraph) (n : Q) : gmap string Q :=
  set_fold (λ node scores, <[node := round (1 / n)]> scores) ∅ (nodes graph).

(** [scores.set(seed, (scores.get(seed) ?? 0) + 0.5)]. *)
Definition boostSeedsRounded (seedFiles : list string) (scores : gmap string Q)
    : gmap string Q :=
  fold_left
    (λ scores seed, <[seed := round (getScore scores seed + seedBoost)]> scores)
    seedFiles scores.

(** [let score = (1 - damping) / n], then for every importer
    [score += damping * (importerScore / importerOutDegree)]. *)
Definition nodeScoreRounded (graph : FileGraph) (d n : Q) (scores : gmap string Q)
    (node : string) : Q :=
  let importers := default ∅ (reverseEdges graph !! node) in
  set_fold
    (λ importer score,
       round (score
              + round (d * round (getScore scores importer
                                  / outDegree graph importer))))
    (round (round (1 - d) / n)) importers.

Definition rankPassRounded (graph : FileGraph) (d n : Q) (scores : gmap string Q)
    : gmap string Q :=
  let newScores :=
    set_fold (λ node acc, <[node := nodeScoreRounded graph d n scores node]> acc)
      ∅ (nodes graph) in
  newScores ∪ scores.

Definition rankFilesRounded (graph : FileGraph) (seedFiles : list string)
    (options : RankOptions) : gmap string Q :=
  let d := default 0.85%Q (damping options) in
  let iters := default 20 (iterations options) in
  let n := QofNat (size (nodes graph)) in
  let scores := initialScoresRounded graph n in
  let scores := boostSeedsRounded seedFiles scores in
  Nat.iter iters (rankPassRounded graph d n) scores.

End Rounded.

Fixpoint Qpow (x : Q) (n : nat) : Q :=
  match n with
  | O => 1%Q
  | S n => (x * Qpow x n)%Q
  end.

(** The bound on the rounding error of the sum of the scores: [u] bounds
    the relative and [η] the absolute error of one rounding, [m] counts the
    roundings that follow one another and [N] all of them. *)
Definition massError (u η : Q) (m N : nat) : Q :=
  (Qpow (1 + u) m * (1 + QofNat N * η) - 1)%Q.

(** [round] rounds non-negative numbers with relative error at most [u],
    up to an absolute error [η]: for the doubles, [u = 2^-53], and [η =
    2^-1075] covers the results too small to be normal numbers. *)
Definition roundsWithin (round : Q → Q) (u η : Q) : Prop :=
  ∀ x : Q, (0 <= x → 0 <= round x
            ∧ (1 - u) * x - η <= round x ∧ round x <= (1 + u) * x + η)%Q.

(** Rounding to the nearest multiple of [2^-bits], the step of the grid. *)
Definition gridStep (bits : nat) : Q := (1 / inject_Z (2 ^ Z.of_nat bits))%Q.

Definition roundToGrid (bits : nat) (x : Q) : Q :=
  (inject_Z (Qfloor (x * inject_Z (2 ^ Z.of_nat bits) + (1 # 2)))
   / inject_Z (2 ^ Z.of_nat bits))%Q.

(** Reverse edges mirror forward edges (as [buildDependencyGraph] leaves
    them): then no importer has out-degree zero. *)
Definition mirrored (graph : FileGraph) : Prop :=
  ∀ u v, u ∈ default ∅ (reverseEdges graph !! v)
         ↔ v ∈ default ∅ (edges graph !! u).

(** [estimateTokens]: [Math.ceil(text.length / 4)]. *)
Definition estimateTokens (text : string) : nat := (String.length text + 3) / 4.

(** ** Repository map ([repo-map.ts]) *)

Inductive SymbolKind :=
  | KFunction | KClass | KInterface | KMethod | KVariable | KExport.

(** The fields [startLine] and [endLine] of the source are [symbolStart] and
    [symbolEnd] here, the names being taken by [CodeChunk]. *)
Record Symbol := mkSymbol {
  name : string;
  kind : SymbolKind;
  signature : string;
  symbolStart : nat;
  symbolEnd : nat
}.

Record FileMap := mkFileMap {
  path : string;
  symbols : list Symbol
}.

Record RepoMap := mkRepoMap {
  files : list FileMap;
  totalSymbols : nat
}.

Definition nl : string := Str.ofChar Str.newline.

Definition formatRepoMap (map : RepoMap) : string :=
  fold_left
    (λ output fileMap,
       let output := output +:+ path fileMap +:+ ":" +:+ nl in
       let output :=
         fold_left
           (λ output symbol,
              let indented :=
                Str.join ((λ line, "│ " +:+ line) <$> Str.split (signature symbol)) in
              output +:+ indented +:+ nl)
           (symbols fileMap) output in
       output +:+ nl)
    (files map) "".

(** ** Context assembly ([assembler.ts]) *)

Record ContextConfig := mkConfig {
  repoMapTokens : nat;
  relevantFileTokens : nat;
  searchResultTokens : nat;
  maxTotalTokens : nat
}.


Record CodeIndex := mkIndex { chunks : list CodeChunk }.

(** What [load] leaves in [this.chunks]: whatever [JSON.parse] returned.  A
    value that is a chunk list as [save] writes one is an index; any other
    value is kept as it is (the index is then outside the typed model). *)
Inductive Loaded :=
  | LoadedIndex (index : CodeIndex)
  | LoadedValue (value : json).

Definition fence : string := "```".

Definition fileSection (fileName fileContent : string) : string :=
  nl +:+ "### " +:+ fileName +:+ nl +:+ fence +:+ nl +:+ fileContent +:+ nl +:+ fence.

Definition chunkSection (chunk : CodeChunk) : string :=
  nl +:+ "### " +:+ file chunk +:+ ":" +:+ pretty (startLine chunk) +:+ "-"
  +:+ pretty (endLine chunk) +:+ nl +:+ fence +:+ nl +:+ content chunk +:+ nl +:+ fence.


(** ** Concrete inputs used below *)

(** A project with one source file.  The file declares nothing, so the
    repository map is empty; its name is mentioned by the task; the index
    built over the project holds its single chunk. *)
Definition sampleWorld : World :=
  mkWorld {[ "/proj/src/auth.ts" := TextFile "login(process.argv[2]);" ]} 0.

Definition sampleTask : string := "fix auth".
Definition sampleVector : string → list PrimFloat.float :=
  λ _, [PrimFloat.one; PrimFloat.zero].
Definition sampleEmbed : nat → list string → option (list (list PrimFloat.float)) :=
  λ _ texts, Some (sampleVector <$> texts).
Definition sampleGlob : string → M (list string) := λ _, ret ["src/auth.ts"].
Definition sampleTruncate (text : string) (tokens : nat) : string :=
  Str.takeChars (4 * tokens) text.
Definition sampleRepoMap : string → M RepoMap := λ _, ret (mkRepoMap [] 0).
Definition sampleSelect : string → string → nat → M (list string) :=
  λ _ _ _, ret ["src/auth.ts"].
Definition sampleConfig : ContextConfig := mkConfig 2000 15000 5000 30.


(** A project whose only file imports a file that is not listed. *)
Definition importWorld : World :=
  mkWorld {[ "/proj/a.ts" := TextFile "import { b } from './b';" ]} 0.

(** One file without imports; two files importing each other. *)
Definition isolatedGraph : FileGraph :=
  mkGraph {[ "a.ts" ]} {[ "a.ts" := ∅ ]} ∅.

Definition cycleGraph : FileGraph :=
  mkGraph {[ "a.ts"; "b.ts" ]}
    {[ "a.ts" := {[ "b.ts" ]}; "b.ts" := {[ "a.ts" ]} ]}
    {[ "a.ts" := {[ "b.ts" ]}; "b.ts" := {[ "a.ts" ]} ]}.

(** Two chunks with the same embedding, listed against the order of their
    file names. *)
Definition tiedLater : CodeChunk :=
  mkChunk "b.ts" 0 0 "const b = 1;" (Some [PrimFloat.one; PrimFloat.zero]).
Definition tiedEarlier : CodeChunk :=
  mkChunk "a.ts" 0 0 "const a = 1;" (Some [PrimFloat.one; PrimFloat.zero]).

(** A chunk whose embedding holds the negative zero. *)
Definition negativeZeroChunk : CodeChunk :=
  mkChunk "a.ts" 0 0 "const a = 1;" (Some [PrimFloat.neg_zero]).

(** A directory to save an index in. *)
Definition saveWorld : World := mkWorld {[ "/proj" := Directory ]} 0.

(** A project of one file, and a provider whose vectors hold the negative
    zero. *)
Definition negativeZeroWorld : World :=
  mkWorld {[ "/proj" := Directory; "/proj/a.ts" := TextFile "const a = 1;" ]} 0.
Definition negativeZeroGlob : string → M (list string) := λ _, ret ["a.ts"].
Definition negativeZeroEmbed
    : nat → list string → option (list (list PrimFloat.float)) :=
  λ _ texts, Some ((λ _, [PrimFloat.neg_zero]) <$> texts).

(** The chunk of that project as [load] leaves it. *)
Definition positiveZeroChunk : CodeChunk :=
  mkChunk "a.ts" 0 0 "const a = 1;" (Some [PrimFloat.zero]).

(** The number conversions of the runtime on the natural numbers: decimal
    digits, written and read. *)
Definition sampleNumberToString (x : PrimFloat.float) : string :=
  match Double.toNat x with
  | Some n => pretty n
  | None => ""
  end.

Fixpoint readDigits (value : nat) (digits : list Ascii.ascii) : option nat :=
  match digits with
  | [] => Some value
  | c :: rest =>
      if JSON.isDigit c then readDigits (10 * value + (Ascii.nat_of_ascii c - 48)) rest
      else None
  end.

Definition sampleStringToNumber (token : string) : option PrimFloat.float :=
  match JSON.chars token with
  | [] => None
  | digits => Double.ofNat <$> readDigits 0 digits
  end.

(** A finite check of [mirrored]. *)
Definition mirroredCheck (graph : FileGraph) : Prop :=
  map_Forall (λ v importers,
                set_Forall (λ u, v ∈ default ∅ (edges graph !! u)) importers)
    (reverseEdges graph)
  ∧ map_Forall (λ u targets,
                  set_Forall (λ v, u ∈ default ∅ (reverseEdges graph !! v)) targets)
      (edges graph).

Section Engine.

(** The collaborators of the engine: the embedding provider (what it
    answers to its n-th request for a list of texts: the vectors of
    [response.data], or a rejection), [glob], the tokenizer behind
    [countTokens], the helper [truncateToTokens] (called by the assembler,
    defined nowhere in the sources), the two awaited builders whose results
    the assembler consumes, and the number conversions of the runtime's
    JSON. *)
Variable embeddingsCreate : nat → list string → option (list (list PrimFloat.float)).
Variable glob : string → M (list string).
Variable countTokens : string → nat.
Variable truncateToTokens : string → nat → string.
Variable buildRepoMap : string → M RepoMap.
Variable selectContextForTask : string → string → nat → M (list string).
Variable numberToString : PrimFloat.float → string.
Variable stringToNumber : string → option PrimFloat.float.

(** [client.embeddings.create({ input })]: one request to the provider. *)
Definition createEmbeddings (texts : list string) : M (list (list PrimFloat.float)) :=
  λ w, match embeddingsCreate (embedCalls w) texts with
       | Some data => Some (data, mkWorld (fs w) (S (embedCalls w)))
       | None => None
       end.

Definition batchSize : nat := 100.

(** The loop of [embedChunks], one provider call per batch.  Reading
    [response.data[j].embedding] throws when the answer has fewer vectors
    than the batch has chunks. *)
Fixpoint embedBatches (fuel : nat) (rest embedded : list CodeChunk)
    : M (list CodeChunk) :=
  match fuel, rest with
  | _, [] => ret embedded
  | 0, _ :: _ => ret embedded
  | S fuel', _ :: _ =>
      let batch := take batchSize rest in
      let* data := createEmbeddings (content <$> batch) in
      if length data <? length batch then throw
      else
        embedBatches fuel' (drop batchSize rest)
          (embedded
           ++ zip_with (λ c e, mkChunk (file c) (startLine c) (endLine c) (content c) (Some e))
                batch data)
  end.

Definition embedChunks (cs : list CodeChunk) : M (list CodeChunk) :=
  embedBatches (length cs) cs [].

Definition searchCode (query : string) (cs : list CodeChunk) (topK : nat)
    : M (list CodeChunk) :=
  let* response := createEmbeddings [query] in
  match response with
  | queryEmbedding :: _ =>
      match mapM (λ chunk, score ← chunkSimilarity queryEmbedding chunk;
                            Some (chunk, score)) cs with
      | Some scored => ret (fst <$> take topK (jsSort byScoreDescending scored))
      | None => throw
      end
  | [] => throw
  end.

(** The methods of [class CodeIndex]; a method that assigns [this.chunks]
    returns the index it leaves. *)
Definition CodeIndex_index (self : CodeIndex) (projectRoot : string) : M CodeIndex :=
  let* fileNames := glob projectRoot in
  let* allChunks :=
    forEach fileNames
      (λ allChunks fileName,
         let* code := readFile (NodePath.join projectRoot fileName) in
         ret (allChunks ++ chunkCode fileName code defaultChunkSize))
      [] in
  let* embedded := embedChunks allChunks in
  ret (mkIndex embedded).

Definition CodeIndex_search (self : CodeIndex) (query : string) (topK : nat)
    : M (list CodeChunk) :=
  searchCode query (chunks self) topK.

Definition CodeIndex_save (self : CodeIndex) (filePath : string) : M unit :=
  writeFile filePath (JSON.stringify numberToString (chunksToJson (chunks self))).

Definition CodeIndex_load (self : CodeIndex) (filePath : string) : M Loaded :=
  let* data := readFile filePath in
  match JSON.parse stringToNumber data with
  | Some value =>
      ret match chunksFromJson value with
          | Some cs => LoadedIndex (mkIndex cs)
          | None => LoadedValue value
          end
  | None => throw
  end.

(** Phase 2 of [assembleContext]: the loop over the relevant files. *)
Definition appendFiles (projectRoot : string) (config : ContextConfig)
    (relevantFiles : list string) (state : list string * nat)
    : M (list string * nat) :=
  forEach relevantFiles
    (λ '(parts, totalTokens) fileName,
       let* fileContent := readFile (NodePath.join projectRoot fileName) in
       let section := fileSection fileName fileContent in
       let tokens := countTokens section in
       if totalTokens + tokens <=? maxTotalTokens config then
         ret (parts ++ [section], totalTokens + tokens)
       else ret (parts, totalTokens))
    state.

(** Phase 3 of [assembleContext]: the loop over the search results. *)
Fixpoint appendChunks (config : ContextConfig) (searchResults : list CodeChunk)
    (state : list string * nat) : list string * nat :=
  match searchResults with
  | [] => state
  | chunk :: rest =>
      let '(parts, totalTokens) := state in
      let section := chunkSection chunk in
      let tokens := countTokens section in
      if totalTokens + tokens <=? maxTotalTokens config then
        appendChunks config rest (parts ++ [section], totalTokens + tokens)
      else appendChunks config rest (parts, totalTokens)
  end.

(** Phase 3 once the search has returned: the guarded header and the loop. *)
Definition appendRelatedCode (config : ContextConfig)
    (searchResults : list CodeChunk) (state : list string * nat)
    : list string * nat :=
  if (0 <? length searchResults) && (snd state <? maxTotalTokens config) then
    appendChunks config searchResults
      (fst state ++ [nl +:+ "## Related Code"], snd state)
  else state.

(** The body of [assembleContext] up to the final [join]: the array [parts]
    and the running count [totalTokens]. *)
Definition assembleParts (projectRoot task : string) (index : CodeIndex)
    (config : ContextConfig) : M (list string * nat) :=
  let parts := [] in
  let totalTokens := 0 in
  let* repoMap := buildRepoMap projectRoot in
  let mapText := formatRepoMap repoMap in
  let mapText :=
    if repoMapTokens config <? countTokens mapText then
      truncateToTokens mapText (repoMapTokens config)
    else mapText in
  let parts := parts ++ ["## Repository Structure" +:+ nl +:+ mapText] in
  let totalTokens := totalTokens + countTokens mapText in
  let* relevantFiles :=
    selectContextForTask projectRoot task (relevantFileTokens config) in
  let* afterFiles :=
    if 0 <? length relevantFiles then
      appendFiles projectRoot config relevantFiles
        (parts ++ [nl +:+ "## Relevant Files"], totalTokens)
    else ret (parts, totalTokens) in
  let* searchResults := CodeIndex_search index task 10 in
  ret (appendRelatedCode config searchResults afterFiles).

Definition assembleContext (projectRoot task : string) (index : CodeIndex)
    (config : ContextConfig) : M string :=
  let* result := assembleParts projectRoot task index config in
  ret (Str.joinWith nl (fst result)).

End Engine.

(** ** Maps in insertion order

    A JavaScript [Map] iterates in insertion order.  Where the order of the
    entries is observed, the map is the list of its entries: the keys are
    distinct, [set] on a key that is present keeps its place. *)

Module JsMap.

Fixpoint set {V} (k : string) (v : V) (m : list (string * V)) : list (string * V) :=
  match m with
  | [] => [(k, v)]
  | (k', v') :: rest =>
      if String.eqb k' k then (k, v) :: rest else (k', v') :: set k v rest
  end.

Fixpoint get {V} (k : string) (m : list (string * V)) : option V :=
  match m with
  | [] => None
  | (k', v') :: rest => if String.eqb k' k then Some v' else get k rest
  end.

Fixpoint delete {V} (k : string) (m : list (string * V)) : list (string * V) :=
  match m with
  | [] => []
  | (k', v') :: rest =>
      if String.eqb k' k then delete k rest else (k', v') :: delete k rest
  end.

Definition keys {V} (m : list (string * V)) : list string := fst <$> m.
Definition values {V} (m : list (string * V)) : list V := snd <$> m.

End JsMap.

(** [[...new Set(xs)]]: the distinct elements in the order of their first
    occurrence. *)
Definition insertionOrder (xs : list string) : list string :=
  fold_left (λ seen x, if bool_decide (x ∈ seen) then seen else seen ++ [x]) xs [].

(** ** Picking the files ([ranker.ts], continued) *)

(** The entries of the map that [rankFiles(graph, seeds)] returns when
    [graph.nodes] is [new Set(files)]: the nodes are entered first, in the
    order of the set, then the seeds that are not nodes; a later [set] on a
    key keeps its place. *)
Definition rankedEntries (fileNames seedFiles : list string)
    (scores : gmap string Q) : list (string * Q) :=
  (λ k, (k, getScore scores k)) <$> insertionOrder (fileNames ++ seedFiles).

(** [(a, b) => b[1] - a[1]]. *)
Definition byEntryDescending (a b : string * Q) : number :=
  Number.sub (Number.ofQ (snd b)) (Number.ofQ (snd a)).

Definition getTopFiles (scores : list (string * Q)) (n : nat) : list string :=
  fst <$> take n (jsSort byEntryDescending scores).

(** [toLowerCase], on ASCII text. *)
Definition lowerChar (c : Ascii.ascii) : Ascii.ascii :=
  let n := Ascii.nat_of_ascii c in
  if (65 <=? n) && (n <=? 90) then Ascii.ascii_of_nat (n + 32) else c.

Fixpoint toLowerCase (s : string) : string :=
  match s with
  | EmptyString => EmptyString
  | String c s' => String (lowerChar c) (toLowerCase s')
  end.

(** The class [[a-z0-9]]. *)
Definition isLowerAlnum (c : Ascii.ascii) : bool :=
  let n := Ascii.nat_of_ascii c in
  ((97 <=? n) && (n <=? 122)) || ((48 <=? n) && (n <=? 57)).

Definition space : Ascii.ascii := Ascii.ascii_of_nat 32.

(** [.replace(/[^a-z0-9]/g, ' ')]. *)
Fixpoint blankOthers (s : string) : string :=
  match s with
  | EmptyString => EmptyString
  | String c s' => String (if isLowerAlnum c then c else space) (blankOthers s')
  end.

(** [.split(/\s+/)]: the pieces between the maximal runs of white space; a
    run at either end leaves an empty piece there.  [inRun] tells that the
    character before was white space. *)
Fixpoint splitRuns (inRun : bool) (s : string) : list string :=
  match s with
  | EmptyString => [EmptyString]
  | String c s' =>
      if ImportRegex.isWhitespace c then
        if inRun then splitRuns true s' else EmptyString :: splitRuns true s'
      else match splitRuns false s' with
           | piece :: pieces => String c piece :: pieces
           | [] => [String c EmptyString]
           end
  end.

Definition extractKeywords (text : string) : list string :=
  filter (λ w, 3 < String.length w)
    (splitRuns false (blankOthers (toLowerCase text))).

(** [hay.includes(needle)]. *)
Fixpoint includes (needle hay : string) : bool :=
  String.prefix needle hay
  || match hay with
     | EmptyString => false
     | String _ hay' => includes needle hay'
     end.

(** The loop of [selectWithinBudget] for one ranked file. *)
Definition takeIfFits (projectRoot : string) (maxTokens : nat)
    (state : list string * nat) (fileName : string) : M (list string * nat) :=
  let '(selected, totalTokens) := state in
  let* fileContent := readFile (NodePath.join projectRoot fileName) in
  let tokens := estimateTokens fileContent in
  if totalTokens + tokens <=? maxTokens then
    ret (selected ++ [fileName], totalTokens + tokens)
  else ret (selected, totalTokens).

Definition selectWithinBudget (scores : list (string * Q)) (projectRoot : string)
    (maxTokens : nat) : M (list string) :=
  let ranked := getTopFiles scores 100 in
  let* result := forEach ranked (takeIfFits projectRoot maxTokens) ([], 0) in
  ret (fst result).

(** [path.basename(path, suffix)] of Node's [lib/path.js] (POSIX flavour):
    the last segment, trailing slashes left out, without [suffix] when the
    segment ends with it.  [None] stands for the index [-1]. *)
Record BaseState := mkBaseState {
  baseStart : nat;
  baseEnd : option nat;
  baseMatchedSlash : bool;
  extIdx : option nat;
  firstNonSlashEnd : option nat
}.

(** The loop taken when a suffix is given; a [break] returns the state. *)
Fixpoint basenameSuffixLoop (suffix : string) (chars : list (nat * Ascii.ascii))
    (st : BaseState) : BaseState :=
  match chars with
  | [] => st
  | (i, c) :: rest =>
      if Ascii.eqb c Str.slash then
        if baseMatchedSlash st then basenameSuffixLoop suffix rest st
        else mkBaseState (i + 1) (baseEnd st) (baseMatchedSlash st) (extIdx st)
               (firstNonSlashEnd st)
      else
        let st :=
          match firstNonSlashEnd st with
          | None => mkBaseState (baseStart st) (baseEnd st) false (extIdx st)
                      (Some (i + 1))
          | Some _ => st
          end in
        match extIdx st with
        | Some idx =>
            if bool_decide (String.get idx suffix = Some c) then
              match idx with
              | 0 =>
                  basenameSuffixLoop suffix rest
                    (mkBaseState (baseStart st) (Some i) (baseMatchedSlash st) None
                       (firstNonSlashEnd st))
              | S idx' =>
                  basenameSuffixLoop suffix rest
                    (mkBaseState (baseStart st) (baseEnd st) (baseMatchedSlash st)
                       (Some idx') (firstNonSlashEnd st))
              end
            else
              basenameSuffixLoop suffix rest
                (mkBaseState (baseStart st) (firstNonSlashEnd st)
                   (baseMatchedSlash st) None (firstNonSlashEnd st))
        | None => basenameSuffixLoop suffix rest st
        end
  end.

(** The loop taken without a suffix: [(start, end, matchedSlash)]. *)
Fixpoint basenameLoop (chars : list (nat * Ascii.ascii))
    (st : nat * option nat * bool) : nat * option nat * bool :=
  match chars with
  | [] => st
  | (i, c) :: rest =>
      let '(start, stop, matchedSlash) := st in
      if Ascii.eqb c Str.slash then
        if matchedSlash then basenameLoop rest st else (i + 1, stop, matchedSlash)
      else
        match stop with
        | None => basenameLoop rest (start, Some (i + 1), false)
        | Some _ => basenameLoop rest st
        end
  end.

Definition basename (path suffix : string) : string :=
  if (0 <? String.length suffix) && (String.length suffix <=? String.length path)
  then
    if String.eqb suffix path then ""
    else
      let st :=
        basenameSuffixLoop suffix (NodePath.backwards path)
          (mkBaseState 0 None true (Some (String.length suffix - 1)) None) in
      let stop :=
        if bool_decide (Some (baseStart st) = baseEnd st) then
          default 0 (firstNonSlashEnd st)
        else default (String.length path) (baseEnd st) in
      Str.takeChars (stop - baseStart st) (Str.dropChars (baseStart st) path)
  else
    let '(start, stop, _) := basenameLoop (NodePath.backwards path) (0, None, true) in
    match stop with
    | None => ""
    | Some e => Str.takeChars (e - start) (Str.dropChars start path)
    end.

(** The options of [selectContextForTask]. *)
Record SelectOptions := mkSelectOptions {
  maxFiles : option nat;
  maxTokens : option nat
}.

(** The loop that collects the files sharing more than two keywords with
    the task, for one file. *)
Definition matchKeywords (projectRoot : string) (keywords : list string)
    (keywordMatches : list string) (fileName : string) : M (list string) :=
  let* code := readFile (NodePath.join projectRoot fileName) in
  let codeKeywords := extractKeywords code in
  let overlap := filter (λ k, k ∈ codeKeywords) keywords in
  if 2 <? length overlap then ret (keywordMatches ++ [fileName])
  else ret keywordMatches.

Section Selection.

(** [getProjectFiles] is called by the ranker and defined nowhere in the
    sources. *)
Variable getProjectFiles : string → M (list string).

Definition selectContextForTask (projectRoot task : string)
    (options : option SelectOptions) : M (list string) :=
  let* fileNames := getProjectFiles projectRoot in
  let* graph := buildDependencyGraph projectRoot fileNames in
  let mentionedFiles :=
    filter
      (λ f, includes (toLowerCase (basename f (NodePath.extname f)))
              (toLowerCase task) = true)
      fileNames in
  let keywords := extractKeywords task in
  let* keywordMatches :=
    forEach fileNames (matchKeywords projectRoot keywords) [] in
  let seeds := insertionOrder (mentionedFiles ++ keywordMatches) in
  let scores := rankFiles graph seeds defaultRankOptions in
  selectWithinBudget (rankedEntries fileNames seeds scores) projectRoot
    (default 20000 (options ≫= maxTokens)).

End Selection.

(** ** Building the repository map ([parser.ts], [repo-map.ts]) *)

Inductive Language := TypeScript | Tsx | JavaScript | Python.

(** The table [parsers], keyed by file extension. *)
Definition parsers (extension : string) : option Language :=
  if String.eqb extension ".ts" then Some TypeScript
  else if String.eqb extension ".tsx" then Some Tsx
  else if String.eqb extension ".js" then Some JavaScript
  else if String.eqb extension ".jsx" then Some JavaScript
  else if String.eqb extension ".py" then Some Python
  else None.

Section RepoMapBuilder.

(** The collaborators: [glob], the tree-sitter parser of a language, and
    [extractSymbols], which walks the syntax tree the parser returns. *)
Variable glob : string → M (list string).
Variable Tree : Type.
Variable parse : Language → string → Tree.
Variable extractSymbols : Tree → string → list Symbol.

Definition parseFile (code extension : string) : option Tree :=
  match parsers extension with
  | None => None
  | Some language => Some (parse language code)
  end.

(** The body of the loop of [buildRepoMap], for one file. *)
Definition mapFile (projectRoot : string) (state : list FileMap * nat)
    (fileName : string) : M (list FileMap * nat) :=
  let '(fileMap, total) := state in
  let* code := readFile (NodePath.join projectRoot fileName) in
  let ext := NodePath.extname fileName in
  match parseFile code ext with
  | None => ret (fileMap, total)
  | Some tree =>
      let found := extractSymbols tree code in
      if 0 <? length found then
        ret (fileMap ++ [mkFileMap fileName found], total + length found)
      else ret (fileMap, total)
  end.

Definition buildRepoMap (projectRoot : string) : M RepoMap :=
  let* fileNames := glob projectRoot in
  let* result := forEach fileNames (mapFile projectRoot) ([], 0) in
  ret (mkRepoMap (fst result) (snd result)).

(** What makes [buildRepoMap] list a file: a parser for its extension and at
    least one symbol found in its tree. *)
Definition listed (projectRoot : string) (w : World) (fileName : string)
    (found : list Symbol) : Prop :=
  ∃ language code,
    parsers (NodePath.extname fileName) = Some language
    ∧ fs w !! NodePath.join projectRoot fileName = Some (TextFile code)
    ∧ found = extractSymbols (parse language code) code
    ∧ found ≠ [].

End RepoMapBuilder.

(** A stand-in for the parser in the examples: the tree is the text, and a
    text that declares nothing has no symbols. *)
Definition sampleParse (language : Language) (code : string) : string := code.
Definition sampleSymbols (tree code : string) : list Symbol := [].

(** ** The context that changes while the agent works ([DynamicContext]) *)

Record DynamicContext := mkDynamicContext {
  baseContext : string;
  addedFiles : list (string * string);
  tokenBudget : nat
}.

(** [new DynamicContext(baseContext, tokenBudget = 25000)]. *)
Definition DynamicContext_new (base : string) (budget : option nat)
    : DynamicContext :=
  mkDynamicContext base [] (default 25000 budget).

Definition removeFile (self : DynamicContext) (filePath : string)
    : DynamicContext :=
  mkDynamicContext (baseContext self) (JsMap.delete filePath (addedFiles self))
    (tokenBudget self).

(** The section [toString] writes for one added file. *)
Definition addedSection (entry : string * string) : string :=
  nl +:+ "### " +:+ fst entry +:+ nl +:+ fence +:+ nl +:+ snd entry +:+ nl
  +:+ fence +:+ nl.

Definition DynamicContext_toString (self : DynamicContext) : string :=
  let context := baseContext self in
  if 0 <? length (addedFiles self) then
    fold_left (λ context entry, context +:+ addedSection entry)
      (addedFiles self)
      (context +:+ nl +:+ nl +:+ "## Files Currently in Context" +:+ nl)
  else context.

Section Dynamic.

Variable countTokens : string → nat.

Definition getTotalTokens (self : DynamicContext) : nat :=
  fold_left (λ total fileContent, total + countTokens fileContent)
    (JsMap.values (addedFiles self)) (countTokens (baseContext self)).

(** [addFile] returns its verdict; the object it leaves comes with it. *)
Definition addFile (self : DynamicContext) (filePath fileContent : string)
    : bool * DynamicContext :=
  let tokens := countTokens fileContent in
  if tokenBudget self <? getTotalTokens self + tokens then (false, self)
  else
    (true,
     mkDynamicContext (baseContext self)
       (JsMap.set filePath fileContent (addedFiles self)) (tokenBudget self)).

End Dynamic.

(** ** Vocabulary for the properties of the chunker *)

(** The lines [first], ..., [last] of a text split into [lines]. *)
Definition lineRange (lines : list string) (first last : nat) : list string :=
  take (S last - first) (drop first lines).

(** Line ranges that follow one another without gap or overlap, from line
    [first] up to line [next] excluded. *)
Fixpoint tiles (first : nat) (cs : list CodeChunk) (next : nat) : Prop :=
  match cs with
  | [] => first = next
  | c :: rest =>
      startLine c = first ∧ first ≤ endLine c ∧ tiles (S (endLine c)) rest next
  end.

(** What [currentLength] adds up: the characters of the lines, the line
    breaks not counted. *)
Definition charCount (lines : list string) : nat :=
  sum_list (String.length <$> lines).

(** A chunk of [f] over the lines [all]: its content is the lines of its
    range, and it carries no embedding yet. *)
Definition chunkOf (f : string) (all : list string) (c : CodeChunk) : Prop :=
  file c = f ∧ embedding c = None
  ∧ startLine c ≤ endLine c ∧ endLine c < length all
  ∧ content c = Str.join (lineRange all (startLine c) (endLine c)).

(** A chunk closed inside the loop: more than five lines, ending with a
    declaration line or at the line where the size limit is reached. *)
Definition closedAtBreak (chunkSize : nat) (all : list string) (c : CodeChunk)
    : Prop :=
  5 < S (endLine c) - startLine c
  ∧ ∃ lastLine, all !! endLine c = Some lastLine
      ∧ (matchesDeclaration lastLine = true
         ∨ chunkSize ≤ charCount (lineRange all (startLine c) (endLine c))).

(** A chunk with the embedding of its content attached, as [embedChunks]
    leaves it. *)
Definition withEmbedding (embedText : string → list PrimFloat.float) (c : CodeChunk)
    : CodeChunk :=
  mkChunk (file c) (startLine c) (endLine c) (content c)
    (Some (embedText (content c))).

(** Every character of a string is in a class. *)
Fixpoint allChars (class : Ascii.ascii → bool) (s : string) : bool :=
  match s with
  | EmptyString => true
  | String c s' => class c && allChars class s'
  end.

(** The estimated size of a project file, as [selectWithinBudget] counts it. *)
Definition fileTokens (projectRoot : string) (w : World) (fileName : string)
    : nat :=
  match fs w !! NodePath.join projectRoot fileName with
  | Some (TextFile fileContent) => estimateTokens fileContent
  | _ => 0
  end.

(** A project file that [fs.readFile] can read as text. *)
Definition readable (projectRoot : string) (w : World) (fileName : string)
    : Prop :=
  ∃ code, fs w !! NodePath.join projectRoot fileName = Some (TextFile code).

(** The section the assembler writes for a project file. *)
Definition sectionOf (projectRoot : string) (w : World) (fileName : string)
    : string :=
  match fs w !! NodePath.join projectRoot fileName with
  | Some (TextFile fileContent) => fileSection fileName fileContent
  | _ => ""
  end.

(** ** Vocabulary for the properties of doubles *)

Section DoubleVocabulary.

Import SpecFloat.

(** The least exponent of a double. *)
Definition emin64 : Z := emin FloatOps.prec FloatOps.emax.

(** The sign of a number that is neither a zero nor [NaN]. *)
Definition signOf (X : spec_float) : option bool :=
  match X with
  | S754_finite s _ _ | S754_infinity s => Some s
  | _ => None
  end.

Definition SFvanishes (X : spec_float) : Prop :=
  match X with
  | S754_zero _ | S754_nan => True
  | _ => False
  end.

(** The order of the numbers that are not [NaN], read off a triple that is
    compared lexicographically: the class and sign, the exponent, the
    mantissa. *)
Definition SFcode (X : spec_float) : Z * Z * Z :=
  match X with
  | S754_zero _ | S754_nan => (0, 0, 0)
  | S754_infinity s => (if s then -2 else 2, 0, 0)
  | S754_finite s m e => if s then (-1, - e, Z.neg m) else (1, e, Z.pos m)
  end%Z.

Definition lexlt (t t' : Z * Z * Z) : Prop :=
  let '(a, b, c) := t in
  let '(a', b', c') := t' in
  (a < a' ∨ (a = a' ∧ (b < b' ∨ (b = b' ∧ c < c'))))%Z.

Definition lexle (t t' : Z * Z * Z) : Prop :=
  let '(a, b, c) := t in
  let '(a', b', c') := t' in
  (a < a' ∨ (a = a' ∧ (b < b' ∨ (b = b' ∧ c <= c'))))%Z.

End DoubleVocabulary.

(** ** Vocabulary for the properties of JSON *)

(** The fuel that parsing a printed document takes. *)
Fixpoint json_size (j : json) : nat :=
  match j with
  | JArr items => S (foldr (λ v n, S (json_size v + n)) 0 items)
  | JObj members => S (foldr (λ m n, S (json_size (snd m) + n)) 0 members)
  | _ => 1
  end.

Section JsonInduction.

Variable P : json → Prop.
Hypothesis Hnull : P JNull.
Hypothesis Hbool : ∀ b, P (JBool b).
Hypothesis Hnum : ∀ x, P (JNum x).
Hypothesis Hstr : ∀ s, P (JStr s).
Hypothesis Harr : ∀ items, Forall P items → P (JArr items).
Hypothesis Hobj : ∀ members, Forall (λ m, P (snd m)) members → P (JObj members).

(** Induction on documents, the elements of arrays and the members of
    objects included. *)
Fixpoint json_nested_ind (j : json) : P j :=
  match j with
  | JNull => Hnull
  | JBool b => Hbool b
  | JNum x => Hnum x
  | JStr s => Hstr s
  | JArr items =>
      Harr items
        ((fix go (l : list json) : Forall P l :=
            match l with
            | [] => Forall_nil_2 P
            | v :: l' => Forall_cons_2 P v l' (json_nested_ind v) (go l')
            end) items)
  | JObj members =>
      Hobj members
        ((fix go (l : list (string * json)) : Forall (λ m, P (snd m)) l :=
            match l with
            | [] => Forall_nil_2 _
            | m :: l' =>
                Forall_cons_2 (λ m, P (snd m)) m l' (json_nested_ind (snd m)) (go l')
            end) members)
  end.

End JsonInduction.

(** What follows a printed value inside a document: not a character of a
    number. *)
Definition delimited (rest : list Ascii.ascii) : Prop :=
  match rest with
  | [] => True
  | c :: _ => JSON.isNumberChar c = false
  end.

(** A printed value starts with a character that is neither white space nor
    a closing bracket. *)
Definition opens (c : Ascii.ascii) : Prop :=
  JSON.isWhitespace c = false
  ∧ Ascii.eqb c (JSON.ch "]") = false ∧ Ascii.eqb c (JSON.ch "}") = false.

Section JsonVocabulary.

Variable numberToString : PrimFloat.float → string.
Variable stringToNumber : string → option PrimFloat.float.

(** The parser reads a printed value back, whatever follows it. *)
Definition readsBack (v : json) : Prop :=
  Forall (JSON.survives numberToString stringToNumber) (JSON.numbers v) →
  ∀ fuel rest, json_size v ≤ fuel → delimited rest →
    JSON.parseValue stringToNumber fuel (JSON.render numberToString v ++ rest)
    = Some (v, rest).

End JsonVocabulary.

(** * Part II: properties *)

(** ** Splitting and joining lines *)

Lemma splitOn_lacks sep s : Forall (λ l, Str.lacks sep l = true) (Str.splitOn sep s).
Proof.
  induction s as [|c s IH]; simpl.
  - by constructor.
  - destruct (Ascii.eqb c sep) eqn:E.
    + by constructor.
    + destruct (Str.splitOn sep s) as [|l ls].
      * repeat constructor. simpl. by rewrite E.
      * inversion IH; subst. constructor; [|done]. simpl. by rewrite E.
Qed.

Lemma splitOn_single sep l : Str.lacks sep l = true → Str.splitOn sep l = [l].
Proof.
  induction l as [|c l IH]; simpl; intros H; [done|].
  apply andb_prop in H as [Hc Hl]. apply negb_true_iff in Hc.
  rewrite Hc. by rewrite (IH Hl).
Qed.

Lemma splitOn_cons sep l s :
  Str.lacks sep l = true →
  Str.splitOn sep (l +:+ Str.ofChar sep +:+ s) = l :: Str.splitOn sep s.
Proof.
  induction l as [|c l IH]; simpl; intros H.
  - by rewrite Ascii.eqb_refl.
  - apply andb_prop in H as [Hc Hl]. apply negb_true_iff in Hc.
    rewrite Hc. by rewrite (IH Hl).
Qed.

(** Joining pieces that are free of the separator and splitting again gives
    the pieces back. *)
Lemma splitOn_joinWith sep ls :
  ls ≠ [] → Forall (λ l, Str.lacks sep l = true) ls →
  Str.splitOn sep (Str.joinWith (Str.ofChar sep) ls) = ls.
Proof.
  induction ls as [|l ls IH]; [done|]. intros _ H.
  inversion H as [|? ? Hl Hls]; subst.
  destruct ls as [|l' ls].
  - simpl. by apply splitOn_single.
  - change (Str.joinWith (Str.ofChar sep) (l :: l' :: ls))
      with (l +:+ Str.ofChar sep +:+ Str.joinWith (Str.ofChar sep) (l' :: ls)).
    rewrite splitOn_cons by done. f_equal. by apply IH.
Qed.

Lemma lineCount_join f s e ls emb :
  ls ≠ [] → Forall (λ l, Str.lacks Str.newline l = true) ls →
  lineCount (mkChunk f s e (Str.join ls) emb) = length ls.
Proof.
  intros Hne Hls. unfold lineCount, Str.split, Str.join. simpl.
  by rewrite splitOn_joinWith.
Qed.

(** ** [chunkCode]: size of the chunks *)

Lemma chunkLoop_invariant f chunkSize lines :
  ∀ i chunks cur start len chunks' cur' start',
    Forall (λ l, Str.lacks Str.newline l = true) lines →
    Forall (λ l, Str.lacks Str.newline l = true) cur →
    Forall fullChunk chunks →
    start + length cur = i →
    chunkLoop f chunkSize lines i chunks cur start len = (chunks', cur', start') →
    Forall fullChunk chunks'
    ∧ Forall (λ l, Str.lacks Str.newline l = true) cur'
    ∧ start' + length cur' = i + length lines.
Proof.
  induction lines as [|line rest IH]; intros i chunks cur start len chunks' cur' start'
    Hlines Hcur Hchunks Hi Hrun; simpl in Hrun.
  - inversion Hrun; subst. simpl. split_and!; [done|done|lia].
  - inversion Hlines as [|? ? Hline Hrest]; subst.
    assert (Hcur1 : Forall (λ l, Str.lacks Str.newline l = true) (cur ++ [line])).
    { apply Forall_app; split; [done|]. by constructor. }
    destruct ((matchesDeclaration line || (chunkSize <=? len + String.length line))
              && (5 <? length (cur ++ [line]))) eqn:Hbreak.
    + apply andb_prop in Hbreak as [_ Hlen]. apply Nat.ltb_lt in Hlen.
      eapply IH in Hrun as (H1 & H2 & H3); [|done|by constructor| |simpl; lia].
      * split_and!; [done|done|]. simpl in *. lia.
      * apply Forall_app; split; [done|]. constructor; [|done].
        unfold fullChunk. rewrite lineCount_join; [|by destruct cur|done].
        simpl. rewrite length_app in *. simpl in *. lia.
    + eapply IH in Hrun as (H1 & H2 & H3); [|done|done|done|].
      * split_and!; [done|done|]. simpl. lia.
      * rewrite length_app. simpl. lia.
Qed.

Lemma Forall_removelast {A} (P : A → Prop) (l : list A) :
  Forall P l → Forall P (removelast l).
Proof.
  induction l as [|x l IH]; intros H; simpl; [done|].
  inversion H; subst. destruct l; [constructor|]. constructor; [done|]. by apply IH.
Qed.

(** C10. Every chunk that [chunkCode] returns, except possibly the last one,
    holds at least six lines (and its line span counts exactly those lines):
    the test [currentChunk.length > 5] gates a break at the size limit as
    well as a break at a declaration. *)
Theorem chunkCode_min_lines (f code : string) (chunkSize : nat) :
  Forall (λ c, 6 ≤ lineCount c ∧ lineCount c = S (endLine c) - startLine c)
    (removelast (chunkCode f code chunkSize)).
Proof.
  unfold chunkCode.
  destruct (chunkLoop f chunkSize (Str.split code) 0 [] [] 0 0)
    as [[chunks cur] start] eqn:Hrun.
  eapply chunkLoop_invariant in Hrun as (H1 & _ & _);
    [|apply splitOn_lacks|constructor|constructor|done].
  destruct (0 <? length cur).
  - by rewrite removelast_last.
  - by apply Forall_removelast.
Qed.

(** The size limit alone does not close a chunk of five lines or fewer. *)
Lemma chunkLoop_size_limit_waits f chunkSize line rest i chunks cur start len :
  matchesDeclaration line = false →
  length cur < 5 →
  chunkLoop f chunkSize (line :: rest) i chunks cur start len
  = chunkLoop f chunkSize rest (S i) chunks (cur ++ [line]) start
      (len + String.length line).
Proof.
  intros Hdecl Hlen. simpl. rewrite Hdecl. simpl.
  replace (5 <? length (cur ++ [line])) with false; [by rewrite andb_false_r|].
  symmetry. apply Nat.ltb_ge. rewrite length_app. simpl. lia.
Qed.

(** ** Phase 3 of the assembler *)

Section Phase3.

Variable countTokens : string → nat.


(** The loop of phase 3 appends a subsequence of the search results, and a
    chunk it leaves out does not fit even the budget left at the end. *)
Lemma appendChunks_kept (config : ContextConfig)
    (searchResults : list CodeChunk) (parts : list string) (totalTokens : nat) :
  ∃ kept : list CodeChunk,
    sublist kept searchResults
    ∧ appendChunks countTokens config searchResults (parts, totalTokens)
      = (parts ++ (chunkSection <$> kept),
         totalTokens + sum_list ((λ c, countTokens (chunkSection c)) <$> kept))
    ∧ ∀ c, c ∈ searchResults → c ∉ kept →
        maxTotalTokens config
        < totalTokens + sum_list ((λ c, countTokens (chunkSection c)) <$> kept)
          + countTokens (chunkSection c).
Proof.
  revert parts totalTokens.
  induction searchResults as [|c rest IH]; intros parts totalTokens.
  - exists []. simpl. rewrite app_nil_r, Nat.add_0_r.
    split_and!; [constructor|done|]. intros c Hc. by apply elem_of_nil in Hc.
  - simpl.
    destruct (totalTokens + countTokens (chunkSection c) <=? maxTotalTokens config)
      eqn:Hfit.
    + destruct (IH (parts ++ [chunkSection c])
                  (totalTokens + countTokens (chunkSection c)))
        as (kept & Hsub & Hrun & Hskip).
      exists (c :: kept). split_and!.
      * by constructor.
      * rewrite Hrun. csimpl. f_equal; [by rewrite <- app_assoc|lia].
      * intros c0 Hin Hout. apply not_elem_of_cons in Hout as [Hne Hout].
        apply elem_of_cons in Hin as [->|Hin]; [done|].
        specialize (Hskip c0 Hin Hout). csimpl. lia.
    + destruct (IH parts totalTokens) as (kept & Hsub & Hrun & Hskip).
      exists kept. split_and!.
      * by constructor.
      * done.
      * intros c0 Hin Hout. apply Nat.leb_gt in Hfit.
        apply elem_of_cons in Hin as [->|Hin]; [lia|]. by apply Hskip.
Qed.


End Phase3.

(** ** The dependency graph *)

Lemma bind_Some {A B} (m : M A) (k : A → M B) (w : World) a w' :
  m w = Some (a, w') → bind m k w = k a w'.
Proof. intros H. unfold bind. by rewrite H. Qed.

Lemma forEach_snoc {A S} (xs : list A) (x : A) (body : S → A → M S) (s : S) (w : World) :
  forEach (xs ++ [x]) body s w
  = match forEach xs body s w with
    | Some (s', w') => body s' x w'
    | None => None
    end.
Proof.
  revert s w. induction xs as [|y xs IH]; intros s w; simpl.
  - unfold bind. destruct (body s x w) as [[s' w']|]; done.
  - unfold bind. destruct (body s y w) as [[s' w']|]; [apply IH|done].
Qed.

Lemma readFile_Some p w code w' :
  readFile p w = Some (code, w') ↔ fs w !! p = Some (TextFile code) ∧ w' = w.
Proof.
  unfold readFile. destruct (fs w !! p) as [[text|]|]; split;
    intros H; try (by destruct H); try done.
  - by inversion H.
  - destruct H as [H ->]. by inversion H.
Qed.

(** Which paths [extractImports] collects: the resolved specifiers that
    start with a dot, whatever they resolve to. *)
Lemma elem_of_extractImports code currentFile v :
  v ∈ extractImports code currentFile
  ↔ ∃ importPath,
      importPath ∈ ImportRegex.captures code
      ∧ Str.startsWith "." importPath = true
      ∧ resolveImport currentFile importPath = Some v
      ∧ Str.isEmpty v = false.
Proof.
  unfold extractImports.
  generalize (ImportRegex.captures code). intros specifiers.
  enough (G : ∀ acc : gset string,
    v ∈ fold_left (collectImport currentFile) specifiers acc
    ↔ v ∈ acc ∨ ∃ importPath, importPath ∈ specifiers
          ∧ Str.startsWith "." importPath = true
          ∧ resolveImport currentFile importPath = Some v
          ∧ Str.isEmpty v = false).
  { rewrite G. split; [|by right]. intros [H|H]; [|done]. by apply not_elem_of_empty in H. }
  induction specifiers as [|p ps IH]; intros acc; simpl.
  - split; [by left|]. intros [H|(p & Hp & _)]; [done|]. by apply elem_of_nil in Hp.
  - rewrite IH. clear IH.
    assert (Hex : ∀ P : string → Prop,
              (∃ q, q ∈ p :: ps ∧ P q) ↔ P p ∨ ∃ q, q ∈ ps ∧ P q).
    { intros P. split.
      - intros (q & Hq & HP). apply elem_of_cons in Hq as [->|Hq]; eauto.
      - intros [HP|(q & Hq & HP)]; [exists p|exists q]; rewrite elem_of_cons; auto. }
    rewrite Hex. clear Hex. unfold collectImport.
    destruct (Str.startsWith "." p) eqn:Hdot; cbn [negb]; [|intuition congruence].
    destruct (resolveImport currentFile p) as [r|] eqn:Hres; [|intuition congruence].
    destruct (Str.isEmpty r) eqn:Hr.
    + split; [tauto|]. intros [H|[(_ & H & H')|H]]; [tauto| |tauto].
      inversion H; subst. congruence.
    + rewrite elem_of_union, elem_of_singleton. split.
      * intros [[H| ->]|H]; tauto.
      * intros [H|[(_ & H & _)|H]]; [tauto| |tauto]. inversion H. tauto.
Qed.

Lemma addReverseEdges_lookup fileName imports rev v u :
  u ∈ default ∅ (addReverseEdges fileName imports rev !! v)
  ↔ u ∈ default ∅ (rev !! v) ∨ (v ∈ imports ∧ u = fileName).
Proof.
  unfold addReverseEdges. revert u.
  apply (set_fold_ind_L (λ r X, ∀ u, u ∈ default ∅ (r !! v)
           ↔ u ∈ default ∅ (rev !! v) ∨ (v ∈ X ∧ u = fileName))).
  - intros u. rewrite elem_of_empty. tauto.
  - intros x X r Hx IH u. rewrite elem_of_union, elem_of_singleton.
    destruct (decide (x = v)) as [->|Hne].
    + rewrite lookup_insert_eq. simpl.
      rewrite elem_of_union, elem_of_singleton, IH. tauto.
    + rewrite lookup_insert_ne by done. rewrite IH. intuition congruence.
Qed.

Lemma buildDependencyGraph_invariant projectRoot w files :
  (∀ f, f ∈ files → is_Some (importsOf projectRoot w f)) →
  ∀ all, ∃ g,
    forEach files (visitFile projectRoot) (mkGraph all ∅ ∅) w = Some (g, w)
    ∧ nodes g = all
    ∧ dom (edges g) = list_to_set files
    ∧ (∀ u targets, edges g !! u = Some targets → importsOf projectRoot w u = Some targets)
    ∧ mirrored g.
Proof.
  induction files as [|f files IH] using rev_ind; intros Hread all.
  - exists (mkGraph all ∅ ∅). simpl. by split_and!.
  - destruct (IH (λ x Hx, Hread x (proj2 (elem_of_app _ _ _) (or_introl Hx))) all)
      as (g & Hrun & Hnodes & Hdom & Himp & Hmir).
    destruct (Hread f) as [targets Hf]; [set_solver|].
    rewrite forEach_snoc, Hrun. unfold visitFile, bind, readFile, ret.
    unfold importsOf in Hf.
    destruct (fs w !! NodePath.join projectRoot f) as [[code|]|] eqn:Hfs; try done.
    inversion Hf as [Ht]. eexists. split; [reflexivity|]. simpl.
    split_and!.
    + done.
    + rewrite dom_insert_L, Hdom, list_to_set_app_L. set_solver.
    + intros u ts. destruct (decide (f = u)) as [->|Hne].
      * rewrite lookup_insert_eq. intros [= <-]. unfold importsOf. by rewrite Hfs.
      * rewrite lookup_insert_ne by done. apply Himp.
    + intros u v. simpl. rewrite addReverseEdges_lookup.
      specialize (Hmir u v). rewrite Hmir.
      destruct (decide (f = u)) as [->|Hne].
      * rewrite lookup_insert_eq. simpl.
        destruct (edges g !! u) as [ts|] eqn:Hu; simpl.
        -- apply Himp in Hu. unfold importsOf in Hu. rewrite Hfs in Hu.
           inversion Hu; subst. tauto.
        -- rewrite elem_of_empty. tauto.
      * rewrite lookup_insert_ne by done. intuition congruence.
Qed.

(** X30. What the builder does guarantee.  When every listed file can be read,
    [buildDependencyGraph] returns a graph whose nodes are the listed files,
    whose forward edges have exactly the files as sources and whose reverse
    edges mirror the forward ones, so the source of every edge is a node.
    The target of an edge is the resolved path of an import specifier that
    starts with a dot; nothing relates it to the nodes. *)
Lemma buildDependencyGraph_edges (projectRoot : string) (files : list string)
    (w : World) :
  (∀ f, f ∈ files →
     ∃ code, fs w !! NodePath.join projectRoot f = Some (TextFile code)) →
  ∃ g,
    buildDependencyGraph projectRoot files w = Some (g, w)
    ∧ nodes g = list_to_set files
    ∧ dom (edges g) = nodes g
    ∧ mirrored g
    ∧ (∀ v importers, reverseEdges g !! v = Some importers → importers ⊆ nodes g)
    ∧ (∀ u v, v ∈ default ∅ (edges g !! u)
         ↔ u ∈ files
           ∧ ∃ code importPath,
               fs w !! NodePath.join projectRoot u = Some (TextFile code)
               ∧ importPath ∈ ImportRegex.captures code
               ∧ Str.startsWith "." importPath = true
               ∧ resolveImport u importPath = Some v
               ∧ Str.isEmpty v = false).
Proof.
  intros Hread.
  destruct (buildDependencyGraph_invariant projectRoot w files) with (all := list_to_set (C := gset string) files)
    as (g & Hrun & Hnodes & Hdom & Himp & Hmir).
  { intros f Hf. destruct (Hread f Hf) as [code Hc]. unfold importsOf.
    rewrite Hc. by eexists. }
  exists g. split_and!.
  - exact Hrun.
  - done.
  - by rewrite Hnodes.
  - done.
  - intros v importers Hv u Hu. rewrite Hnodes, <- Hdom.
    assert (Hin : u ∈ default ∅ (reverseEdges g !! v)) by (by rewrite Hv).
    apply Hmir in Hin. apply elem_of_dom.
    destruct (edges g !! u); [by eexists|]. simpl in Hin. set_solver.
  - intros u v. split.
    + intros Hv. destruct (edges g !! u) as [targets|] eqn:Hu; [|simpl in Hv; set_solver].
      simpl in Hv. split.
      * assert (u ∈ dom (edges g)) by (apply elem_of_dom; eauto).
        rewrite Hdom in H. set_solver.
      * apply Himp in Hu. unfold importsOf in Hu.
        destruct (fs w !! NodePath.join projectRoot u) as [[code|]|] eqn:Hfs; try done.
        inversion Hu; subst. apply elem_of_extractImports in Hv as (p & ?).
        exists code, p. naive_solver.
    + intros (Hu & code & p & Hfs & Hp).
      assert (Hd : u ∈ dom (edges g)) by (rewrite Hdom; set_solver).
      apply elem_of_dom in Hd as [targets Ht]. rewrite Ht. simpl.
      apply Himp in Ht. unfold importsOf in Ht. rewrite Hfs in Ht.
      inversion Ht; subst. apply elem_of_extractImports. eauto.
Qed.

(** ** The ranker: which files get a score *)

Lemma QofNat_nonneg k : (0 <= QofNat k)%Q.
Proof. unfold QofNat, Qle. simpl. lia. Qed.

Lemma QofNat_pos k : 0 < k → (0 < QofNat k)%Q.
Proof. unfold QofNat, Qlt. simpl. lia. Qed.

Lemma QofNat_S k : (QofNat (S k) == QofNat k + 1)%Q.
Proof.
  unfold QofNat. rewrite Nat2Z.inj_succ, <- Z.add_1_r, inject_Z_plus. reflexivity.
Qed.

Lemma QofNat_le j k : j ≤ k → (QofNat j <= QofNat k)%Q.
Proof. intros H. unfold QofNat. rewrite <- Zle_Qle. lia. Qed.

Lemma lookup_tabulate {V} (f : string → V) (X : gset string) (k : string) (y : V) :
  set_fold (λ node acc, <[node := f node]> acc) (∅ : gmap string V) X !! k = Some y
  ↔ k ∈ X ∧ y = f k.
Proof.
  revert y.
  apply (set_fold_ind_L (λ (r : gmap string V) Y, ∀ y, r !! k = Some y ↔ k ∈ Y ∧ y = f k)).
  - intros y. rewrite lookup_empty, elem_of_empty. split; [done|tauto].
  - intros x Y r Hx IH y. rewrite elem_of_union, elem_of_singleton.
    destruct (decide (x = k)) as [->|Hne].
    + rewrite lookup_insert_eq. split; [intros [= <-]; tauto|].
      intros [_ ->]. done.
    + rewrite lookup_insert_ne by done. rewrite IH. intuition congruence.
Qed.

Lemma lookup_tabulate_None {V} (f : string → V) (X : gset string) (k : string) :
  set_fold (λ node acc, <[node := f node]> acc) (∅ : gmap string V) X !! k = None
  ↔ k ∉ X.
Proof.
  destruct (set_fold _ _ X !! k) as [y|] eqn:E.
  - apply lookup_tabulate in E as [Hk _]. split; [done|tauto].
  - split; [|done]. intros _ Hk.
    assert (H : set_fold (λ node acc, <[node := f node]> acc) (∅ : gmap string V) X !! k
                = Some (f k)) by (by apply lookup_tabulate).
    congruence.
Qed.

Lemma dom_tabulate {V} (f : string → V) (X : gset string) :
  dom (set_fold (λ node acc, <[node := f node]> acc) (∅ : gmap string V) X) = X.
Proof.
  apply set_eq. intros k. rewrite elem_of_dom. split.
  - intros [y Hy]. by apply lookup_tabulate in Hy as [? _].
  - intros Hk. exists (f k). by apply lookup_tabulate.
Qed.

Lemma getScore_initialScores graph n k :
  getScore (initialScores graph n) k
  = if decide (k ∈ nodes graph) then (1 / n)%Q else 0%Q.
Proof.
  unfold getScore, initialScores. destruct (decide (k ∈ nodes graph)) as [Hk|Hk].
  - assert (H : set_fold (λ node scores, <[node := (1 / n)%Q]> scores)
                  (∅ : gmap string Q) (nodes graph) !! k = Some (1 / n)%Q)
      by (by apply (lookup_tabulate (λ _, (1 / n)%Q))).
    by rewrite H.
  - apply (lookup_tabulate_None (λ _, (1 / n)%Q)) in Hk. by rewrite Hk.
Qed.

Lemma getScore_rankPass graph d n scores k :
  getScore (rankPass graph d n scores) k
  = if decide (k ∈ nodes graph) then nodeScore graph d n scores k
    else getScore scores k.
Proof.
  unfold getScore, rankPass. destruct (decide (k ∈ nodes graph)) as [Hk|Hk].
  - assert (H : set_fold (λ node acc, <[node := nodeScore graph d n scores node]> acc)
                  (∅ : gmap string Q) (nodes graph) !! k
                = Some (nodeScore graph d n scores k))
      by (by apply (lookup_tabulate (nodeScore graph d n scores))).
    by rewrite (lookup_union_Some_l _ _ _ _ H).
  - apply (lookup_tabulate_None (nodeScore graph d n scores)) in Hk.
    by rewrite lookup_union_r.
Qed.

Lemma getScore_boostSeeds_cons boost seed seedFiles scores :
  boostSeeds boost (seed :: seedFiles) scores
  = boostSeeds boost seedFiles (<[seed := (getScore scores seed + boost seed)%Q]> scores).
Proof. done. Qed.

Lemma dom_boostSeeds boost seedFiles scores :
  dom (boostSeeds boost seedFiles scores) = dom scores ∪ list_to_set seedFiles.
Proof.
  revert scores. induction seedFiles as [|seed rest IH]; intros scores.
  - simpl. set_solver.
  - rewrite getScore_boostSeeds_cons, IH, dom_insert_L. set_solver.
Qed.

Lemma dom_rankPass graph d n scores :
  dom (rankPass graph d n scores) = nodes graph ∪ dom scores.
Proof.
  unfold rankPass. rewrite dom_union_L.
  by rewrite (dom_tabulate (nodeScore graph d n scores)).
Qed.

Lemma dom_rankPasses graph d n iters scores :
  nodes graph ⊆ dom scores →
  dom (Nat.iter iters (rankPass graph d n) scores) = dom scores.
Proof.
  intros Hsub. induction iters as [|k IH]; simpl; [done|].
  rewrite dom_rankPass, IH. set_solver.
Qed.

(** C4 (amended). The map returned by [rankFiles] has an entry for every
    graph node and for every seed file, and no other: a seed that is not a
    member of [graph.nodes] is given an entry of its own (starting from
    [scores.get(seed) ?? 0]) and keeps it in the returned map. *)
Theorem rankFiles_entries (graph : FileGraph) (seedFiles : list string)
    (options : RankOptions) (k : string) :
  is_Some (rankFiles graph seedFiles options !! k)
  ↔ k ∈ nodes graph ∨ k ∈ seedFiles.
Proof.
  rewrite <- elem_of_dom. unfold rankFiles, rankFilesBoosted.
  rewrite dom_rankPasses.
  - rewrite dom_boostSeeds. unfold initialScores.
    rewrite (dom_tabulate (λ _, (1 / QofNat (size (nodes graph)))%Q)).
    rewrite elem_of_union, elem_of_list_to_set. tauto.
  - rewrite dom_boostSeeds. unfold initialScores.
    rewrite (dom_tabulate (λ _, (1 / QofNat (size (nodes graph)))%Q)). set_solver.
Qed.

(** ** Finite sums of rationals *)

Local Open Scope Q_scope.

Lemma sumQ_fmap_ext {A} (f g : A → Q) (l : list A) :
  (∀ x, x ∈ l → f x == g x) → sumQ (f <$> l) == sumQ (g <$> l).
Proof.
  induction l as [|a l IH]; intros H; csimpl; [reflexivity|].
  rewrite (H a) by (by left). rewrite IH; [reflexivity|].
  intros x Hx. apply H. by right.
Qed.

Lemma sumQ_fmap_le {A} (f g : A → Q) (l : list A) :
  (∀ x, x ∈ l → f x <= g x) → sumQ (f <$> l) <= sumQ (g <$> l).
Proof.
  induction l as [|a l IH]; intros H; csimpl; [lra|].
  apply Qplus_le_compat; [apply H; by left|]. apply IH. intros x Hx. apply H. by right.
Qed.

Lemma sumQ_fmap_nonneg {A} (f : A → Q) (l : list A) :
  (∀ x, x ∈ l → 0 <= f x) → 0 <= sumQ (f <$> l).
Proof.
  induction l as [|a l IH]; intros H; csimpl; [lra|].
  assert (0 <= f a) by (apply H; by left).
  assert (0 <= sumQ (f <$> l)) by (apply IH; intros x Hx; apply H; by right).
  lra.
Qed.

Lemma sumQ_fmap_plus {A} (f g : A → Q) (l : list A) :
  sumQ ((λ x, f x + g x) <$> l) == sumQ (f <$> l) + sumQ (g <$> l).
Proof. induction l as [|a l IH]; csimpl; [lra|]. rewrite IH. ring. Qed.

Lemma sumQ_fmap_const {A} (c : Q) (l : list A) :
  sumQ ((λ _, c) <$> l) == QofNat (length l) * c.
Proof.
  induction l as [|a l IH]; simpl length; [csimpl; unfold QofNat; simpl; ring|].
  rewrite QofNat_S. csimpl. rewrite IH. ring.
Qed.

Lemma sumQ_fmap_scale {A} (f : A → Q) (d : Q) (l : list A) :
  sumQ ((λ x, d * f x) <$> l) == d * sumQ (f <$> l).
Proof. induction l as [|a l IH]; csimpl; [ring|]. rewrite IH. ring. Qed.

Lemma sumQ_swap {A B} (F : A → B → Q) (la : list A) (lb : list B) :
  sumQ ((λ x, sumQ (F x <$> lb)) <$> la)
  == sumQ ((λ y, sumQ ((λ x, F x y) <$> la)) <$> lb).
Proof.
  induction la as [|a la IH]; csimpl.
  - rewrite (sumQ_fmap_const 0). ring.
  - rewrite IH. rewrite <- sumQ_fmap_plus. reflexivity.
Qed.

Lemma sumQ_Permutation (l l' : list Q) : l ≡ₚ l' → sumQ l == sumQ l'.
Proof.
  induction 1 as [|x l l' _ IH|x y l|l l' l'' _ IH1 _ IH2]; csimpl.
  - reflexivity.
  - by rewrite IH.
  - ring.
  - by rewrite IH1.
Qed.

Lemma sumQ_filter {A} (P : A → Prop) `{∀ x, Decision (P x)} (f : A → Q) (l : list A) :
  sumQ (f <$> filter P l) == sumQ ((λ x, if decide (P x) then f x else 0) <$> l).
Proof.
  induction l as [|a l IH]; csimpl; [reflexivity|].
  rewrite filter_cons. destruct (decide (P a)); csimpl; rewrite IH; ring.
Qed.

(** A sum over a subset, written as a sum over the whole set. *)
Lemma sumQ_subset (f : string → Q) (X V : gset string) :
  X ⊆ V →
  sumQ (f <$> elements X)
  == sumQ ((λ u, if decide (u ∈ X) then f u else 0) <$> elements V).
Proof.
  intros Hsub. rewrite <- (sumQ_filter (λ u, u ∈ X)).
  apply sumQ_Permutation. apply fmap_Permutation.
  apply NoDup_Permutation.
  - apply NoDup_elements.
  - apply NoDup_filter, NoDup_elements.
  - intros u. rewrite list_elem_of_filter, !elem_of_elements. set_solver.
Qed.

(** ** The ranker: arithmetic of one pass *)

Lemma outDegree_nonneg graph u : 0 <= outDegree graph u.
Proof.
  unfold outDegree. destruct (edges graph !! u); [apply QofNat_nonneg|lra].
Qed.

(** Under [mirrored] the divisor of an importer's score is never zero. *)
Lemma outDegree_pos graph u v :
  mirrored graph → u ∈ default ∅ (reverseEdges graph !! v) → 0 < outDegree graph u.
Proof.
  intros Hmir Hu. apply Hmir in Hu. unfold outDegree.
  destruct (edges graph !! u) as [targets|]; simpl in Hu; [|lra].
  apply QofNat_pos.
  assert (size targets ≠ 0%nat) by (apply size_non_empty_iff; set_solver).
  lia.
Qed.

(** The finite check implies the property. *)
Lemma mirroredCheck_mirrored graph : mirroredCheck graph → mirrored graph.
Proof.
  intros [Hrev Hfwd] u v. split.
  - intros Hu. destruct (reverseEdges graph !! v) as [importers|] eqn:Hv;
      [|by apply elem_of_empty in Hu].
    by apply (Hrev v importers Hv u).
  - intros Hv. destruct (edges graph !! u) as [targets|] eqn:Hu;
      [|by apply elem_of_empty in Hv].
    by apply (Hfwd u targets Hu v).
Qed.

Lemma nodeScore_sum graph d n scores v :
  nodeScore graph d n scores v
  == (1 - d) / n
     + d * sumQ ((λ u, getScore scores u / outDegree graph u)
                 <$> elements (default ∅ (reverseEdges graph !! v))).
Proof.
  unfold nodeScore, set_fold. simpl.
  generalize ((1 - d) / n). intros c.
  induction (elements (default ∅ (reverseEdges graph !! v))) as [|u l IH]; csimpl.
  - ring.
  - rewrite IH. unfold Qdiv. ring.
Qed.

Lemma nodeScore_nonneg graph d n scores v :
  0 <= d → d <= 1 → 0 <= n → (∀ k, 0 <= getScore scores k) →
  0 <= nodeScore graph d n scores v.
Proof.
  intros Hd0 Hd1 Hn Hs. rewrite nodeScore_sum.
  assert (0 <= (1 - d) / n).
  { unfold Qdiv. apply Qmult_le_0_compat; [lra|by apply Qinv_le_0_compat]. }
  assert (0 <= sumQ ((λ u, getScore scores u / outDegree graph u)
                     <$> elements (default ∅ (reverseEdges graph !! v)))).
  { apply sumQ_fmap_nonneg. intros u _. unfold Qdiv.
    apply Qmult_le_0_compat; [apply Hs|]. apply Qinv_le_0_compat, outDegree_nonneg. }
  nra.
Qed.

Lemma nodeScore_mono graph d n scores scores' v :
  0 <= d → (∀ k, getScore scores k <= getScore scores' k) →
  nodeScore graph d n scores v <= nodeScore graph d n scores' v.
Proof.
  intros Hd Hs. rewrite !nodeScore_sum.
  assert (sumQ ((λ u, getScore scores u / outDegree graph u)
                <$> elements (default ∅ (reverseEdges graph !! v)))
          <= sumQ ((λ u, getScore scores' u / outDegree graph u)
                   <$> elements (default ∅ (reverseEdges graph !! v)))).
  { apply sumQ_fmap_le. intros u _. unfold Qdiv.
    apply Qmult_le_compat_r; [apply Hs|]. apply Qinv_le_0_compat, outDegree_nonneg. }
  nra.
Qed.

Lemma importers_in_nodes graph v :
  map_Forall (λ _ importers, importers ⊆ nodes graph) (reverseEdges graph) →
  default ∅ (reverseEdges graph !! v) ⊆ nodes graph.
Proof.
  intros Hin. destruct (reverseEdges graph !! v) as [importers|] eqn:Hv; simpl.
  - by apply (Hin v).
  - set_solver.
Qed.

(** How many nodes a file imports, seen from the reverse edges. *)
Lemma sumQ_importers graph u (c : Q) :
  mirrored graph →
  sumQ ((λ v, if decide (u ∈ default ∅ (reverseEdges graph !! v)) then c else 0)
        <$> elements (nodes graph))
  == c * QofNat (size (default ∅ (edges graph !! u) ∩ nodes graph)).
Proof.
  intros Hmir.
  transitivity
    (sumQ ((λ v, if decide (v ∈ default ∅ (edges graph !! u) ∩ nodes graph)
                 then c else 0) <$> elements (nodes graph))).
  - apply sumQ_fmap_ext. intros v Hv. apply elem_of_elements in Hv.
    destruct (decide (u ∈ default ∅ (reverseEdges graph !! v))) as [H|H];
      destruct (decide (v ∈ default ∅ (edges graph !! u) ∩ nodes graph)) as [H'|H'];
      try reflexivity.
    + exfalso. apply H'. apply elem_of_intersection. split; [by apply Hmir|done].
    + exfalso. apply H. apply Hmir. by apply elem_of_intersection in H' as [? _].
  - rewrite <- (sumQ_subset (λ _, c)) by set_solver.
    rewrite sumQ_fmap_const. unfold size, set_size. simpl. ring.
Qed.

(** The mass after one pass: the constant part, plus what the importers
    pass on along edges that end in a node. *)
Lemma totalScore_rankPass graph d n scores :
  mirrored graph →
  map_Forall (λ _ importers, importers ⊆ nodes graph) (reverseEdges graph) →
  totalScore graph (rankPass graph d n scores)
  == QofNat (size (nodes graph)) * ((1 - d) / n)
     + d * sumQ ((λ u, getScore scores u / outDegree graph u
                       * QofNat (size (default ∅ (edges graph !! u) ∩ nodes graph)))
                 <$> elements (nodes graph)).
Proof.
  intros Hmir Hin. unfold totalScore.
  transitivity
    (sumQ ((λ v, (1 - d) / n
                 + d * sumQ ((λ u, getScore scores u / outDegree graph u)
                             <$> elements (default ∅ (reverseEdges graph !! v))))
           <$> elements (nodes graph))).
  { apply sumQ_fmap_ext. intros v Hv. apply elem_of_elements in Hv.
    rewrite getScore_rankPass, decide_True by done. apply nodeScore_sum. }
  rewrite sumQ_fmap_plus, sumQ_fmap_const, sumQ_fmap_scale.
  replace (length (elements (nodes graph))) with (size (nodes graph)) by done.
  apply Qplus_comp; [reflexivity|]. apply Qmult_comp; [reflexivity|].
  transitivity
    (sumQ ((λ v, sumQ ((λ u, if decide (u ∈ default ∅ (reverseEdges graph !! v))
                             then getScore scores u / outDegree graph u else 0)
                       <$> elements (nodes graph)))
           <$> elements (nodes graph))).
  { apply sumQ_fmap_ext. intros v _.
    apply (sumQ_subset (λ u, getScore scores u / outDegree graph u)).
    by apply importers_in_nodes. }
  rewrite sumQ_swap. apply sumQ_fmap_ext. intros u _.
  by apply sumQ_importers.
Qed.

(** What one importer passes on never exceeds its own score. *)
Lemma passed_on_le graph scores u :
  0 <= getScore scores u →
  getScore scores u / outDegree graph u
  * QofNat (size (default ∅ (edges graph !! u) ∩ nodes graph))
  <= getScore scores u.
Proof.
  intros Hs. unfold outDegree.
  destruct (edges graph !! u) as [targets|]; simpl.
  - destruct (decide (size targets = 0%nat)) as [Hz|Hnz].
    + apply size_empty_iff in Hz. apply leibniz_equiv in Hz. subst targets.
      rewrite intersection_empty_l_L, size_empty. change (QofNat 0) with 0.
      unfold Qdiv. nra.
    + assert (Hpos : 0 < QofNat (size targets)) by (apply QofNat_pos; lia).
      assert (Hle : QofNat (size (targets ∩ nodes graph)) <= QofNat (size targets)).
      { apply QofNat_le, subseteq_size. set_solver. }
      assert (Hc : 0 <= QofNat (size (targets ∩ nodes graph))) by apply QofNat_nonneg.
      assert (Hr : QofNat (size (targets ∩ nodes graph)) / QofNat (size targets) <= 1)
        by (apply Qle_shift_div_r; [done|lra]).
      assert (E : getScore scores u / QofNat (size targets)
                  * QofNat (size (targets ∩ nodes graph))
                  == getScore scores u
                     * (QofNat (size (targets ∩ nodes graph)) / QofNat (size targets)))
        by (field; lra).
      rewrite E. nra.
  - rewrite intersection_empty_l_L, size_empty. change (QofNat 0) with 0. nra.
Qed.

(** In a graph where every node imports some node and only nodes, an
    importer passes on exactly its score. *)
Lemma passed_on_all graph scores u targets :
  edges graph !! u = Some targets → targets ≠ ∅ → targets ⊆ nodes graph →
  getScore scores u / outDegree graph u
  * QofNat (size (default ∅ (edges graph !! u) ∩ nodes graph))
  == getScore scores u.
Proof.
  intros Hu Hne Hsub. unfold outDegree. rewrite Hu. simpl.
  replace (targets ∩ nodes graph) with targets by set_solver.
  assert (0 < QofNat (size targets)).
  { apply QofNat_pos. assert (size targets ≠ 0%nat); [|lia].
    apply size_non_empty_iff. by intros ->%leibniz_equiv. }
  field. lra.
Qed.

Lemma mass_constant (k : nat) (d : Q) :
  (0 < k)%nat → QofNat k * ((1 - d) / QofNat k) == 1 - d.
Proof. intros Hk. apply QofNat_pos in Hk. field. lra. Qed.

Lemma totalScore_rankPass_le graph d scores :
  mirrored graph →
  map_Forall (λ _ importers, importers ⊆ nodes graph) (reverseEdges graph) →
  0 <= d → d <= 1 →
  (∀ k, 0 <= getScore scores k) →
  totalScore graph scores <= 1 →
  totalScore graph (rankPass graph d (QofNat (size (nodes graph))) scores) <= 1.
Proof.
  intros Hmir Hin Hd0 Hd1 Hs Htot. rewrite totalScore_rankPass by done.
  assert (Hsum : sumQ ((λ u, getScore scores u / outDegree graph u
                  * QofNat (size (default ∅ (edges graph !! u) ∩ nodes graph)))
                 <$> elements (nodes graph)) <= totalScore graph scores).
  { apply sumQ_fmap_le. intros u _. by apply passed_on_le. }
  destruct (decide (size (nodes graph) = 0%nat)) as [Hz|Hnz].
  - rewrite Hz. change (QofNat 0) with 0. nra.
  - rewrite mass_constant by lia. nra.
Qed.

Lemma totalScore_rankPass_eq graph d scores :
  mirrored graph →
  map_Forall (λ _ importers, importers ⊆ nodes graph) (reverseEdges graph) →
  nodes graph ≠ ∅ →
  (∀ u, u ∈ nodes graph →
     ∃ targets, edges graph !! u = Some targets ∧ targets ≠ ∅
                ∧ targets ⊆ nodes graph) →
  totalScore graph scores == 1 →
  totalScore graph (rankPass graph d (QofNat (size (nodes graph))) scores) == 1.
Proof.
  intros Hmir Hin Hne Hclosed Htot. rewrite totalScore_rankPass by done.
  assert (Hsum : sumQ ((λ u, getScore scores u / outDegree graph u
                  * QofNat (size (default ∅ (edges graph !! u) ∩ nodes graph)))
                 <$> elements (nodes graph)) == totalScore graph scores).
  { apply sumQ_fmap_ext. intros u Hu. apply elem_of_elements in Hu.
    destruct (Hclosed u Hu) as (targets & H1 & H2 & H3).
    by apply (passed_on_all _ _ _ targets). }
  rewrite Hsum, Htot, mass_constant; [ring|].
  assert (size (nodes graph) ≠ 0%nat); [|lia].
  apply size_non_empty_iff. by intros H%leibniz_equiv.
Qed.

Lemma totalScore_initialScores graph :
  totalScore graph (initialScores graph (QofNat (size (nodes graph))))
  == if decide (size (nodes graph) = 0%nat) then 0 else 1.
Proof.
  unfold totalScore.
  transitivity (sumQ ((λ _, 1 / QofNat (size (nodes graph))) <$> elements (nodes graph))).
  { apply sumQ_fmap_ext. intros v Hv. apply elem_of_elements in Hv.
    rewrite getScore_initialScores, decide_True by done. reflexivity. }
  rewrite sumQ_fmap_const.
  replace (length (elements (nodes graph))) with (size (nodes graph)) by done.
  destruct (decide (size (nodes graph) = 0%nat)) as [Hz|Hnz].
  - rewrite Hz. change (QofNat 0) with 0. ring.
  - assert (0 < QofNat (size (nodes graph))) by (apply QofNat_pos; lia).
    field. lra.
Qed.

Lemma getScore_initialScores_nonneg graph n k :
  0 <= n → 0 <= getScore (initialScores graph n) k.
Proof.
  intros Hn. rewrite getScore_initialScores. destruct (decide _); [|lra].
  unfold Qdiv. apply Qmult_le_0_compat; [lra|by apply Qinv_le_0_compat].
Qed.

Lemma getScore_rankPass_nonneg graph d n scores k :
  0 <= d → d <= 1 → 0 <= n → (∀ k, 0 <= getScore scores k) →
  0 <= getScore (rankPass graph d n scores) k.
Proof.
  intros. rewrite getScore_rankPass. destruct (decide _); [|done].
  by apply nodeScore_nonneg.
Qed.

(** Without seeds, in exact arithmetic: the scores are non-negative and sum
    to at most 1, and to 1 when every node imports at least one file and
    imports only nodes. *)
Lemma rankFiles_no_seeds_exact (graph : FileGraph) (options : RankOptions) :
  0 <= default 0.85 (damping options) →
  default 0.85 (damping options) <= 1 →
  mirrored graph →
  map_Forall (λ _ importers, importers ⊆ nodes graph) (reverseEdges graph) →
  (∀ v, 0 <= getScore (rankFiles graph [] options) v)
  ∧ totalScore graph (rankFiles graph [] options) <= 1
  ∧ (nodes graph ≠ ∅ →
     (∀ u, u ∈ nodes graph →
        ∃ targets, edges graph !! u = Some targets ∧ targets ≠ ∅
                   ∧ targets ⊆ nodes graph) →
     totalScore graph (rankFiles graph [] options) == 1).
Proof.
  intros Hd0 Hd1 Hmir Hin. unfold rankFiles, rankFilesBoosted. simpl boostSeeds.
  set (d := default 0.85 (damping options)) in *.
  set (n := QofNat (size (nodes graph))).
  assert (Hn : 0 <= n) by apply QofNat_nonneg.
  induction (default 20%nat (iterations options)) as [|k (IH1 & IH2 & IH3)]; simpl.
  - split_and!.
    + intros v. by apply getScore_initialScores_nonneg.
    + unfold n. rewrite totalScore_initialScores. destruct (decide _); lra.
    + intros Hne _. unfold n. rewrite totalScore_initialScores.
      rewrite decide_False; [reflexivity|].
      apply size_non_empty_iff. by intros H%leibniz_equiv.
  - split_and!.
    + intros v. by apply getScore_rankPass_nonneg.
    + by apply totalScore_rankPass_le.
    + intros Hne Hclosed. apply totalScore_rankPass_eq; auto.
Qed.

(** ** The ranker over rounded arithmetic *)

Lemma QofNat_add j k : QofNat (j + k) == QofNat j + QofNat k.
Proof. unfold QofNat. by rewrite Nat2Z.inj_add, inject_Z_plus. Qed.

Lemma QofNat_mul j k : QofNat (j * k) == QofNat j * QofNat k.
Proof. unfold QofNat. by rewrite Nat2Z.inj_mul, inject_Z_mult. Qed.

Lemma QofNat_ge1 k : (0 < k)%nat → 1 <= QofNat k.
Proof. intros Hk. apply (QofNat_le 1 k). lia. Qed.

Lemma Qpow_add x j k : Qpow x (j + k) == Qpow x j * Qpow x k.
Proof. induction j as [|j IH]; simpl; [ring|]. rewrite IH. ring. Qed.

Lemma Qpow_ge1 x k : 1 <= x → 1 <= Qpow x k.
Proof. intros Hx. induction k as [|k IH]; simpl; [lra|nra]. Qed.

Lemma Qpow_unit x k : 0 <= x → x <= 1 → 0 <= Qpow x k ∧ Qpow x k <= 1.
Proof. intros H0 H1. induction k as [|k [IH0 IH1]]; simpl; [lra|nra]. Qed.

Lemma Qpow_mono x j k : 1 <= x → (j ≤ k)%nat → Qpow x j <= Qpow x k.
Proof.
  intros Hx Hjk. replace k with ((k - j) + j)%nat by lia. rewrite Qpow_add.
  pose proof (Qpow_ge1 x (k - j) Hx). pose proof (Qpow_ge1 x j Hx). nra.
Qed.

Lemma Qpow_anti x j k : 0 <= x → x <= 1 → (j ≤ k)%nat → Qpow x k <= Qpow x j.
Proof.
  intros H0 H1 Hjk. replace k with ((k - j) + j)%nat by lia. rewrite Qpow_add.
  pose proof (Qpow_unit x (k - j) H0 H1). pose proof (Qpow_unit x j H0 H1). nra.
Qed.

(** [(1 + u)^m] exceeds 1 by at least as much as [(1 - u)^m] falls short. *)
Lemma Qpow_around_one u m :
  0 <= u → u <= 1 → 2 <= Qpow (1 + u) m + Qpow (1 - u) m.
Proof.
  intros H0 H1.
  assert (H : 2 <= Qpow (1 + u) m + Qpow (1 - u) m
              ∧ Qpow (1 - u) m <= Qpow (1 + u) m).
  { induction m as [|m [IH1 IH2]]; simpl; [lra|].
    assert (0 <= Qpow (1 - u) m) by (apply Qpow_unit; lra).
    split; nra. }
  tauto.
Qed.

Lemma outDegree_ge1 graph importer v :
  mirrored graph → importer ∈ default ∅ (reverseEdges graph !! v) →
  1 <= outDegree graph importer.
Proof.
  intros Hmir Hu. apply Hmir in Hu. unfold outDegree.
  destruct (edges graph !! importer) as [targets|]; simpl in Hu; [|lra].
  apply QofNat_ge1.
  assert (size targets ≠ 0%nat) by (apply size_non_empty_iff; set_solver).
  lia.
Qed.

Lemma getScore_initialScoresRounded round graph n k :
  getScore (initialScoresRounded round graph n) k
  = if decide (k ∈ nodes graph) then round (1 / n) else 0.
Proof.
  unfold getScore, initialScoresRounded.
  destruct (decide (k ∈ nodes graph)) as [Hk|Hk].
  - assert (H : set_fold (λ node scores, <[node := round (1 / n)]> scores)
                  (∅ : gmap string Q) (nodes graph) !! k = Some (round (1 / n)))
      by (by apply (lookup_tabulate (λ _, round (1 / n)))).
    by rewrite H.
  - apply (lookup_tabulate_None (λ _, round (1 / n))) in Hk. by rewrite Hk.
Qed.

Lemma getScore_rankPassRounded round graph d n scores k :
  getScore (rankPassRounded round graph d n scores) k
  = if decide (k ∈ nodes graph) then nodeScoreRounded round graph d n scores k
    else getScore scores k.
Proof.
  unfold getScore, rankPassRounded. destruct (decide (k ∈ nodes graph)) as [Hk|Hk].
  - assert (H : set_fold
                  (λ node acc, <[node := nodeScoreRounded round graph d n scores node]> acc)
                  (∅ : gmap string Q) (nodes graph) !! k
                = Some (nodeScoreRounded round graph d n scores k))
      by (by apply (lookup_tabulate (nodeScoreRounded round graph d n scores))).
    by rewrite (lookup_union_Some_l _ _ _ _ H).
  - apply (lookup_tabulate_None (nodeScoreRounded round graph d n scores)) in Hk.
    by rewrite lookup_union_r.
Qed.

Lemma sumQ_bound_above {A} (f g : A → Q) (F c : Q) (l : list A) :
  0 <= F →
  (∀ x, x ∈ l → f x <= F * (g x + c)) →
  sumQ (f <$> l) <= F * (sumQ (g <$> l) + QofNat (length l) * c).
Proof.
  intros HF. induction l as [|x l IH]; intros Hl.
  - csimpl. change (QofNat 0) with 0. nra.
  - simpl length. rewrite QofNat_S. csimpl.
    pose proof (Hl x ltac:(left)).
    pose proof (IH (λ y Hy, Hl y ltac:(by right))).
    lra.
Qed.

Lemma sumQ_bound_below {A} (f g : A → Q) (F c : Q) (l : list A) :
  (∀ x, x ∈ l → F * g x - c <= f x) →
  F * sumQ (g <$> l) - QofNat (length l) * c <= sumQ (f <$> l).
Proof.
  induction l as [|x l IH]; intros Hl.
  - csimpl. change (QofNat 0) with 0. nra.
  - simpl length. rewrite QofNat_S. csimpl.
    pose proof (Hl x ltac:(left)).
    pose proof (IH (λ y Hy, Hl y ltac:(by right))).
    lra.
Qed.

(** The exact mass after one pass, from the mass before it. *)
Lemma totalScore_rankPass_most graph d scores :
  mirrored graph →
  map_Forall (λ _ importers, importers ⊆ nodes graph) (reverseEdges graph) →
  0 <= d → (∀ k, 0 <= getScore scores k) → (0 < size (nodes graph))%nat →
  totalScore graph (rankPass graph d (QofNat (size (nodes graph))) scores)
  <= (1 - d) + d * totalScore graph scores.
Proof.
  intros Hmir Hin Hd0 Hs Hn. rewrite totalScore_rankPass by done.
  assert (Hsum : sumQ ((λ u, getScore scores u / outDegree graph u
                  * QofNat (size (default ∅ (edges graph !! u) ∩ nodes graph)))
                 <$> elements (nodes graph)) <= totalScore graph scores).
  { apply sumQ_fmap_le. intros x _. by apply passed_on_le. }
  rewrite mass_constant by done. nra.
Qed.

Lemma totalScore_rankPass_all graph d scores :
  mirrored graph →
  map_Forall (λ _ importers, importers ⊆ nodes graph) (reverseEdges graph) →
  (0 < size (nodes graph))%nat →
  (∀ u, u ∈ nodes graph →
     ∃ targets, edges graph !! u = Some targets ∧ targets ≠ ∅
                ∧ targets ⊆ nodes graph) →
  totalScore graph (rankPass graph d (QofNat (size (nodes graph))) scores)
  == (1 - d) + d * totalScore graph scores.
Proof.
  intros Hmir Hin Hn Hclosed. rewrite totalScore_rankPass by done.
  assert (Hsum : sumQ ((λ u, getScore scores u / outDegree graph u
                  * QofNat (size (default ∅ (edges graph !! u) ∩ nodes graph)))
                 <$> elements (nodes graph)) == totalScore graph scores).
  { apply sumQ_fmap_ext. intros x Hx. apply elem_of_elements in Hx.
    destruct (Hclosed x Hx) as (targets & H1 & H2 & H3).
    by apply (passed_on_all _ _ _ targets). }
  rewrite Hsum, mass_constant by done. ring.
Qed.

Lemma importers_at_most graph K v :
  map_Forall (λ _ importers, (size importers ≤ K)%nat) (reverseEdges graph) →
  (size (default ∅ (reverseEdges graph !! v)) ≤ K)%nat.
Proof.
  intros HK. destruct (reverseEdges graph !! v) as [importers|] eqn:Hv.
  - by apply (HK v).
  - change (size (∅ : gset string) ≤ K)%nat. rewrite size_empty. lia.
Qed.

Section RoundedMass.

Variable round : Q → Q.
Variables u η : Q.
Hypothesis Hu0 : 0 <= u.
Hypothesis Hu1 : u <= 1.
Hypothesis Hη : 0 <= η.
Hypothesis Hround : roundsWithin round u η.

(** One term [damping * (importerScore / importerOutDegree)], rounded twice. *)
Lemma roundedTerm_bounds (d s deg : Q) :
  0 <= d → d <= 1 → 0 <= s → 1 <= deg →
  0 <= round (d * round (s / deg))
  ∧ round (d * round (s / deg)) <= Qpow (1 + u) 2 * (d * (s / deg) + 2 * η)
  ∧ Qpow (1 - u) 2 * (d * (s / deg)) - 2 * η <= round (d * round (s / deg)).
Proof using Hu0 Hu1 Hη Hround.
  intros Hd0 Hd1 Hs Hdeg.
  assert (Hq : 0 <= s / deg).
  { unfold Qdiv. apply Qmult_le_0_compat; [done|]. apply Qinv_le_0_compat. lra. }
  destruct (Hround (s / deg) Hq) as (Hr0 & Hrl & Hru).
  set (q := s / deg) in *. set (r := round q) in *.
  assert (Hy : 0 <= d * r) by nra.
  destruct (Hround (d * r) Hy) as (Hp0 & Hpl & Hpu).
  set (p := round (d * r)) in *. simpl.
  split_and!; [done| |].
  - assert (d * r <= (1 + u) * (d * q) + η) by nra.
    assert ((1 + u) * (d * r) <= (1 + u) * ((1 + u) * (d * q) + η)) by nra.
    nra.
  - assert ((1 - u) * (d * q) - η <= d * r) by nra.
    assert ((1 - u) * ((1 - u) * (d * q) - η) <= (1 - u) * (d * r)) by nra.
    nra.
Qed.

(** The score of one node: the rounded loop against the exact one. *)
Lemma nodeLoop_bounds (graph : FileGraph) (d n : Q) (scores : gmap string Q)
    (importers : list string) :
  0 <= d → d <= 1 → 1 <= n →
  (∀ k, 0 <= getScore scores k) →
  Forall (λ importer, 1 <= outDegree graph importer) importers →
  let rounded :=
    foldr (λ importer score,
             round (score + round (d * round (getScore scores importer
                                              / outDegree graph importer))))
      (round (round (1 - d) / n)) importers in
  let exact :=
    foldr (λ importer score,
             score + d * (getScore scores importer / outDegree graph importer))
      ((1 - d) / n) importers in
  let k := length importers in
  0 <= exact ∧ 0 <= rounded
  ∧ rounded <= Qpow (1 + u) (k + 2) * (exact + QofNat (3 * k + 2) * η)
  ∧ Qpow (1 - u) (k + 2) * exact - QofNat (3 * k + 2) * η <= rounded.
Proof using Hu0 Hu1 Hη Hround.
  intros Hd0 Hd1 Hn Hs Hdeg. induction Hdeg as [|x l Hx Hl IH].
  - cbn [foldr length Nat.add Nat.mul]. simpl Qpow.
    change (QofNat 2) with 2.
    assert (Hi : 0 < / n) by (apply Qinv_lt_0_compat; lra).
    assert (Hi1 : / n <= 1).
    { apply Qle_shift_inv_r; lra. }
    unfold Qdiv. set (i := / n) in *.
    assert (H1d : 0 <= 1 - d) by lra.
    destruct (Hround (1 - d) H1d) as (Ht0 & Htl & Htu).
    set (t := round (1 - d)) in *.
    assert (Hy : 0 <= t * i) by nra.
    destruct (Hround (t * i) Hy) as (Hp0 & Hpl & Hpu).
    set (p := round (t * i)) in *.
    split_and!; [nra|done| |].
    + assert (t * i <= (1 + u) * ((1 - d) * i) + η) by nra.
      assert ((1 + u) * (t * i) <= (1 + u) * ((1 + u) * ((1 - d) * i) + η)) by nra.
      nra.
    + assert ((1 - u) * ((1 - d) * i) - η <= t * i) by nra.
      assert ((1 - u) * ((1 - u) * ((1 - d) * i) - η) <= (1 - u) * (t * i)) by nra.
      nra.
  - cbn [foldr length]. cbv zeta in IH. destruct IH as (He & Hr & Hup & Hlow).
    set (rounded := foldr _ (round _) l) in *.
    set (exact := foldr _ ((1 - d) / n) l) in *.
    destruct (roundedTerm_bounds d (getScore scores x) (outDegree graph x)
                Hd0 Hd1 (Hs x) Hx) as (Ht0 & Htu & Htl).
    set (t := round (d * round _)) in *.
    set (e := d * (getScore scores x / outDegree graph x)) in *.
    assert (He0 : 0 <= e).
    { unfold e, Qdiv. apply Qmult_le_0_compat; [done|].
      apply Qmult_le_0_compat; [apply Hs|]. apply Qinv_le_0_compat. lra. }
    assert (Hy : 0 <= rounded + t) by lra.
    destruct (Hround (rounded + t) Hy) as (Hp0 & Hpl & Hpu).
    set (k := length l) in *.
    replace (3 * S k + 2)%nat with ((3 * k + 2) + 3)%nat by lia.
    rewrite QofNat_add. change (QofNat 3) with 3.
    set (c := QofNat (3 * k + 2)) in *.
    assert (Hc : 0 <= c) by apply QofNat_nonneg.
    change (S k + 2)%nat with (S (k + 2)). cbn [Qpow].
    pose proof (Qpow_mono (1 + u) 2 (k + 2) ltac:(lra) ltac:(lia)) as HA2.
    pose proof (Qpow_anti (1 - u) 2 (k + 2) ltac:(lra) ltac:(lra) ltac:(lia)) as Ha2.
    pose proof (Qpow_ge1 (1 + u) (k + 2) ltac:(lra)) as HA1.
    pose proof (Qpow_unit (1 - u) (k + 2) ltac:(lra) ltac:(lra)) as [Ha0 Ha1].
    set (A := Qpow (1 + u) (k + 2)) in *. set (a := Qpow (1 - u) (k + 2)) in *.
    set (A2 := Qpow (1 + u) 2) in *. set (a2 := Qpow (1 - u) 2) in *.
    clearbody rounded exact t e c A a A2 a2.
    split_and!; [lra|done| |].
    + assert (t <= A * (e + 2 * η)) by nra.
      assert (rounded + t <= A * (exact + e + (c + 2) * η)) by lra.
      assert ((1 + u) * (rounded + t) <= (1 + u) * (A * (exact + e + (c + 2) * η)))
        by nra.
      assert (η <= A * η) by nra.
      assert (A * η <= (1 + u) * (A * η)) by nra.
      nra.
    + assert (a * e - 2 * η <= t) by nra.
      assert (a * (exact + e) - (c + 2) * η <= rounded + t) by lra.
      assert ((1 - u) * (a * (exact + e) - (c + 2) * η) <= (1 - u) * (rounded + t))
        by nra.
      assert (0 <= (c + 2) * η) by nra.
      assert ((1 - u) * ((c + 2) * η) <= (c + 2) * η) by nra.
      nra.
Qed.

(** The rounded score of a node with at most [K] importers, against its
    exact score. *)
Lemma nodeScoreRounded_bounds (graph : FileGraph) (d n : Q)
    (scores : gmap string Q) (v : string) (K : nat) :
  mirrored graph → 0 <= d → d <= 1 → 1 <= n →
  (∀ k, 0 <= getScore scores k) →
  (size (default ∅ (reverseEdges graph !! v)) ≤ K)%nat →
  0 <= nodeScoreRounded round graph d n scores v
  ∧ nodeScoreRounded round graph d n scores v
    <= Qpow (1 + u) (K + 2) * (nodeScore graph d n scores v + QofNat (3 * K + 2) * η)
  ∧ Qpow (1 - u) (K + 2) * nodeScore graph d n scores v - QofNat (3 * K + 2) * η
    <= nodeScoreRounded round graph d n scores v.
Proof using Hu0 Hu1 Hη Hround.
  intros Hmir Hd0 Hd1 Hn Hs HK.
  assert (Hdeg : Forall (λ importer, 1 <= outDegree graph importer)
                   (elements (default ∅ (reverseEdges graph !! v)))).
  { apply Forall_forall. intros importer Hi. apply elem_of_elements in Hi.
    by apply (outDegree_ge1 graph importer v). }
  destruct (nodeLoop_bounds graph d n scores _ Hd0 Hd1 Hn Hs Hdeg)
    as (He & Hr & Hup & Hlow).
  unfold nodeScoreRounded, nodeScore, set_fold, compose. cbv beta zeta.
  change (length (elements (default ∅ (reverseEdges graph !! v))))
    with (size (default ∅ (reverseEdges graph !! v))) in Hup, Hlow.
  set (k := size (default ∅ (reverseEdges graph !! v))) in *.
  set (rounded := foldr _ (round _) _) in *.
  set (exact := foldr _ ((1 - d) / n) _) in *.
  pose proof (Qpow_mono (1 + u) (k + 2) (K + 2) ltac:(lra) ltac:(lia)) as HA.
  pose proof (Qpow_anti (1 - u) (k + 2) (K + 2) ltac:(lra) ltac:(lra) ltac:(lia)) as Ha.
  pose proof (Qpow_ge1 (1 + u) (k + 2) ltac:(lra)) as HA1.
  pose proof (Qpow_unit (1 - u) (K + 2) ltac:(lra) ltac:(lra)) as [Ha0 Ha1].
  pose proof (QofNat_le (3 * k + 2) (3 * K + 2) ltac:(lia)) as Hc.
  pose proof (QofNat_nonneg (3 * k + 2)) as Hc0.
  set (A := Qpow (1 + u) (k + 2)) in *. set (A' := Qpow (1 + u) (K + 2)) in *.
  set (a := Qpow (1 - u) (k + 2)) in *. set (a' := Qpow (1 - u) (K + 2)) in *.
  set (c := QofNat (3 * k + 2)) in *. set (c' := QofNat (3 * K + 2)) in *.
  clearbody rounded exact A A' a a' c c'.
  assert (c * η <= c' * η) by nra.
  split_and!; [done| |].
  - assert (A * (exact + c * η) <= A' * (exact + c * η)) by nra.
    assert (A' * (exact + c * η) <= A' * (exact + c' * η)) by nra.
    lra.
  - assert (a' * exact <= a * exact) by nra.
    lra.
Qed.

(** The rounded mass after one pass, from the mass before it. *)
Lemma totalScore_rankPassRounded graph d scores K :
  mirrored graph →
  map_Forall (λ _ importers, importers ⊆ nodes graph) (reverseEdges graph) →
  (∀ v, size (default ∅ (reverseEdges graph !! v)) ≤ K)%nat →
  0 <= d → d <= 1 → (∀ k, 0 <= getScore scores k) →
  (0 < size (nodes graph))%nat →
  let n := QofNat (size (nodes graph)) in
  totalScore graph (rankPassRounded round graph d n scores)
  <= Qpow (1 + u) (K + 2)
     * ((1 - d) + d * totalScore graph scores + n * (QofNat (3 * K + 2) * η))
  ∧ ((∀ u, u ∈ nodes graph →
        ∃ targets, edges graph !! u = Some targets ∧ targets ≠ ∅
                   ∧ targets ⊆ nodes graph) →
     Qpow (1 - u) (K + 2) * ((1 - d) + d * totalScore graph scores)
     - n * (QofNat (3 * K + 2) * η)
     <= totalScore graph (rankPassRounded round graph d n scores)).
Proof using Hu0 Hu1 Hη Hround.
  intros Hmir Hin HK Hd0 Hd1 Hs Hn n.
  assert (Hn1 : 1 <= n) by (by apply QofNat_ge1).
  assert (Hrounded : totalScore graph (rankPassRounded round graph d n scores)
                     == sumQ (nodeScoreRounded round graph d n scores
                              <$> elements (nodes graph))).
  { unfold totalScore. apply sumQ_fmap_ext. intros v Hv.
    apply elem_of_elements in Hv.
    by rewrite getScore_rankPassRounded, decide_True by done. }
  assert (Hexact : sumQ (nodeScore graph d n scores <$> elements (nodes graph))
                   == totalScore graph (rankPass graph d n scores)).
  { unfold totalScore. apply sumQ_fmap_ext. intros v Hv.
    apply elem_of_elements in Hv.
    by rewrite getScore_rankPass, decide_True by done. }
  pose proof (Qpow_ge1 (1 + u) (K + 2) ltac:(lra)) as HA1.
  pose proof (Qpow_unit (1 - u) (K + 2) ltac:(lra) ltac:(lra)) as [Ha0 Ha1].
  split.
  - rewrite Hrounded.
    eapply Qle_trans; [apply (sumQ_bound_above _ (nodeScore graph d n scores)
                      (Qpow (1 + u) (K + 2)) (QofNat (3 * K + 2) * η)); [lra|]|].
    { intros v _. by apply nodeScoreRounded_bounds. }
    rewrite Hexact.
    pose proof (totalScore_rankPass_most graph d scores Hmir Hin Hd0 Hs Hn) as Hmost.
    fold n in Hmost. change (length (elements (nodes graph))) with (size (nodes graph)).
    fold n. nra.
  - intros Hclosed. rewrite Hrounded.
    eapply Qle_trans; [|apply (sumQ_bound_below _ (nodeScore graph d n scores)
                       (Qpow (1 - u) (K + 2)) (QofNat (3 * K + 2) * η))].
    2:{ intros v _. by apply nodeScoreRounded_bounds. }
    pose proof (totalScore_rankPass_all graph d scores Hmir Hin Hn Hclosed) as Hall.
    fold n in Hall. rewrite Hexact, Hall.
    change (length (elements (nodes graph))) with (size (nodes graph)).
    fold n. lra.
Qed.

Lemma rankPasses_nonneg graph d K passes v :
  mirrored graph →
  map_Forall (λ _ importers, (size importers ≤ K)%nat) (reverseEdges graph) →
  0 <= d → d <= 1 →
  let n := QofNat (size (nodes graph)) in
  0 <= getScore (Nat.iter passes (rankPassRounded round graph d n)
                   (initialScoresRounded round graph n)) v.
Proof using Hu0 Hu1 Hη Hround.
  intros Hmir HK Hd0 Hd1 n. revert v.
  induction passes as [|passes IH]; intros v; simpl.
  - rewrite getScore_initialScoresRounded. destruct (decide _); [|lra].
    apply Hround. unfold Qdiv. apply Qmult_le_0_compat; [lra|].
    apply Qinv_le_0_compat, QofNat_nonneg.
  - rewrite getScore_rankPassRounded. destruct (decide _) as [Hv|]; [|apply IH].
    apply (nodeScoreRounded_bounds graph d n _ v K); try done.
    + apply QofNat_ge1. assert (size (nodes graph) ≠ 0%nat); [|lia].
      apply size_non_empty_iff. set_solver.
    + by apply importers_at_most.
Qed.

(** The mass after any number of passes. *)
Lemma rankPasses_mass graph d K passes :
  mirrored graph →
  map_Forall (λ _ importers, importers ⊆ nodes graph) (reverseEdges graph) →
  map_Forall (λ _ importers, (size importers ≤ K)%nat) (reverseEdges graph) →
  0 <= d → d <= 1 → (0 < size (nodes graph))%nat →
  let n := QofNat (size (nodes graph)) in
  let scores := Nat.iter passes (rankPassRounded round graph d n)
                  (initialScoresRounded round graph n) in
  let m := (1 + passes * (K + 2))%nat in
  let N := (size (nodes graph) * (1 + passes * (3 * K + 2)))%nat in
  totalScore graph scores <= Qpow (1 + u) m * (1 + QofNat N * η)
  ∧ ((∀ u, u ∈ nodes graph →
        ∃ targets, edges graph !! u = Some targets ∧ targets ≠ ∅
                   ∧ targets ⊆ nodes graph) →
     Qpow (1 - u) m - QofNat N * η <= totalScore graph scores).
Proof using Hu0 Hu1 Hη Hround.
  intros Hmir Hin HK Hd0 Hd1 Hn n. cbv zeta.
  assert (Hn1 : 1 <= n) by (by apply QofNat_ge1).
  induction passes as [|passes [IHup IHlow]].
  - cbn [Nat.iter Nat.mul Nat.add Qpow].
    replace (size (nodes graph) * 1)%nat with (size (nodes graph)) by lia. fold n.
    assert (Htotal : totalScore graph (initialScoresRounded round graph n)
                     == n * round (1 / n)).
    { unfold totalScore.
      transitivity (sumQ ((λ _, round (1 / n)) <$> elements (nodes graph))).
      - apply sumQ_fmap_ext. intros v Hv. apply elem_of_elements in Hv.
        by rewrite getScore_initialScoresRounded, decide_True by done.
      - by rewrite sumQ_fmap_const. }
    rewrite Htotal.
    assert (Hi : 0 <= 1 / n).
    { unfold Qdiv. apply Qmult_le_0_compat; [lra|]. apply Qinv_le_0_compat. lra. }
    destruct (Hround (1 / n) Hi) as (Hr0 & Hrl & Hru).
    assert (Hone : n * (1 / n) == 1) by (field; lra).
    set (r := round (1 / n)) in *. set (i := 1 / n) in *. clearbody r i.
    split; [|intros _].
    + assert (n * r <= n * ((1 + u) * i + η)) by nra.
      assert (0 <= n * η) by nra. nra.
    + assert (n * ((1 - u) * i - η) <= n * r) by nra. nra.
  - rewrite Nat.iter_succ.
    set (scores := Nat.iter passes _ _) in *.
    assert (Hs : ∀ k, 0 <= getScore scores k).
    { intros k. by apply (rankPasses_nonneg graph d K). }
    destruct (totalScore_rankPassRounded graph d scores K Hmir Hin
                (λ v, importers_at_most graph K v HK) Hd0 Hd1 Hs Hn)
      as [Hup Hlow].
    fold n in Hup, Hlow.
    set (T' := totalScore graph (rankPassRounded round graph d n scores)) in *.
    set (T := totalScore graph scores) in *.
    replace (1 + S passes * (K + 2))%nat
      with ((K + 2) + (1 + passes * (K + 2)))%nat by lia.
    replace (size (nodes graph) * (1 + S passes * (3 * K + 2)))%nat
      with (size (nodes graph) * (1 + passes * (3 * K + 2))
            + size (nodes graph) * (3 * K + 2))%nat by lia.
    rewrite !(Qpow_add _ (K + 2) (1 + passes * (K + 2))), QofNat_add,
      (QofNat_mul (size (nodes graph)) (3 * K + 2)).
    fold n.
    pose proof (Qpow_ge1 (1 + u) (K + 2) ltac:(lra)) as HA1.
    pose proof (Qpow_ge1 (1 + u) (1 + passes * (K + 2)) ltac:(lra)) as HB1.
    pose proof (Qpow_unit (1 - u) (K + 2) ltac:(lra) ltac:(lra)) as [Ha0 Ha1].
    pose proof (Qpow_unit (1 - u) (1 + passes * (K + 2)) ltac:(lra) ltac:(lra))
      as [Hb0 Hb1].
    pose proof (QofNat_nonneg (size (nodes graph) * (1 + passes * (3 * K + 2)))) as HN.
    pose proof (QofNat_nonneg (3 * K + 2)) as Hc.
    set (A := Qpow (1 + u) (K + 2)) in *.
    set (B := Qpow (1 + u) (1 + passes * (K + 2))) in *.
    set (a := Qpow (1 - u) (K + 2)) in *.
    set (b := Qpow (1 - u) (1 + passes * (K + 2))) in *.
    set (N := QofNat (size (nodes graph) * (1 + passes * (3 * K + 2)))) in *.
    set (c := QofNat (3 * K + 2)) in *.
    clearbody T T' A B a b N c n.
    assert (HNη : 0 <= N * η) by nra.
    assert (Hcη : 0 <= c * η) by nra.
    assert (Hncη : 0 <= n * (c * η)) by nra.
    split.
    + assert (1 <= B * (1 + N * η)) by nra.
      assert (d * T <= d * (B * (1 + N * η))) by nra.
      assert ((1 - d) + d * T + n * (c * η) <= B * (1 + N * η) + n * (c * η)) by nra.
      assert (n * (c * η) <= B * (n * (c * η))) by nra.
      assert ((1 - d) + d * T + n * (c * η) <= B * (1 + (N + n * c) * η)) by nra.
      assert (A * ((1 - d) + d * T + n * (c * η)) <= A * (B * (1 + (N + n * c) * η)))
        by nra.
      nra.
    + intros Hclosed. specialize (IHlow Hclosed). specialize (Hlow Hclosed).
      assert (d * (b - N * η) <= d * T) by nra.
      assert ((1 - d) * b <= 1 - d) by nra.
      assert (d * (N * η) <= N * η) by nra.
      assert (b - N * η <= (1 - d) + d * T) by nra.
      assert (a * (b - N * η) <= a * ((1 - d) + d * T)) by nra.
      assert (a * (N * η) <= N * η) by nra.
      nra.
Qed.

End RoundedMass.

Lemma massError_nonneg u η m N : 0 <= u → 0 <= η → 0 <= massError u η m N.
Proof.
  intros Hu Hη. unfold massError.
  pose proof (Qpow_ge1 (1 + u) m ltac:(lra)).
  pose proof (QofNat_nonneg N).
  assert (0 <= QofNat N * η) by nra. nra.
Qed.

(** Without rounding the rounded ranker is the exact one. *)
Lemma rankFilesRounded_exact graph seedFiles options :
  rankFilesRounded (λ x, x) graph seedFiles options = rankFiles graph seedFiles options.
Proof. reflexivity. Qed.

Lemma exact_roundsWithin : roundsWithin (λ x, x) 0 0.
Proof. intros x Hx. lra. Qed.

(** Rounding to a grid is off by at most one step of the grid. *)
Lemma roundToGrid_roundsWithin bits :
  roundsWithin (roundToGrid bits) 0 (gridStep bits).
Proof.
  intros x Hx. unfold roundToGrid, gridStep.
  assert (Hs : 1 <= inject_Z (2 ^ Z.of_nat bits)).
  { change 1 with (inject_Z 1). rewrite <- Zle_Qle.
    pose proof (Z.pow_pos_nonneg 2 (Z.of_nat bits) ltac:(lia) ltac:(lia)). lia. }
  set (s := inject_Z (2 ^ Z.of_nat bits)) in *.
  pose proof (Qfloor_le (x * s + (1 # 2))) as Hle.
  pose proof (Qlt_floor (x * s + (1 # 2))) as Hlt.
  rewrite inject_Z_plus in Hlt. change (inject_Z 1) with 1 in Hlt.
  assert (H0 : 0 <= inject_Z (Qfloor (x * s + (1 # 2)))).
  { change 0 with (inject_Z 0). rewrite <- Zle_Qle.
    change 0%Z with (Qfloor 0). apply Qfloor_resp_le. nra. }
  set (f := inject_Z (Qfloor (x * s + (1 # 2)))) in *. clearbody f s.
  assert (Hi : 0 < / s) by (apply Qinv_lt_0_compat; lra).
  assert (Hsi : s * / s == 1) by (field; lra).
  unfold Qdiv. set (i := / s) in *. clearbody i.
  assert (f * i <= (x * s + (1 # 2)) * i) by nra.
  assert ((x * s + (1 # 2) - 1) * i <= f * i) by nra.
  assert (x * s * i == x) by (rewrite <- Qmult_assoc, Hsi; ring).
  split_and!; [nra|nra|nra].
Qed.

(** C5 (amended). Without seeds, on a graph whose reverse edges mirror its
    forward edges and whose importers are nodes, and with a damping factor
    between 0 and 1, every score returned by [rankFiles] is non-negative and
    the scores of the nodes sum to at most 1, up to a small epsilon.  The
    sum is within that epsilon of 1 when every node imports at least one
    file and imports only nodes; the share of a node without outgoing edges
    is not passed on, so on other graphs the sum falls short of 1.

    The epsilon is the rounding error: every arithmetic result is rounded
    with relative error at most [u], up to an absolute error [η], no node
    has more than [K] importers, and the epsilon is [massError], which
    grows with the number of passes and with [K].  The sum is the exact sum
    of the scores returned. *)
Theorem rankFiles_no_seeds_mass (round : Q → Q) (u η : Q) (K : nat)
    (graph : FileGraph) (options : RankOptions) :
  0 <= u → u <= 1 → 0 <= η →
  roundsWithin round u η →
  0 <= default 0.85 (damping options) →
  default 0.85 (damping options) <= 1 →
  mirrored graph →
  map_Forall (λ _ importers, importers ⊆ nodes graph) (reverseEdges graph) →
  map_Forall (λ _ importers, (size importers ≤ K)%nat) (reverseEdges graph) →
  let passes := default 20%nat (iterations options) in
  let epsilon :=
    massError u η (1 + passes * (K + 2))
      (size (nodes graph) * (1 + passes * (3 * K + 2))) in
  (∀ v, 0 <= getScore (rankFilesRounded round graph [] options) v)
  ∧ totalScore graph (rankFilesRounded round graph [] options) <= 1 + epsilon
  ∧ (nodes graph ≠ ∅ →
     (∀ u, u ∈ nodes graph →
        ∃ targets, edges graph !! u = Some targets ∧ targets ≠ ∅
                   ∧ targets ⊆ nodes graph) →
     Qabs (totalScore graph (rankFilesRounded round graph [] options) - 1)
     <= epsilon).
Proof.
  intros Hu0 Hu1 Hη Hround Hd0 Hd1 Hmir Hin HK passes epsilon.
  unfold rankFilesRounded. cbn [boostSeedsRounded fold_left]. fold passes.
  set (d := default 0.85 (damping options)) in *.
  pose proof (massError_nonneg u η (1 + passes * (K + 2))
                (size (nodes graph) * (1 + passes * (3 * K + 2))) Hu0 Hη) as Heps.
  fold epsilon in Heps.
  split; [intros v; by apply (rankPasses_nonneg round u η Hu0 Hu1 Hη Hround graph d K)|].
  destruct (decide (size (nodes graph) = 0%nat)) as [Hz|Hnz].
  - apply size_empty_iff in Hz. apply leibniz_equiv in Hz. split; [|done].
    unfold totalScore. rewrite Hz, elements_empty. csimpl. lra.
  - destruct (rankPasses_mass round u η Hu0 Hu1 Hη Hround graph d K passes
                Hmir Hin HK Hd0 Hd1 ltac:(lia)) as [Hup Hlow].
    set (T := totalScore graph _) in *.
    assert (Hgain : Qpow (1 + u) (1 + passes * (K + 2))
                    * (1 + QofNat (size (nodes graph) * (1 + passes * (3 * K + 2))) * η)
                    == 1 + epsilon) by (unfold epsilon, massError; ring).
    split; [lra|]. intros _ Hclosed. specialize (Hlow Hclosed).
    apply Qabs_Qle_condition. split; [|lra].
    pose proof (Qpow_around_one u (1 + passes * (K + 2)) Hu0 Hu1) as Haround.
    pose proof (Qpow_ge1 (1 + u) (1 + passes * (K + 2)) ltac:(lra)) as HA1.
    pose proof (QofNat_nonneg (size (nodes graph) * (1 + passes * (3 * K + 2)))) as HN.
    unfold epsilon, massError in *.
    set (A := Qpow (1 + u) _) in *. set (a := Qpow (1 - u) _) in *.
    set (N := QofNat _) in *. clearbody A a N T.
    assert (0 <= N * η) by nra.
    assert (N * η <= A * (N * η)) by nra.
    lra.
Qed.

(** For doubles ([u = 2^-53], [η = 2^-1075]), the 20 passes of the default
    and a graph of a thousand files none of which is imported by more than
    ten others, the epsilon is below [3e-14]. *)
Lemma massError_doubles :
  massError (1 / inject_Z (2 ^ 53)) (1 / inject_Z (2 ^ 1075))
    (1 + 20 * (10 + 2)) (1000 * (1 + 20 * (3 * 10 + 2)))
  <= 3 / inject_Z (10 ^ 14).
Proof. by vm_compute. Qed.

Lemma getScore_insert scores seed x k :
  getScore (<[seed := x]> scores) k = if decide (seed = k) then x else getScore scores k.
Proof.
  unfold getScore. destruct (decide (seed = k)) as [->|Hne].
  - by rewrite lookup_insert_eq.
  - by rewrite lookup_insert_ne.
Qed.

Lemma boostSeeds_mono boost boost' seedFiles scores scores' :
  (∀ seed, boost seed <= boost' seed) →
  (∀ k, getScore scores k <= getScore scores' k) →
  ∀ k, getScore (boostSeeds boost seedFiles scores) k
       <= getScore (boostSeeds boost' seedFiles scores') k.
Proof.
  intros Hb. revert scores scores'.
  induction seedFiles as [|seed rest IH]; intros scores scores' Hs; [done|].
  rewrite !getScore_boostSeeds_cons. apply IH. intros k.
  rewrite !getScore_insert. destruct (decide (seed = k)); [|done].
  apply Qplus_le_compat; [apply Hs|apply Hb].
Qed.

(** C6 (amended). Increasing the boost of seeds never decreases the final
    score of any file, the seeds and the files reachable from them included,
    when the damping is non-negative and the reverse edges mirror the forward
    edges (no score is then divided by zero, see [outDegree_pos]).  The
    increase of a seed's own final score need not be strict. *)
Theorem rankFiles_boost_monotone (boost boost' : string → Q) (graph : FileGraph)
    (seedFiles : list string) (options : RankOptions) :
  0 <= default 0.85 (damping options) →
  mirrored graph →
  (∀ seed, boost seed <= boost' seed) →
  ∀ v, getScore (rankFilesBoosted boost graph seedFiles options) v
       <= getScore (rankFilesBoosted boost' graph seedFiles options) v.
Proof.
  intros Hd _ Hb. unfold rankFilesBoosted.
  induction (default 20%nat (iterations options)) as [|k IH]; simpl.
  - apply boostSeeds_mono; [done|]. intros k. lra.
  - intros v. rewrite !getScore_rankPass. destruct (decide _); [|apply IH].
    by apply nodeScore_mono.
Qed.

Local Close Scope Q_scope.

(** ** Doubles *)

Section DoubleFacts.

Import PrimFloat FloatAxioms SpecFloat FloatOps.

Lemma Double_isNaN_spec x : Double.isNaN x = true ↔ Prim2SF x = S754_nan.
Proof.
  unfold Double.isNaN, is_nan. rewrite eqb_spec. unfold SFeqb.
  destruct (Prim2SF x) as [[]|[]| |[] m e]; simpl; try (split; done).
  - destruct (e ?= e)%Z eqn:E; [|by rewrite Z.compare_refl in E..].
    rewrite Pos.compare_cont_refl. simpl. split; done.
  - destruct (e ?= e)%Z eqn:E; [|by rewrite Z.compare_refl in E..].
    rewrite Pos.compare_cont_refl. simpl. split; done.
Qed.

Lemma Double_not_NaN x : Double.isNaN x = false → Prim2SF x ≠ S754_nan.
Proof.
  intros Hx H. apply Double_isNaN_spec in H. congruence.
Qed.

Lemma Double_isZero_spec x :
  Double.isZero x = true ↔ ∃ s, Prim2SF x = S754_zero s.
Proof.
  unfold Double.isZero. rewrite eqb_spec. change (Prim2SF zero) with (S754_zero false).
  unfold SFeqb. destruct (Prim2SF x) as [s|[]| |[] m e]; simpl; split; try done;
    try (by intros [? ?]); eauto.
Qed.

Lemma Double_vanishes_spec x : Double.vanishes x = true ↔ SFvanishes (Prim2SF x).
Proof.
  unfold Double.vanishes. rewrite orb_true_iff, Double_isZero_spec, Double_isNaN_spec.
  destruct (Prim2SF x); simpl; split; try tauto; try (intros [[? ?]|?]; done); eauto.
Qed.

Lemma Double_isZero_vanishes x : Double.isZero x = true → Double.vanishes x = true.
Proof. unfold Double.vanishes. by intros ->. Qed.

Lemma Double_eq_nan x : Prim2SF x = S754_nan → x = nan.
Proof. intros H. apply Prim2SF_inj. by rewrite H. Qed.

Lemma Double_nan_vanishes : Double.vanishes nan = true.
Proof. done. Qed.

Lemma Double_mul_comm x y : mul x y = mul y x.
Proof.
  apply Prim2SF_inj. rewrite !mul_spec.
  destruct (Prim2SF x) as [sx|sx| |sx mx ex], (Prim2SF y) as [sy|sy| |sy my ey];
    simpl; try reflexivity; try (by rewrite Bool.xorb_comm).
  unfold SF64mul, SFmul. by rewrite Bool.xorb_comm, Pos.mul_comm, Z.add_comm.
Qed.

Lemma Double_add_nan_l y : add nan y = nan.
Proof. apply Double_eq_nan. by rewrite add_spec. Qed.

Lemma Double_add_nan_r x : add x nan = nan.
Proof.
  apply Double_eq_nan. rewrite add_spec. change (Prim2SF nan) with S754_nan.
  by destruct (Prim2SF x).
Qed.

Lemma Double_mul_nan_r x : mul x nan = nan.
Proof.
  apply Double_eq_nan. rewrite mul_spec. change (Prim2SF nan) with S754_nan.
  by destruct (Prim2SF x).
Qed.

Lemma Double_div_nan_l y : div nan y = nan.
Proof. apply Double_eq_nan. by rewrite div_spec. Qed.

(** Zero times anything, and anything times a zero or [NaN], is a zero or
    [NaN]; so are sums and square roots of such numbers, and the quotient of
    two of them is [NaN]. *)
Lemma Double_mul_vanishes_l x y :
  Double.isZero x = true → Double.vanishes (mul x y) = true.
Proof.
  rewrite Double_isZero_spec, Double_vanishes_spec, mul_spec. intros [s ->].
  by destruct (Prim2SF y).
Qed.

Lemma Double_mul_vanishes_r x y :
  Double.vanishes y = true → Double.vanishes (mul x y) = true.
Proof.
  rewrite !Double_vanishes_spec, mul_spec.
  destruct (Prim2SF x), (Prim2SF y); done.
Qed.

Lemma Double_add_vanishes x y :
  Double.vanishes x = true → Double.vanishes y = true →
  Double.vanishes (add x y) = true.
Proof.
  rewrite !Double_vanishes_spec, add_spec.
  destruct (Prim2SF x) as [[]| | |], (Prim2SF y) as [[]| | |]; done.
Qed.

Lemma Double_sqrt_vanishes x :
  Double.vanishes x = true → Double.vanishes (sqrt x) = true.
Proof.
  rewrite !Double_vanishes_spec, sqrt_spec. destruct (Prim2SF x); done.
Qed.

Lemma Double_div_vanishes x y :
  Double.vanishes x = true → Double.vanishes y = true → div x y = nan.
Proof.
  rewrite !Double_vanishes_spec. intros Hx Hy. apply Double_eq_nan. rewrite div_spec.
  destruct (Prim2SF x), (Prim2SF y); done.
Qed.

(** A comparator that subtracts is never positive on equal scores. *)
Lemma Double_sub_diag x : Double.isPositive (sub x x) = false.
Proof.
  unfold Double.isPositive. rewrite ltb_spec, sub_spec.
  change (Prim2SF zero) with (S754_zero false).
  destruct (Prim2SF x) as [[]|[]| |s m e]; try reflexivity.
  unfold SF64sub, SFsub. rewrite Z.min_id. unfold shl_align. rewrite Z.sub_diag.
  cbn [fst]. by rewrite ?Z.sub_diag.
Qed.

Lemma Double_zero_neq : zero ≠ neg_zero.
Proof.
  intros H. apply (f_equal (λ x, ltb zero (div one x))) in H. vm_compute in H.
  discriminate H.
Qed.

(** *** Rounding an integer that is not zero keeps its sign *)

Lemma digits2_pos_bounds m :
  (2 ^ (Z.pos (digits2_pos m) - 1) <= Z.pos m < 2 ^ Z.pos (digits2_pos m))%Z.
Proof.
  induction m as [m IH|m IH|]; cbn [digits2_pos].
  - rewrite Pos2Z.inj_succ.
    replace (Z.succ (Z.pos (digits2_pos m)) - 1)%Z
      with (Z.succ (Z.pos (digits2_pos m) - 1))%Z by lia.
    rewrite !Z.pow_succ_r by lia. lia.
  - rewrite Pos2Z.inj_succ.
    replace (Z.succ (Z.pos (digits2_pos m)) - 1)%Z
      with (Z.succ (Z.pos (digits2_pos m) - 1))%Z by lia.
    rewrite !Z.pow_succ_r by lia. lia.
  - simpl. lia.
Qed.

Lemma shr_1_pos m r s :
  (1 < Z.pos (digits2_pos m))%Z →
  ∃ m' r' s',
    shr_1 (Build_shr_record (Z.pos m) r s) = Build_shr_record (Z.pos m') r' s'
    ∧ Z.pos (digits2_pos m') = (Z.pos (digits2_pos m) - 1)%Z.
Proof.
  destruct m as [m|m|]; cbn [digits2_pos shr_1]; intros H.
  - eexists _, _, _. split; [reflexivity|]. lia.
  - eexists _, _, _. split; [reflexivity|]. lia.
  - lia.
Qed.

Lemma iter_shr_1_pos k :
  ∀ m r s,
    (Z.pos k < Z.pos (digits2_pos m))%Z →
    ∃ m' r' s',
      iter_pos shr_1 k (Build_shr_record (Z.pos m) r s)
      = Build_shr_record (Z.pos m') r' s'
      ∧ Z.pos (digits2_pos m') = (Z.pos (digits2_pos m) - Z.pos k)%Z.
Proof.
  induction k as [k IH|k IH|]; intros m r s H; cbn [iter_pos].
  - destruct (shr_1_pos m r s) as (m1 & r1 & s1 & -> & H1); [lia|].
    destruct (IH m1 r1 s1) as (m2 & r2 & s2 & -> & H2); [lia|].
    destruct (IH m2 r2 s2) as (m3 & r3 & s3 & -> & H3); [lia|].
    eexists _, _, _. split; [reflexivity|]. lia.
  - destruct (IH m r s) as (m2 & r2 & s2 & -> & H2); [lia|].
    destruct (IH m2 r2 s2) as (m3 & r3 & s3 & -> & H3); [lia|].
    eexists _, _, _. split; [reflexivity|]. lia.
  - destruct (shr_1_pos m r s) as (m1 & r1 & s1 & -> & H1); [lia|].
    eexists _, _, _. split; [reflexivity|]. lia.
Qed.

Lemma shr_fexp_pos m e l :
  (emin64 <= e)%Z →
  ∃ m' r' s' e',
    shr_fexp prec emax (Z.pos m) e l = (Build_shr_record (Z.pos m') r' s', e')
    ∧ (emin64 <= e')%Z.
Proof.
  intros He. unfold shr_fexp, shr. cbn [Zdigits2].
  destruct l as [|[]]; cbn [shr_record_of_loc];
  (destruct (fexp prec emax (Z.pos (digits2_pos m) + e) - e)%Z as [|k|k] eqn:Hn;
   [by eexists _, _, _, _ | | by eexists _, _, _, _];
   match goal with |- context [iter_pos shr_1 k (Build_shr_record _ ?r ?s)] =>
     destruct (iter_shr_1_pos k m r s) as (m' & r' & s' & -> & _) end;
   [unfold fexp, emin64, SpecFloat.emin, prec, emax in *; lia|];
   eexists _, _, _, _; split; [reflexivity|lia]).
Qed.

Lemma binary_round_aux_sign s m e l :
  (emin64 <= e)%Z →
  signOf (binary_round_aux prec emax s (Z.pos m) e l) = Some s.
Proof.
  intros He. unfold binary_round_aux.
  destruct (shr_fexp_pos m e l He) as (m1 & r1 & s1 & e1 & -> & He1).
  cbn [shr_m].
  assert (∃ m2, round_nearest_even (Z.pos m1)
                  (loc_of_shr_record (Build_shr_record (Z.pos m1) r1 s1))
                = Z.pos m2) as [m2 ->].
  { unfold round_nearest_even. destruct (loc_of_shr_record _) as [|[]]; try (by eexists).
    destruct (Z.even _); by eexists. }
  destruct (shr_fexp_pos m2 e1 loc_Exact He1) as (m3 & r3 & s3 & e3 & -> & He3).
  cbn [shr_m]. by destruct (_ <=? _)%Z.
Qed.

Lemma binary_round_sign s m e :
  (emin64 <= e)%Z → signOf (binary_round prec emax s m e) = Some s.
Proof.
  intros He. unfold binary_round.
  destruct (shl_align m e _) as [mz ez] eqn:Hal.
  apply binary_round_aux_sign.
  unfold shl_align in Hal.
  destruct (fexp prec emax (Z.pos (digits2_pos m) + e) - e)%Z eqn:Hd;
    inversion Hal; subst; try done.
  unfold fexp, emin64 in *. lia.
Qed.

Lemma iter_xO_val d : ∀ m, Z.pos (Pos.iter xO m d) = (Z.pos m * 2 ^ Z.pos d)%Z.
Proof.
  induction d as [|d IH] using Pos.peano_ind; intros m.
  - simpl. lia.
  - rewrite Pos.iter_succ, Pos2Z.inj_succ, Z.pow_succ_r by lia.
    rewrite Pos2Z.inj_xO, IH. lia.
Qed.

Lemma shl_align_val m e e' :
  (e' <= e)%Z → Z.pos (fst (shl_align m e e')) = (Z.pos m * 2 ^ (e - e'))%Z.
Proof.
  intros H. unfold shl_align. destruct (e' - e)%Z as [|d|d] eqn:Hd; cbn [fst].
  - replace (e - e')%Z with 0%Z by lia. simpl. lia.
  - lia.
  - rewrite iter_xO_val. f_equal. f_equal. lia.
Qed.

Lemma valid_finite s m e :
  FloatAxioms.valid_binary (S754_finite s m e) = true →
  (emin64 <= e)%Z ∧ (Z.pos (digits2_pos m) <= prec)%Z
  ∧ ((emin64 < e)%Z → Z.pos (digits2_pos m) = prec).
Proof.
  unfold FloatAxioms.valid_binary, SpecFloat.valid_binary, bounded, canonical_mantissa.
  intros [H _]%andb_prop. apply Z.eqb_eq in H.
  unfold fexp, emin64, SpecFloat.emin, prec, emax in *. lia.
Qed.

Lemma SFltb_zero_sign X s :
  signOf X = Some s → SFltb (S754_zero false) X = negb s.
Proof. destruct X as [| | |]; simpl; intros [= ->]; by destruct s. Qed.

Lemma SFltb_zero_normalize D e :
  (emin64 <= e)%Z →
  SFltb (S754_zero false) (binary_normalize prec emax D e false) = (0 <? D)%Z.
Proof.
  intros He. destruct D as [|p|p]; cbn [binary_normalize].
  - done.
  - by rewrite (SFltb_zero_sign _ false) by (by apply binary_round_sign).
  - by rewrite (SFltb_zero_sign _ true) by (by apply binary_round_sign).
Qed.

(** The magnitudes of two valid finite numbers compare as their pairs of
    exponent and mantissa do. *)
Lemma magnitude_lt mx ex my ey (s s' : bool) :
  FloatAxioms.valid_binary (S754_finite s mx ex) = true →
  FloatAxioms.valid_binary (S754_finite s' my ey) = true →
  (ex < ey)%Z →
  (Z.pos mx * 2 ^ (ex - ex) < Z.pos my * 2 ^ (ey - ex))%Z.
Proof.
  intros (Hex & Hdx & _)%valid_finite (Hey & Hdy & Hny)%valid_finite Hlt.
  rewrite Z.sub_diag. change (2 ^ 0)%Z with 1%Z.
  pose proof (digits2_pos_bounds mx) as [_ Hmx].
  pose proof (digits2_pos_bounds my) as [Hmy _].
  rewrite Hny in Hmy by lia.
  assert (Z.pos mx < 2 ^ prec)%Z.
  { eapply Z.lt_le_trans; [exact Hmx|]. apply Z.pow_le_mono_r; lia. }
  assert (2 ^ 1 <= 2 ^ (ey - ex))%Z by (apply Z.pow_le_mono_r; lia).
  change (2 ^ 1)%Z with 2%Z in *.
  change (2 ^ (prec - 1))%Z with 4503599627370496%Z in Hmy.
  change (2 ^ prec)%Z with 9007199254740992%Z in *.
  nia.
Qed.

(** The difference is positive exactly when the number taken away is the
    smaller one. *)
Lemma SFsub_sign X Y :
  FloatAxioms.valid_binary X = true → FloatAxioms.valid_binary Y = true →
  X ≠ S754_nan → Y ≠ S754_nan →
  SFltb (S754_zero false) (SFsub prec emax Y X) = SFltb X Y.
Proof.
  intros HX HY HnX HnY.
  destruct X as [sx|sx| |sx mx ex]; [| |done|];
  (destruct Y as [sy|sy| |sy my ey]; [| |done|]);
  try (by destruct sx, sy).
  pose proof (valid_finite _ _ _ HX) as (Hex & _ & _).
  pose proof (valid_finite _ _ _ HY) as (Hey & _ & _).
  cbn [SFsub]. rewrite SFltb_zero_normalize by lia.
  rewrite !shl_align_val by lia.
  unfold SFltb, SFcompare.
  destruct (Z.compare_spec ex ey) as [->|Hlt|Hgt].
  - rewrite Z.min_id, Z.sub_diag. change (2 ^ 0)%Z with 1%Z.
    rewrite Pos.compare_cont_spec. cbn [Pos.switch_Eq].
    destruct (Pos.compare_spec mx my) as [->|H|H];
      destruct sx, sy; cbn [cond_Zopp CompOpp];
      first [apply Z.ltb_lt; lia | apply Z.ltb_ge; lia].
  - rewrite (Z.min_r ey ex) by lia.
    pose proof (magnitude_lt mx ex my ey sx sy HX HY Hlt).
    rewrite Z.sub_diag in *. change (2 ^ 0)%Z with 1%Z in *.
    assert (0 < 2 ^ (ey - ex))%Z by (apply Z.pow_pos_nonneg; lia).
    destruct sx, sy; cbn [cond_Zopp];
      first [apply Z.ltb_lt; nia | apply Z.ltb_ge; nia].
  - rewrite (Z.min_l ey ex) by lia.
    pose proof (magnitude_lt my ey mx ex sy sx HY HX Hgt).
    rewrite Z.sub_diag in *. change (2 ^ 0)%Z with 1%Z in *.
    assert (0 < 2 ^ (ex - ey))%Z by (apply Z.pow_pos_nonneg; lia).
    destruct sx, sy; cbn [cond_Zopp];
      first [apply Z.ltb_lt; nia | apply Z.ltb_ge; nia].
Qed.

(** On numbers that are not [NaN], [y - x > 0] says [x < y]. *)
Lemma Double_isPositive_sub x y :
  Double.isNaN x = false → Double.isNaN y = false →
  Double.isPositive (sub y x) = ltb x y.
Proof.
  intros Hx Hy. unfold Double.isPositive. rewrite !ltb_spec, sub_spec.
  change (Prim2SF zero) with (S754_zero false).
  apply SFsub_sign; try apply Prim2SF_valid; by apply Double_not_NaN.
Qed.

(** *** The order of doubles *)

Lemma SFcompare_code X Y :
  X ≠ S754_nan → Y ≠ S754_nan →
  ∃ c, SFcompare X Y = Some c
    ∧ (c = Lt ↔ lexlt (SFcode X) (SFcode Y))
    ∧ (c = Gt ↔ lexlt (SFcode Y) (SFcode X)).
Proof.
  intros HX HY.
  destruct X as [sx|sx| |sx mx ex]; [| |done|];
  (destruct Y as [sy|sy| |sy my ey]; [| |done|]);
  try (destruct sx, sy; eexists; (split; [reflexivity|]); simpl; split; split;
       first [done | lia | (intros; lia)]).
  unfold SFcompare, SFcode, lexlt. rewrite Pos.compare_cont_spec. cbn [Pos.switch_Eq].
  destruct sx, sy; eexists; (split; [reflexivity|]);
    destruct (Z.compare_spec ex ey) as [->|H|H];
    try destruct (Pos.compare_spec mx my) as [->|H'|H'];
    cbn [CompOpp]; split; split; first [done | lia | (intros; lia)].
Qed.

Lemma Double_ltb_code x y :
  Double.isNaN x = false → Double.isNaN y = false →
  ltb x y = true ↔ lexlt (SFcode (Prim2SF x)) (SFcode (Prim2SF y)).
Proof.
  intros Hx Hy. rewrite ltb_spec. unfold SFltb.
  destruct (SFcompare_code (Prim2SF x) (Prim2SF y)) as (c & -> & Hlt & _);
    [by apply Double_not_NaN..|].
  rewrite <- Hlt. by destruct c.
Qed.

Lemma Double_leb_code x y :
  Double.isNaN x = false → Double.isNaN y = false →
  leb x y = true ↔ lexle (SFcode (Prim2SF x)) (SFcode (Prim2SF y)).
Proof.
  intros Hx Hy. rewrite leb_spec. unfold SFleb.
  destruct (SFcompare_code (Prim2SF x) (Prim2SF y)) as (c & -> & _ & Hgt);
    [by apply Double_not_NaN..|].
  assert (Hn : c ≠ Gt ↔ lexle (SFcode (Prim2SF x)) (SFcode (Prim2SF y))).
  { rewrite Hgt. unfold lexlt, lexle.
    destruct (SFcode (Prim2SF x)) as [[a b] c0], (SFcode (Prim2SF y)) as [[a' b'] c'].
    lia. }
  rewrite <- Hn. by destruct c.
Qed.

Lemma Double_eqb_code x y :
  eqb x y = true →
  Double.isNaN x = false ∧ Double.isNaN y = false
  ∧ SFcode (Prim2SF x) = SFcode (Prim2SF y).
Proof.
  rewrite eqb_spec. unfold SFeqb. intros H.
  assert (Hx : Prim2SF x ≠ S754_nan) by (intros E; rewrite E in H; done).
  assert (Hy : Prim2SF y ≠ S754_nan)
    by (intros E; rewrite E in H; by destruct (Prim2SF x)).
  split_and!.
  - destruct (Double.isNaN x) eqn:E; [|done]. by apply Double_isNaN_spec in E.
  - destruct (Double.isNaN y) eqn:E; [|done]. by apply Double_isNaN_spec in E.
  - destruct (SFcompare_code _ _ Hx Hy) as (c & Hc & Hlt & Hgt). rewrite Hc in H.
    destruct c; try done.
    assert (H1 : ¬ lexlt (SFcode (Prim2SF x)) (SFcode (Prim2SF y)))
      by (intros E; by apply Hlt in E).
    assert (H2 : ¬ lexlt (SFcode (Prim2SF y)) (SFcode (Prim2SF x)))
      by (intros E; by apply Hgt in E).
    unfold lexlt in *.
    destruct (SFcode (Prim2SF x)) as [[a b] c0], (SFcode (Prim2SF y)) as [[a' b'] c'].
    repeat f_equal; lia.
Qed.

Lemma Double_leb_total x y :
  Double.isNaN x = false → Double.isNaN y = false →
  ltb x y = false → leb y x = true.
Proof.
  intros Hx Hy Hlt. apply Double_leb_code; [done..|].
  assert (Hn : ¬ lexlt (SFcode (Prim2SF x)) (SFcode (Prim2SF y))).
  { intros H. apply Double_ltb_code in H; [congruence|done..]. }
  unfold lexlt, lexle in *.
  destruct (SFcode (Prim2SF x)) as [[a b] c0], (SFcode (Prim2SF y)) as [[a' b'] c'].
  lia.
Qed.

Lemma Double_ltb_leb x y :
  Double.isNaN x = false → Double.isNaN y = false →
  ltb x y = true → leb x y = true.
Proof.
  intros Hx Hy Hlt. apply Double_leb_code; [done..|].
  apply Double_ltb_code in Hlt; [|done..].
  unfold lexlt, lexle in *.
  destruct (SFcode (Prim2SF x)) as [[a b] c0], (SFcode (Prim2SF y)) as [[a' b'] c'].
  lia.
Qed.

Lemma Double_leb_trans x y z :
  Double.isNaN x = false → Double.isNaN y = false → Double.isNaN z = false →
  leb x y = true → leb y z = true → leb x z = true.
Proof.
  intros Hx Hy Hz Hxy Hyz. apply Double_leb_code; [done..|].
  apply Double_leb_code in Hxy; [|done..]. apply Double_leb_code in Hyz; [|done..].
  unfold lexle in *.
  destruct (SFcode (Prim2SF x)) as [[a b] c0], (SFcode (Prim2SF y)) as [[a' b'] c'],
    (SFcode (Prim2SF z)) as [[a'' b''] c'']. lia.
Qed.

(** Two numbers equal to a third are not one below the other. *)
Lemma Double_eqb_ltb x y s :
  eqb x s = true → eqb y s = true → ltb x y = false.
Proof.
  intros (Hx & _ & Hxs)%Double_eqb_code (Hy & _ & Hys)%Double_eqb_code.
  destruct (ltb x y) eqn:Hlt; [|done].
  apply Double_ltb_code in Hlt; [|done..]. rewrite Hxs, Hys in Hlt.
  unfold lexlt in Hlt. destruct (SFcode (Prim2SF s)) as [[a b] c]. lia.
Qed.

(** *** Natural numbers as doubles *)

Lemma digits2_pos_iter_xO d :
  ∀ m, Z.pos (digits2_pos (Pos.iter xO m d)) = (Z.pos (digits2_pos m) + Z.pos d)%Z.
Proof.
  induction d as [|d IH] using Pos.peano_ind; intros m.
  - simpl. lia.
  - rewrite Pos.iter_succ. cbn [digits2_pos]. rewrite Pos2Z.inj_succ, IH. lia.
Qed.

Lemma binary_round_aux_exact m e :
  Z.pos (digits2_pos m) = prec → (emin64 <= e <= emax - prec)%Z →
  binary_round_aux prec emax false (Z.pos m) e loc_Exact = S754_finite false m e.
Proof.
  intros Hd He.
  assert (Hshr : shr_fexp prec emax (Z.pos m) e loc_Exact
                 = (Build_shr_record (Z.pos m) false false, e)).
  { unfold shr_fexp, shr. cbn [Zdigits2 shr_record_of_loc]. rewrite Hd.
    replace (fexp prec emax (prec + e) - e)%Z with 0%Z; [done|].
    unfold fexp, emin64, SpecFloat.emin, prec, emax in *. lia. }
  unfold binary_round_aux. rewrite Hshr. cbn [shr_m loc_of_shr_record round_nearest_even].
  rewrite Hshr. cbn [shr_m].
  by replace (e <=? emax - prec)%Z with true by (symmetry; apply Z.leb_le; lia).
Qed.

Lemma binary_round_small p :
  (Z.pos (digits2_pos p) <= prec)%Z →
  ∃ m k, binary_round prec emax false p 0 = S754_finite false m (- k)
    ∧ (0 <= k <= prec)%Z ∧ Z.pos m = (Z.pos p * 2 ^ k)%Z
    ∧ FloatAxioms.valid_binary (S754_finite false m (- k)) = true.
Proof.
  intros Hd. unfold binary_round.
  assert (Hf : fexp prec emax (Z.pos (digits2_pos p) + 0)
               = (Z.pos (digits2_pos p) - prec)%Z).
  { unfold fexp, SpecFloat.emin, prec, emax in *. lia. }
  rewrite Hf. unfold shl_align.
  destruct (Z.pos (digits2_pos p) - prec - 0)%Z as [|d|d] eqn:Hk.
  - exists p, 0%Z. rewrite binary_round_aux_exact.
    + split_and!; try done; try lia.
      unfold FloatAxioms.valid_binary, SpecFloat.valid_binary, bounded, canonical_mantissa.
      replace (Z.pos (digits2_pos p)) with prec by lia. done.
    + lia.
    + unfold emin64, SpecFloat.emin, prec, emax. lia.
  - unfold prec in *. lia.
  - exists (Pos.iter xO p d), (Z.pos d).
    assert (Hdig : Z.pos (digits2_pos (Pos.iter xO p d)) = prec).
    { rewrite digits2_pos_iter_xO. lia. }
    replace (Z.pos (digits2_pos p) - prec)%Z with (- Z.pos d)%Z by lia.
    rewrite binary_round_aux_exact.
    + split_and!; try done.
      * unfold prec in *. lia.
      * apply iter_xO_val.
      * unfold FloatAxioms.valid_binary, SpecFloat.valid_binary, bounded,
          canonical_mantissa.
        rewrite Hdig. apply andb_true_intro. split.
        -- apply Z.eqb_eq. unfold fexp, SpecFloat.emin, prec, emax in *. lia.
        -- apply Z.leb_le. unfold prec, emax in *. lia.
    + done.
    + unfold emin64, SpecFloat.emin, prec, emax in *. lia.
Qed.

(** A natural number below [2^53] is held by a double as it is. *)
Lemma Double_toNat_ofNat n : Double.isSafe n → Double.toNat (Double.ofNat n) = Some n.
Proof.
  unfold Double.isSafe. intros Hn. unfold Double.toNat, Double.ofNat.
  destruct n as [|n]; [done|].
  change (Z.of_nat (S n)) with (Z.pos (Pos.of_succ_nat n)) in *.
  cbn [binary_normalize]. set (p := Pos.of_succ_nat n) in *.
  assert (Hd : (Z.pos (digits2_pos p) <= prec)%Z).
  { pose proof (digits2_pos_bounds p) as [Hlo _].
    destruct (Z_le_gt_dec (Z.pos (digits2_pos p)) prec) as [|Hgt]; [done|].
    assert (2 ^ prec <= 2 ^ (Z.pos (digits2_pos p) - 1))%Z
      by (apply Z.pow_le_mono_r; unfold prec in *; lia).
    unfold prec in *. lia. }
  destruct (binary_round_small p Hd) as (m & k & -> & Hk & Hm & Hv).
  rewrite Prim2SF_SF2Prim by done.
  assert (Hp : Z.to_nat (Z.pos p) = S n).
  { unfold p. rewrite Z2Nat.inj_pos. apply SuccNat2Pos.id_succ. }
  destruct k as [|k|k]; [| |lia].
  - change (- 0)%Z with 0%Z. cbv beta iota.
    simpl in Hm. rewrite Z.mul_1_r in Hm. injection Hm as ->.
    by rewrite <- Z2Nat.inj_pos, Hp.
  - change (- Z.pos k)%Z with (Z.neg k). cbv beta iota.
    rewrite Hm, Z.mod_mul, Z.div_mul by lia. simpl. by rewrite Hp.
Qed.

End DoubleFacts.

(** ** Cosine similarity *)

(** The loop accumulates the three sums of the formula. *)
Lemma cosineLoop_sums a :
  ∀ (before b : list PrimFloat.float) (dot normA normB : PrimFloat.float),
    length a = length b →
    cosineLoop a (before ++ b) (length before) (dot, normA, normB)
    = (dotProductFrom dot a b,
       fold_left (λ sum x, PrimFloat.add sum (PrimFloat.mul x x)) a normA,
       fold_left (λ sum x, PrimFloat.add sum (PrimFloat.mul x x)) b normB).
Proof.
  induction a as [|x a IH]; intros before b dot normA normB Hlen.
  - by destruct b.
  - destruct b as [|y b]; [done|]. simpl in Hlen.
    cbn [cosineLoop]. unfold component.
    rewrite lookup_app_r, Nat.sub_diag by done. cbn [lookup list_lookup default].
    replace (before ++ y :: b) with ((before ++ [y]) ++ b) by (by rewrite <- app_assoc).
    replace (S (length before)) with (length (before ++ [y]))
      by (rewrite length_app; simpl; lia).
    by rewrite IH by lia.
Qed.

(** The value of [cosineSimilarity] on vectors of equal length: the quotient
    of the formula, each operation rounded. *)
Lemma cosineSimilarity_value a b :
  length a = length b →
  cosineSimilarity a b
  = PrimFloat.div (dotProduct a b) (PrimFloat.mul (magnitude a) (magnitude b)).
Proof.
  intros Hlen. unfold cosineSimilarity.
  pose proof (cosineLoop_sums a [] b PrimFloat.zero PrimFloat.zero PrimFloat.zero Hlen)
    as Hloop.
  cbn [app length] in Hloop. by rewrite Hloop.
Qed.

Lemma component_vanishes b i :
  Forall (λ x, Double.isZero x = true) b → Double.vanishes (component b i) = true.
Proof.
  intros Hb. unfold component. destruct (b !! i) as [x|] eqn:Hx; [|done].
  apply Double_isZero_vanishes. rewrite Forall_forall in Hb. apply Hb.
  by eapply list_elem_of_lookup_2.
Qed.

(** With a first vector of zeros the dot product and the first sum of
    squares stay a zero or [NaN]; with a second vector of zeros, the dot
    product and the second sum. *)
Lemma cosineLoop_zero_first a :
  Forall (λ x, Double.isZero x = true) a →
  ∀ b i dot normA normB,
    Double.vanishes dot = true → Double.vanishes normA = true →
    ∃ dot' normA' normB',
      cosineLoop a b i (dot, normA, normB) = (dot', normA', normB')
      ∧ Double.vanishes dot' = true ∧ Double.vanishes normA' = true.
Proof.
  induction 1 as [|x a Hx _ IH]; intros b i dot normA normB Hdot HnormA.
  - by eexists _, _, _.
  - cbn [cosineLoop]. apply IH.
    + apply Double_add_vanishes; [done|]. by apply Double_mul_vanishes_l.
    + apply Double_add_vanishes; [done|]. by apply Double_mul_vanishes_l.
Qed.

Lemma cosineLoop_zero_second b :
  Forall (λ x, Double.isZero x = true) b →
  ∀ a i dot normA normB,
    Double.vanishes dot = true → Double.vanishes normB = true →
    ∃ dot' normA' normB',
      cosineLoop a b i (dot, normA, normB) = (dot', normA', normB')
      ∧ Double.vanishes dot' = true ∧ Double.vanishes normB' = true.
Proof.
  intros Hb. induction a as [|x a IH]; intros i dot normA normB Hdot HnormB.
  - by eexists _, _, _.
  - cbn [cosineLoop]. apply IH.
    + apply Double_add_vanishes; [done|].
      by apply Double_mul_vanishes_r, component_vanishes.
    + apply Double_add_vanishes; [done|].
      by apply Double_mul_vanishes_r, component_vanishes.
Qed.

Lemma cosineSimilarity_zero a b :
  Forall (λ x, Double.isZero x = true) a ∨ Forall (λ x, Double.isZero x = true) b →
  cosineSimilarity a b = PrimFloat.nan.
Proof.
  intros [Ha|Hb]; unfold cosineSimilarity.
  - destruct (cosineLoop_zero_first a Ha b 0 PrimFloat.zero PrimFloat.zero PrimFloat.zero)
      as (dot & normA & normB & -> & Hdot & HnormA); [done..|].
    apply Double_div_vanishes; [done|]. rewrite Double_mul_comm.
    by apply Double_mul_vanishes_r, Double_sqrt_vanishes.
  - destruct (cosineLoop_zero_second b Hb a 0 PrimFloat.zero PrimFloat.zero PrimFloat.zero)
      as (dot & normA & normB & -> & Hdot & HnormB); [done..|].
    apply Double_div_vanishes; [done|].
    by apply Double_mul_vanishes_r, Double_sqrt_vanishes.
Qed.

(** C7 (amended). On vectors of equal length [cosineSimilarity] is the
    quotient (a.b)/(|a| |b|) computed in doubles: the products summed from
    the first component on, the two square roots, their product and the
    division, each rounded.  The division is not guarded: when every
    component of one of the vectors is zero the result is [NaN], the value
    of [0/0], not 0. *)
Theorem cosineSimilarity_unguarded (a b : list PrimFloat.float) :
  length a = length b →
  cosineSimilarity a b
  = PrimFloat.div (dotProduct a b) (PrimFloat.mul (magnitude a) (magnitude b))
  ∧ (Forall (λ x, Double.isZero x = true) a ∨ Forall (λ x, Double.isZero x = true) b →
     cosineSimilarity a b = PrimFloat.nan).
Proof.
  intros Hlen. split; [by apply cosineSimilarity_value|apply cosineSimilarity_zero].
Qed.

(** ** Sorting by similarity *)

Section Sorting.

Context {A N : Type} `{Signed N}.
Variable compareFn : A → A → N.

Lemma sortInsert_Permutation (x : A) sorted :
  sortInsert compareFn x sorted ≡ₚ x :: sorted.
Proof.
  induction sorted as [|y rest IH]; simpl; [done|].
  destruct (isPositive _); [|done].
  rewrite IH. apply Permutation_swap.
Qed.

Lemma jsSort_Permutation (items : list A) : jsSort compareFn items ≡ₚ items.
Proof.
  induction items as [|x rest IH]; simpl; [done|].
  by rewrite sortInsert_Permutation, IH.
Qed.

End Sorting.

Section SortByScore.

Context {A : Type}.

(** On scores that are not [NaN] the comparator is positive exactly when
    the first score is below the second. *)
Lemma moves_behind (x y : A * PrimFloat.float) :
  Double.isNaN (snd x) = false → Double.isNaN (snd y) = false →
  isPositive (byScoreDescending x y) = PrimFloat.ltb (snd x) (snd y).
Proof. intros Hx Hy. by apply Double_isPositive_sub. Qed.

Lemma sortInsert_sorted (x : A * PrimFloat.float) sorted :
  Double.isNaN (snd x) = false →
  Forall (λ p, Double.isNaN (snd p) = false) sorted →
  StronglySorted (λ p q, PrimFloat.leb (snd q) (snd p) = true) sorted →
  StronglySorted (λ p q, PrimFloat.leb (snd q) (snd p) = true)
    (sortInsert byScoreDescending x sorted).
Proof.
  intros Hx Hall Hsorted.
  induction sorted as [|y rest IH]; simpl.
  - repeat constructor.
  - inversion Hall as [|? ? Hy Hrest]; subst.
    inversion Hsorted as [|? ? Hs Hle]; subst.
    rewrite moves_behind by done.
    destruct (PrimFloat.ltb (snd x) (snd y)) eqn:Hcmp.
    + constructor; [by apply IH|].
      rewrite sortInsert_Permutation. constructor; [|done].
      by apply Double_ltb_leb.
    + assert (Hge : PrimFloat.leb (snd y) (snd x) = true)
        by (by apply Double_leb_total).
      constructor; [done|]. constructor; [done|].
      rewrite Forall_forall in Hle, Hrest |- *. intros z Hz.
      apply (Double_leb_trans _ (snd y)); auto.
Qed.

Lemma jsSort_sorted (items : list (A * PrimFloat.float)) :
  Forall (λ p, Double.isNaN (snd p) = false) items →
  StronglySorted (λ p q, PrimFloat.leb (snd q) (snd p) = true)
    (jsSort byScoreDescending items).
Proof.
  induction items as [|x rest IH]; intros Hall; simpl; [constructor|].
  inversion Hall; subst. apply sortInsert_sorted; [done| |by apply IH].
  by rewrite jsSort_Permutation.
Qed.

(** Items of one score keep their relative order. *)
Lemma sortInsert_stable (x : A * PrimFloat.float) sorted (s : PrimFloat.float) :
  filter (λ p, PrimFloat.eqb (snd p) s = true) (sortInsert byScoreDescending x sorted)
  = filter (λ p, PrimFloat.eqb (snd p) s = true) (x :: sorted).
Proof.
  induction sorted as [|y rest IH]; simpl; [done|].
  destruct (isPositive (byScoreDescending x y)) eqn:Hcmp; [|done].
  rewrite filter_cons, IH, !filter_cons.
  destruct (decide (PrimFloat.eqb (snd y) s = true)) as [Hy|];
    destruct (decide (PrimFloat.eqb (snd x) s = true)) as [Hx|]; try done.
  exfalso.
  pose proof (Double_eqb_ltb _ _ _ Hx Hy) as Hlt.
  apply Double_eqb_code in Hx as (Hx & _ & _). apply Double_eqb_code in Hy as (Hy & _ & _).
  rewrite moves_behind in Hcmp by done. congruence.
Qed.

Lemma jsSort_stable (items : list (A * PrimFloat.float)) (s : PrimFloat.float) :
  filter (λ p, PrimFloat.eqb (snd p) s = true) (jsSort byScoreDescending items)
  = filter (λ p, PrimFloat.eqb (snd p) s = true) items.
Proof.
  induction items as [|x rest IH]; simpl; [done|].
  rewrite sortInsert_stable. by rewrite !filter_cons, IH.
Qed.

End SortByScore.

Section Search.

Variable embeddingsCreate : nat → list string → option (list (list PrimFloat.float)).

(** A request that the provider answers. *)
Lemma createEmbeddings_answer texts data w :
  embeddingsCreate (embedCalls w) texts = Some data →
  createEmbeddings embeddingsCreate texts w
  = Some (data, mkWorld (fs w) (S (embedCalls w))).
Proof. intros H. unfold createEmbeddings. by rewrite H. Qed.

Lemma scored_chunks queryEmbedding cs :
  Forall (λ c, Double.isNaN (scoreOf queryEmbedding c) = false) cs →
  mapM (λ chunk, score ← chunkSimilarity queryEmbedding chunk; Some (chunk, score)) cs
  = Some ((λ c, (c, scoreOf queryEmbedding c)) <$> cs).
Proof.
  induction 1 as [|c cs Hc _ IH]; [done|].
  cbn [mapM]. unfold scoreOf in Hc.
  destruct (chunkSimilarity queryEmbedding c) as [s|] eqn:Hs; [|by vm_compute in Hc].
  simpl. rewrite IH. simpl. unfold scoreOf. by rewrite Hs.
Qed.

(** C8 (amended). When the provider answers the request for the query and
    no similarity is [NaN], [searchCode] returns the first [topK] chunks of
    the list sorted by descending cosine similarity to the query embedding,
    the similarities being the doubles that [cosineSimilarity] computes; the
    sort is stable, so chunks of equal similarity keep the order they have
    in the chunk list (no ordering by file and start line is applied). *)
Theorem searchCode_stable_descending (query : string) (cs : list CodeChunk)
    (topK : nat) (w : World) (q : list PrimFloat.float)
    (more : list (list PrimFloat.float)) :
  embeddingsCreate (embedCalls w) [query] = Some (q :: more) →
  Forall (λ c, Double.isNaN (scoreOf q c) = false) cs →
  ∃ ranked,
    searchCode embeddingsCreate query cs topK w
    = Some (take topK ranked, mkWorld (fs w) (S (embedCalls w)))
    ∧ ranked ≡ₚ cs
    ∧ StronglySorted
        (λ c1 c2, PrimFloat.leb (scoreOf q c2) (scoreOf q c1) = true) ranked
    ∧ ∀ s, filter (λ c, PrimFloat.eqb (scoreOf q c) s = true) ranked
           = filter (λ c, PrimFloat.eqb (scoreOf q c) s = true) cs.
Proof.
  intros Hanswer Hreal.
  set (scored := (λ c, (c, scoreOf q c)) <$> cs).
  assert (Hall : Forall (λ p : CodeChunk * PrimFloat.float, Double.isNaN (snd p) = false)
                   scored).
  { apply Forall_fmap. eapply Forall_impl; [exact Hreal|]. done. }
  assert (Hkey : ∀ p, p ∈ jsSort byScoreDescending scored → snd p = scoreOf q (fst p)).
  { intros p Hp. rewrite jsSort_Permutation in Hp.
    apply list_elem_of_fmap in Hp as (c & -> & _). done. }
  exists (fst <$> jsSort byScoreDescending scored). split_and!.
  - unfold searchCode, bind. rewrite (createEmbeddings_answer _ _ _ Hanswer).
    rewrite (scored_chunks q cs Hreal). fold scored.
    unfold ret. by rewrite fmap_take.
  - rewrite jsSort_Permutation. unfold scored. rewrite <- list_fmap_compose.
    simpl. by rewrite list_fmap_id.
  - pose proof (jsSort_sorted scored Hall) as Hsorted.
    induction Hsorted as [|p l Hs IH Hle]; simpl; [constructor|].
    constructor.
    + apply IH. intros p' Hp'. apply Hkey. by right.
    + apply Forall_fmap, Forall_forall. intros p' Hp'. simpl.
      rewrite <- (Hkey p) by (by left). rewrite <- (Hkey p') by (by right).
      by eapply Forall_forall in Hle.
  - intros s.
    transitivity (fst <$> filter (λ p, PrimFloat.eqb (snd p) s = true)
                            (jsSort byScoreDescending scored)).
    + clear Hall. induction (jsSort byScoreDescending scored) as [|p l IH]; [done|].
      csimpl. rewrite !filter_cons. rewrite IH by (intros; apply Hkey; by right).
      rewrite <- (Hkey p) by (by left).
      destruct (decide (PrimFloat.eqb (snd p) s = true)); done.
    + rewrite jsSort_stable. unfold scored. clear.
      induction cs as [|c cs IH]; [done|].
      csimpl. rewrite !filter_cons. csimpl.
      destruct (decide (PrimFloat.eqb (scoreOf q c) s = true)); csimpl; by rewrite IH.
Qed.

(** Two chunks with the same embedding come back in the order they have in
    the chunk list. *)
Lemma searchCode_ties query c1 c2 e topK w q more :
  embeddingsCreate (embedCalls w) [query] = Some (q :: more) →
  embedding c1 = Some e → embedding c2 = Some e →
  searchCode embeddingsCreate query [c1; c2] topK w
  = Some (take topK [c1; c2], mkWorld (fs w) (S (embedCalls w))).
Proof.
  intros Hanswer H1 H2. unfold searchCode, bind.
  rewrite (createEmbeddings_answer _ _ _ Hanswer).
  unfold chunkSimilarity. cbn [mapM]. rewrite H1, H2.
  cbn [mbind option_bind mret option_ret].
  unfold jsSort. cbn [foldr sortInsert]. unfold byScoreDescending at 1. cbn [snd].
  unfold isPositive, float_signed. rewrite Double_sub_diag. unfold ret.
  by rewrite fmap_take.
Qed.

End Search.

(** ** JSON: the parser reads back what the printer wrote *)

Section RoundTrip.

Variable numberToString : PrimFloat.float → string.
Variable stringToNumber : string → option PrimFloat.float.

Lemma text_chars s : JSON.text (JSON.chars s) = s.
Proof. apply String.string_of_list_ascii_of_string. Qed.

Lemma chars_text cs : JSON.chars (JSON.text cs) = cs.
Proof. apply String.list_ascii_of_string_of_list_ascii. Qed.

Lemma parseChars_escapeChar c tail :
  JSON.parseChars (JSON.escapeChar c ++ tail)
  = JSON.consChar c <$> JSON.parseChars tail.
Proof. destruct c as [[] [] [] [] [] [] [] []]; reflexivity. Qed.

Lemma parseChars_escaped cs rest :
  JSON.parseChars (concat (JSON.escapeChar <$> cs) ++ JSON.quote :: rest)
  = Some (cs, rest).
Proof.
  induction cs as [|c cs IH]; [done|].
  csimpl. by rewrite <- app_assoc, parseChars_escapeChar, IH.
Qed.

Lemma takeNumber_token token rest :
  forallb JSON.isNumberChar token = true → delimited rest →
  JSON.takeNumber (token ++ rest) = (token, rest).
Proof.
  intros Htok Hrest. induction token as [|c token IH].
  - destruct rest as [|d rest]; [done|]. simpl in *. by rewrite Hrest.
  - simpl in *. apply andb_prop in Htok as [-> Htok]. by rewrite IH.
Qed.

(** A character of a number starts none of the other values. *)
Lemma numberChar_dispatch c :
  JSON.isNumberChar c = true →
  JSON.isWhitespace c = false
  ∧ Ascii.eqb c (JSON.ch "n") = false ∧ Ascii.eqb c (JSON.ch "t") = false
  ∧ Ascii.eqb c (JSON.ch "f") = false ∧ Ascii.eqb c JSON.quote = false
  ∧ Ascii.eqb c (JSON.ch "[") = false ∧ Ascii.eqb c (JSON.ch "{") = false.
Proof. destruct c as [[] [] [] [] [] [] [] []]; intros H; try done. Qed.

Lemma numberChar_opens c : JSON.isNumberChar c = true → opens c.
Proof. unfold opens. destruct c as [[] [] [] [] [] [] [] []]; intros H; try done. Qed.

Lemma parseValue_number fuel x rest :
  JSON.survives numberToString stringToNumber x → delimited rest →
  JSON.parseValue stringToNumber (S fuel)
    (JSON.chars (JSON.numberToken numberToString x) ++ rest)
  = Some (JNum x, rest).
Proof.
  intros [Htok Hval] Hrest.
  unfold JSON.isJsonNumber in Htok. apply andb_prop in Htok as Hboth.
  destruct Hboth as [Hall Hshape].
  destruct (JSON.chars (JSON.numberToken numberToString x)) as [|c token] eqn:Hc;
    [done|].
  assert (Hc0 : JSON.isNumberChar c = true)
    by (simpl in Hall; by apply andb_prop in Hall as [? _]).
  destruct (numberChar_dispatch c Hc0) as (Hw & Hn & Ht & Hf & Hq & Ha & Ho).
  cbn [JSON.parseValue app JSON.skipWhitespace]. rewrite Hw, Hn, Ht, Hf, Hq, Ha, Ho.
  change (c :: token ++ rest) with ((c :: token) ++ rest).
  rewrite takeNumber_token by done.
  unfold JSON.isJsonNumber. rewrite Hall, Hshape. cbn [andb].
  by rewrite <- Hc, text_chars, Hval.
Qed.

Lemma render_opens j :
  Forall (JSON.survives numberToString stringToNumber) (JSON.numbers j) →
  ∃ c tail, JSON.render numberToString j = c :: tail ∧ opens c.
Proof.
  destruct j as [|[]|x|s|items|members]; intros Hnum;
    try (by eexists _, _; split; [reflexivity|]).
  cbn [JSON.numbers] in Hnum. rewrite Forall_singleton in Hnum. destruct Hnum as [Htok _].
  cbn [JSON.render]. unfold JSON.isJsonNumber in Htok.
  apply andb_prop in Htok as [Hall Hshape].
  destruct (JSON.chars (JSON.numberToken numberToString x)) as [|c token]; [done|].
  exists c, token. split; [done|]. simpl in Hall. apply andb_prop in Hall as [Hc _].
  by apply numberChar_opens.
Qed.

Lemma joinChars_fmap {A} (f : A → list Ascii.ascii) sep x y l :
  JSON.joinChars sep (f <$> x :: y :: l)
  = f x ++ sep :: JSON.joinChars sep (f <$> y :: l).
Proof. done. Qed.

Lemma parseElements_rendered items :
  Forall (readsBack numberToString stringToNumber) items →
  Forall (JSON.survives numberToString stringToNumber) (concat (JSON.numbers <$> items)) →
  items ≠ [] →
  ∀ fuel rest,
    foldr (λ v n, S (json_size v + n)) 0 items ≤ fuel →
    JSON.parseElements stringToNumber fuel
      (JSON.joinChars (JSON.ch ",") (JSON.render numberToString <$> items)
       ++ JSON.ch "]" :: rest)
    = Some (items, rest).
Proof.
  induction 1 as [|v items Hv Hitems IH]; intros Hnum Hne fuel rest Hfuel; [done|].
  csimpl in Hnum. apply Forall_app in Hnum as [Hnv Hnitems].
  cbn [foldr] in Hfuel. destruct fuel as [|fuel]; [lia|].
  cbn [JSON.parseElements]. destruct items as [|v' items].
  - cbn [fmap list_fmap JSON.joinChars].
    by rewrite (Hv Hnv fuel (JSON.ch "]" :: rest)) by (done || (simpl in *; lia)).
  - rewrite joinChars_fmap, <- app_assoc. cbn [app].
    rewrite (Hv Hnv fuel) by (done || (simpl in *; lia)).
    cbn [mbind option_bind snd JSON.skipWhitespace fst].
    change (JSON.isWhitespace (JSON.ch ",")) with false.
    cbv beta iota. change (Ascii.eqb (JSON.ch ",") (JSON.ch ",")) with true.
    cbv beta iota.
    by rewrite IH by (done || (simpl in *; lia)).
Qed.

Lemma parseMembers_rendered members :
  Forall (λ m, readsBack numberToString stringToNumber (snd m)) members →
  Forall (JSON.survives numberToString stringToNumber)
    (concat ((λ member, JSON.numbers (snd member)) <$> members)) →
  members ≠ [] →
  ∀ fuel rest,
    foldr (λ m n, S (json_size (snd m) + n)) 0 members ≤ fuel →
    JSON.parseMembers stringToNumber fuel
      (JSON.joinChars (JSON.ch ",")
         ((λ member, JSON.quoteString (fst member)
                     ++ JSON.ch ":" :: JSON.render numberToString (snd member))
            <$> members)
       ++ JSON.ch "}" :: rest)
    = Some (members, rest).
Proof.
  induction 1 as [|[k v] members Hv Hmembers IH]; intros Hnum Hne fuel rest Hfuel;
    [done|].
  csimpl in Hnum. apply Forall_app in Hnum as [Hnv Hnmembers].
  cbn [foldr snd] in Hfuel. destruct fuel as [|fuel]; [lia|].
  cbn [JSON.parseMembers]. cbn [snd] in Hv. destruct members as [|m' members].
  - cbn [fmap list_fmap JSON.joinChars fst snd]. unfold JSON.quoteString.
    cbn [app JSON.skipWhitespace]. change (JSON.isWhitespace JSON.quote) with false.
    cbv beta iota.
    rewrite Ascii.eqb_refl. rewrite <- !app_assoc. cbn [app].
    rewrite parseChars_escaped. cbn [mbind option_bind snd fst JSON.skipWhitespace].
    change (JSON.isWhitespace (JSON.ch ":")) with false. cbv beta iota.
    rewrite Ascii.eqb_refl.
    rewrite (Hv Hnv fuel (JSON.ch "}" :: rest)) by (done || (simpl in *; lia)).
    cbn [mbind option_bind snd fst JSON.skipWhitespace]. by rewrite text_chars.
  - rewrite joinChars_fmap. cbn [fst snd]. unfold JSON.quoteString at 1.
    cbn [app JSON.skipWhitespace]. change (JSON.isWhitespace JSON.quote) with false.
    cbv beta iota.
    rewrite Ascii.eqb_refl. rewrite <- !app_assoc. cbn [app].
    rewrite parseChars_escaped. cbn [mbind option_bind snd fst JSON.skipWhitespace].
    change (JSON.isWhitespace (JSON.ch ":")) with false. cbv beta iota.
    rewrite Ascii.eqb_refl.
    rewrite <- ?app_assoc. cbn [app].
    rewrite (Hv Hnv fuel) by (done || (simpl in *; lia)).
    cbn [mbind option_bind snd fst JSON.skipWhitespace].
    change (JSON.isWhitespace (JSON.ch ",")) with false.
    cbv beta iota. change (Ascii.eqb (JSON.ch ",") (JSON.ch ",")) with true.
    cbv beta iota.
    rewrite IH by (done || (simpl in *; lia)).
    cbn [mbind option_bind snd fst]. by rewrite text_chars.
Qed.

Lemma parseValue_rendered j : readsBack numberToString stringToNumber j.
Proof.
  induction j as [|b|x|s|items IH|members IH] using json_nested_ind;
    intros Hnum fuel rest Hfuel Hrest;
    (destruct fuel as [|fuel]; [simpl in Hfuel; lia|]).
  - done.
  - by destruct b.
  - apply parseValue_number; [|done]. cbn [JSON.numbers] in Hnum.
    by rewrite Forall_singleton in Hnum.
  - cbn [JSON.render JSON.parseValue]. unfold JSON.quoteString.
    cbn [app JSON.skipWhitespace]. change (JSON.isWhitespace JSON.quote) with false.
    cbv beta iota.
    change (Ascii.eqb JSON.quote (JSON.ch "n")) with false.
    change (Ascii.eqb JSON.quote (JSON.ch "t")) with false.
    change (Ascii.eqb JSON.quote (JSON.ch "f")) with false.
    rewrite Ascii.eqb_refl. cbv beta iota.
    rewrite <- app_assoc. cbn [app]. rewrite parseChars_escaped.
    cbn [mbind option_bind fst snd]. by rewrite text_chars.
  - cbn [JSON.render JSON.parseValue app JSON.skipWhitespace].
    change (JSON.isWhitespace (JSON.ch "[")) with false. cbv beta iota.
    change (Ascii.eqb (JSON.ch "[") (JSON.ch "n")) with false.
    change (Ascii.eqb (JSON.ch "[") (JSON.ch "t")) with false.
    change (Ascii.eqb (JSON.ch "[") (JSON.ch "f")) with false.
    change (Ascii.eqb (JSON.ch "[") JSON.quote) with false.
    change (Ascii.eqb (JSON.ch "[") (JSON.ch "[")) with true. cbv beta iota.
    destruct items as [|v items]; [done|].
    cbn [JSON.numbers] in Hnum.
    assert (Hhead : ∃ c tail,
               JSON.joinChars (JSON.ch ",") (JSON.render numberToString <$> v :: items)
               ++ [JSON.ch "]"] ++ rest = c :: tail ∧ opens c).
    { inversion IH as [|? ? Hv _]; subst. apply Forall_app in Hnum as Hsplit.
      destruct Hsplit as [Hnv _].
      destruct (render_opens v Hnv) as (c & tail & Hc & Hopen).
      cbn [fmap list_fmap JSON.joinChars]. rewrite Hc.
      destruct (JSON.render numberToString <$> items); eexists _, _;
        (split; [reflexivity|done]). }
    destruct Hhead as (c & tail & Hc & Hw & Hb & _).
    rewrite <- app_assoc. rewrite Hc. cbn [JSON.skipWhitespace]. rewrite Hw, Hb.
    rewrite <- Hc.
    cbn [app]. rewrite parseElements_rendered; [done|done|done|done|].
    simpl in Hfuel. simpl. lia.
  - cbn [JSON.render JSON.parseValue app JSON.skipWhitespace].
    change (JSON.isWhitespace (JSON.ch "{")) with false. cbv beta iota.
    change (Ascii.eqb (JSON.ch "{") (JSON.ch "n")) with false.
    change (Ascii.eqb (JSON.ch "{") (JSON.ch "t")) with false.
    change (Ascii.eqb (JSON.ch "{") (JSON.ch "f")) with false.
    change (Ascii.eqb (JSON.ch "{") JSON.quote) with false.
    change (Ascii.eqb (JSON.ch "{") (JSON.ch "[")) with false.
    change (Ascii.eqb (JSON.ch "{") (JSON.ch "{")) with true. cbv beta iota.
    destruct members as [|m members]; [done|].
    cbn [JSON.numbers] in Hnum.
    rewrite <- app_assoc.
    assert (Hhead : ∀ l, ∃ tail,
               JSON.joinChars (JSON.ch ",")
                 ((λ member, JSON.quoteString (fst member)
                             ++ JSON.ch ":" :: JSON.render numberToString (snd member))
                    <$> m :: members) ++ l = JSON.quote :: tail).
    { intros l. cbn [fmap list_fmap JSON.joinChars]. unfold JSON.quoteString at 1.
      destruct (_ <$> members); eexists; reflexivity. }
    destruct (Hhead ([JSON.ch "}"] ++ rest)) as [tail Hc].
    rewrite Hc. cbn [JSON.skipWhitespace].
    change (JSON.isWhitespace JSON.quote) with false. cbv beta iota.
    change (Ascii.eqb JSON.quote (JSON.ch "}")) with false. cbv beta iota. rewrite <- Hc.
    cbn [app]. rewrite parseMembers_rendered; [done|done|done|done|].
    simpl in Hfuel. simpl. lia.
Qed.

Lemma joinChars_length {A} (f : A → list Ascii.ascii) (size : A → nat) sep items :
  Forall (λ v, size v ≤ length (f v)) items →
  foldr (λ v n, S (size v + n)) 0 items ≤ S (length (JSON.joinChars sep (f <$> items))).
Proof.
  induction 1 as [|v items Hv _ IH]; [simpl; lia|].
  destruct items as [|v' items].
  - simpl. lia.
  - rewrite joinChars_fmap, length_app. cbn [length foldr] in *. lia.
Qed.

Lemma json_size_render j :
  Forall (JSON.survives numberToString stringToNumber) (JSON.numbers j) →
  json_size j ≤ length (JSON.render numberToString j).
Proof.
  induction j as [|b|x|s|items IH|members IH] using json_nested_ind; intros Hnum.
  - simpl. lia.
  - destruct b; simpl; lia.
  - cbn [JSON.numbers] in Hnum. rewrite Forall_singleton in Hnum.
    destruct Hnum as [Htok _].
    unfold JSON.isJsonNumber in Htok. apply andb_prop in Htok as [_ Hshape].
    cbn [JSON.render json_size].
    destruct (JSON.chars (JSON.numberToken numberToString x)); [done|]. simpl. lia.
  - cbn [JSON.render json_size]. unfold JSON.quoteString. simpl. lia.
  - cbn [JSON.render json_size JSON.numbers] in *. cbn [length].
    rewrite length_app. cbn [length].
    pose proof (joinChars_length (JSON.render numberToString) json_size (JSON.ch ",")
                  items) as Hlen.
    rewrite Nat.add_1_r. apply le_n_S. apply Hlen.
    apply Forall_forall. intros v Hv. rewrite Forall_forall in IH. apply IH; [done|].
    rewrite Forall_concat, Forall_fmap, Forall_forall in Hnum. by apply Hnum.
  - cbn [JSON.render json_size JSON.numbers] in *. cbn [length].
    rewrite length_app. cbn [length].
    pose proof (joinChars_length
                  (λ member, JSON.quoteString (fst member)
                             ++ JSON.ch ":" :: JSON.render numberToString (snd member))
                  (λ member, json_size (snd member)) (JSON.ch ",") members) as Hlen.
    rewrite Nat.add_1_r. apply le_n_S. apply Hlen.
    apply Forall_forall. intros m Hm. rewrite Forall_forall in IH.
    rewrite length_app. cbn [length]. etrans; [apply (IH m Hm)|lia].
    rewrite Forall_concat, Forall_fmap, Forall_forall in Hnum. by apply Hnum.
Qed.

(** [JSON.parse] reads back what [JSON.stringify] wrote, when the numbers of
    the document survive the conversions. *)
Lemma parse_stringify j :
  Forall (JSON.survives numberToString stringToNumber) (JSON.numbers j) →
  JSON.parse stringToNumber (JSON.stringify numberToString j) = Some j.
Proof.
  intros Hnum. unfold JSON.parse, JSON.stringify.
  rewrite chars_text.
  pose proof (parseValue_rendered j Hnum
                (S (String.length (JSON.text (JSON.render numberToString j)))) [])
    as Hp.
  rewrite app_nil_r in Hp. rewrite Hp; [done| |done].
  pose proof (json_size_render j Hnum).
  assert (String.length (JSON.text (JSON.render numberToString j))
          = length (JSON.render numberToString j)) as ->; [|lia].
  generalize (JSON.render numberToString j). clear. intros l.
  induction l as [|c l IH]; simpl; [done|]. by rewrite IH.
Qed.

(** ** Saving and loading the index *)

Lemma chunkFromJson_chunkToJson c :
  Double.isSafe (startLine c) → Double.isSafe (endLine c) →
  chunkFromJson (chunkToJson c) = Some c.
Proof.
  intros Hs He.
  destruct c as [f s e c [emb|]]; unfold chunkFromJson, chunkToJson, jsonOfNat;
    cbn [file startLine endLine content embedding app] in *.
  - cbn -[Double.ofNat Double.toNat mapM].
    rewrite !Double_toNat_ofNat by done. cbn -[mapM].
    by rewrite mapM_fmap_Some.
  - cbn -[Double.ofNat Double.toNat].
    by rewrite !Double_toNat_ofNat by done.
Qed.

Lemma chunksFromJson_chunksToJson cs :
  Forall (λ c, Double.isSafe (startLine c) ∧ Double.isSafe (endLine c)) cs →
  chunksFromJson (chunksToJson cs) = Some cs.
Proof.
  intros Hsafe. unfold chunksFromJson, chunksToJson.
  apply mapM_Some. induction Hsafe as [|c cs [Hs He] _ IH]; csimpl; constructor.
  - by apply chunkFromJson_chunkToJson.
  - done.
Qed.

Lemma writeFile_Some path text w w' :
  writeFile path text w = Some ((), w') →
  fs w' !! path = Some (TextFile text) ∧ embedCalls w' = embedCalls w.
Proof.
  unfold writeFile.
  destruct (fs w !! path) as [[]|], (fs w !! NodePath.dirname path) as [[]|];
    intros [= <-]; simpl; by rewrite lookup_insert_eq.
Qed.

(** C9 (amended). When [save] resolves, and every number the index stores
    (line numbers, embedding components) is one that the runtime writes as
    a number and reads back as it was, the line numbers being below [2^53],
    loading the file gives an index with the same chunk list, embeddings
    included, so a search on the reloaded index returns what the same search
    returns on the original; loading makes no call to the embedding provider
    (the world after [load] is the world before it). *)
Theorem CodeIndex_save_load (self other : CodeIndex) (filePath : string)
    (w w' : World) :
  Forall (JSON.survives numberToString stringToNumber) (storedNumbers (chunks self)) →
  Forall (λ c, Double.isSafe (startLine c) ∧ Double.isSafe (endLine c)) (chunks self) →
  CodeIndex_save numberToString self filePath w = Some ((), w') →
  ∃ loaded,
    CodeIndex_load stringToNumber other filePath w' = Some (LoadedIndex loaded, w')
    ∧ embedCalls w' = embedCalls w
    ∧ chunks loaded = chunks self
    ∧ ∀ embeddingsCreate query topK w0,
        CodeIndex_search embeddingsCreate loaded query topK w0
        = CodeIndex_search embeddingsCreate self query topK w0.
Proof.
  intros Hnum Hsafe Hsave. exists (mkIndex (chunks self)).
  apply writeFile_Some in Hsave as [Hfile Hcalls].
  split_and!; try done.
  unfold CodeIndex_load, bind.
  rewrite (proj2 (readFile_Some _ _ _ _) (conj Hfile eq_refl)).
  rewrite parse_stringify by done.
  by rewrite chunksFromJson_chunksToJson.
Qed.

End RoundTrip.

(** * Part III: the program on concrete inputs *)

(** C1. On the sample project, with a total budget of 30 tokens and the
    [ceil(length/4)] token count, [assembleContext] returns a string of 41
    tokens.  The running count reaches 25 (nothing for the empty map text,
    12 for the file section, 13 for the chunk section), so both sections
    pass the test against the budget; the three header lines and the
    separators of the final [join] are never counted. *)
Theorem assembleContext_exceeds_budget :
  ∃ index afterIndexing parts out final,
    CodeIndex_index sampleEmbed sampleGlob (mkIndex []) "/proj" sampleWorld
    = Some (index, afterIndexing)
    ∧ assembleParts sampleEmbed estimateTokens sampleTruncate sampleRepoMap
        sampleSelect "/proj" sampleTask index sampleConfig afterIndexing
      = Some ((parts, 25), final)
    ∧ assembleContext sampleEmbed estimateTokens sampleTruncate sampleRepoMap
        sampleSelect "/proj" sampleTask index sampleConfig afterIndexing
      = Some (out, final)
    ∧ estimateTokens out = 41
    ∧ maxTotalTokens sampleConfig = 30.
Proof.
  eexists _, _, _, _, _. split_and!.
  - vm_compute. reflexivity.
  - vm_compute. reflexivity.
  - vm_compute. reflexivity.
  - vm_compute. reflexivity.
  - reflexivity.
Qed.


(** C3. [a.ts] imports [./b] and no file [b.ts] is listed: the specifier
    resolves to [b.ts], outside the node set, and the graph nevertheless gets
    the forward edge from [a.ts] to [b.ts] and the reverse edge back, so an
    endpoint of an edge is not a node.  ([resolveImport] returns the path
    without the check its own comment asks for.) *)
Theorem buildDependencyGraph_edge_outside_nodes :
  ∃ g,
    buildDependencyGraph "/proj" ["a.ts"] importWorld = Some (g, importWorld)
    ∧ elements (nodes g) = ["a.ts"]
    ∧ map_to_list (elements <$> edges g) = [("a.ts", ["b.ts"])]
    ∧ map_to_list (elements <$> reverseEdges g) = [("b.ts", ["a.ts"])].
Proof.
  eexists. split_and!.
  - vm_compute. reflexivity.
  - vm_compute. reflexivity.
  - vm_compute. reflexivity.
  - vm_compute. reflexivity.
Qed.

(** C4, counterexample. The seed [zz.ts] is not a node of the graph, and the
    returned map has an entry for it. *)
Lemma rankFiles_keeps_foreign_seed :
  elements (nodes isolatedGraph) = ["a.ts"]
  ∧ map_to_list (rankFiles isolatedGraph ["zz.ts"] defaultRankOptions)
    = [("a.ts", 0.15%Q); ("zz.ts", 0.5%Q)].
Proof. split; vm_compute; reflexivity. Qed.

(** C5, counterexample. One node, no edges, no seeds: the scores sum to 0.15. *)
Lemma rankFiles_isolated_mass :
  (totalScore isolatedGraph (rankFiles isolatedGraph [] defaultRankOptions) == 0.15)%Q
  ∧ ¬ (Qabs (totalScore isolatedGraph (rankFiles isolatedGraph [] defaultRankOptions) - 1)
       <= 0.5)%Q.
Proof.
  split.
  - vm_compute. reflexivity.
  - intros H. vm_compute in H. by apply H.
Qed.

Lemma cycleGraph_mirrored : mirrored cycleGraph.
Proof.
  apply mirroredCheck_mirrored. apply (bool_decide_unpack _). vm_compute. exact I.
Qed.

Lemma rankFiles_no_seeds_mass_witness :
  (0 <= 0)%Q ∧ (0 <= 1)%Q ∧ (0 <= gridStep 60)%Q
  ∧ roundsWithin (roundToGrid 60) 0 (gridStep 60)
  ∧ (0 <= default 0.85 (damping defaultRankOptions))%Q
  ∧ (default 0.85 (damping defaultRankOptions) <= 1)%Q
  ∧ mirrored cycleGraph
  ∧ map_Forall (λ _ importers, importers ⊆ nodes cycleGraph) (reverseEdges cycleGraph)
  ∧ map_Forall (λ _ importers, size importers ≤ 1) (reverseEdges cycleGraph)
  ∧ (∀ v, (0 <= getScore (rankFilesRounded (roundToGrid 60) cycleGraph []
                            defaultRankOptions) v)%Q)
  ∧ (totalScore cycleGraph
       (rankFilesRounded (roundToGrid 60) cycleGraph [] defaultRankOptions)
     <= 1 + massError 0 (gridStep 60) (1 + 20 * (1 + 2))
              (size (nodes cycleGraph) * (1 + 20 * (3 * 1 + 2))))%Q
  ∧ (nodes cycleGraph ≠ ∅ →
     (∀ u, u ∈ nodes cycleGraph →
        ∃ targets, edges cycleGraph !! u = Some targets ∧ targets ≠ ∅
                   ∧ targets ⊆ nodes cycleGraph) →
     (Qabs (totalScore cycleGraph
              (rankFilesRounded (roundToGrid 60) cycleGraph [] defaultRankOptions) - 1)
      <= massError 0 (gridStep 60) (1 + 20 * (1 + 2))
           (size (nodes cycleGraph) * (1 + 20 * (3 * 1 + 2))))%Q).
Proof.
  assert (Hu0 : (0 <= 0)%Q) by (by vm_compute).
  assert (Hu1 : (0 <= 1)%Q) by (by vm_compute).
  assert (Hη : (0 <= gridStep 60)%Q) by (by vm_compute).
  assert (H0 : (0 <= default 0.85 (damping defaultRankOptions))%Q) by (by vm_compute).
  assert (H1 : (default 0.85 (damping defaultRankOptions) <= 1)%Q) by (by vm_compute).
  assert (H2 : map_Forall (λ _ importers, importers ⊆ nodes cycleGraph)
                 (reverseEdges cycleGraph)).
  { apply (bool_decide_unpack _). vm_compute. exact I. }
  assert (H3 : map_Forall (λ _ importers, size importers ≤ 1)
                 (reverseEdges cycleGraph)).
  { apply (bool_decide_unpack _). vm_compute. exact I. }
  split; [exact Hu0|]. split; [exact Hu1|]. split; [exact Hη|].
  split; [exact (roundToGrid_roundsWithin 60)|].
  split; [exact H0|]. split; [exact H1|]. split; [exact cycleGraph_mirrored|].
  split; [exact H2|]. split; [exact H3|].
  exact (rankFiles_no_seeds_mass (roundToGrid 60) 0 (gridStep 60) 1 cycleGraph
           defaultRankOptions Hu0 Hu1 Hη (roundToGrid_roundsWithin 60) H0 H1
           cycleGraph_mirrored H2 H3).
Defined.

(** C6, counterexample. Doubling the boost of the seed [a.ts] of the
    one-file graph leaves its final score where it was. *)
Lemma rankFiles_boost_not_strict :
  ((λ _ : string, 0.5) "a.ts" < (λ _ : string, 1) "a.ts")%Q
  ∧ ¬ (getScore (rankFilesBoosted (λ _, 0.5%Q) isolatedGraph ["a.ts"] defaultRankOptions) "a.ts"
       < getScore (rankFilesBoosted (λ _, 1%Q) isolatedGraph ["a.ts"] defaultRankOptions) "a.ts")%Q.
Proof.
  split.
  - by vm_compute.
  - intros H. vm_compute in H. discriminate H.
Qed.

Lemma rankFiles_boost_monotone_witness :
  (0 <= default 0.85 (damping defaultRankOptions))%Q
  ∧ mirrored cycleGraph
  ∧ (∀ seed : string, (λ _, 0.5) seed <= (λ _, 1) seed)%Q
  ∧ (getScore (rankFilesBoosted (λ _, 0.5%Q) cycleGraph ["a.ts"] defaultRankOptions) "b.ts"
     <= getScore (rankFilesBoosted (λ _, 1%Q) cycleGraph ["a.ts"] defaultRankOptions) "b.ts")%Q.
Proof.
  assert (H0 : (0 <= default 0.85 (damping defaultRankOptions))%Q) by (by vm_compute).
  assert (H1 : ∀ seed : string, ((λ _, 0.5) seed <= (λ _, 1) seed)%Q)
    by (intros _; by vm_compute).
  split; [exact H0|]. split; [exact cycleGraph_mirrored|]. split; [exact H1|].
  exact (rankFiles_boost_monotone (λ _, 0.5%Q) (λ _, 1%Q) cycleGraph ["a.ts"]
           defaultRankOptions H0 cycleGraph_mirrored H1 "b.ts").
Defined.

(** C7, counterexample. One of the vectors is zero: the similarity is [NaN],
    not 0. *)
Lemma cosineSimilarity_zero_vector :
  magnitude [PrimFloat.zero] = PrimFloat.zero
  ∧ cosineSimilarity [PrimFloat.zero] [PrimFloat.one] = PrimFloat.nan
  ∧ PrimFloat.eqb (cosineSimilarity [PrimFloat.zero] [PrimFloat.one]) PrimFloat.zero
    = false.
Proof. split_and!; vm_compute; reflexivity. Qed.

Lemma cosineSimilarity_unguarded_witness :
  length [PrimFloat.zero; PrimFloat.zero] = length [PrimFloat.one; PrimFloat.zero]
  ∧ cosineSimilarity [PrimFloat.zero; PrimFloat.zero] [PrimFloat.one; PrimFloat.zero]
    = PrimFloat.div
        (dotProduct [PrimFloat.zero; PrimFloat.zero] [PrimFloat.one; PrimFloat.zero])
        (PrimFloat.mul (magnitude [PrimFloat.zero; PrimFloat.zero])
           (magnitude [PrimFloat.one; PrimFloat.zero]))
  ∧ (Forall (λ x, Double.isZero x = true) [PrimFloat.zero; PrimFloat.zero]
     ∨ Forall (λ x, Double.isZero x = true) [PrimFloat.one; PrimFloat.zero] →
     cosineSimilarity [PrimFloat.zero; PrimFloat.zero] [PrimFloat.one; PrimFloat.zero]
     = PrimFloat.nan).
Proof.
  split; [reflexivity|]. apply cosineSimilarity_unguarded. reflexivity.
Defined.

(** C8, counterexample. The two chunks are equally similar to the query and
    [a.ts] precedes [b.ts], yet the chunk of [b.ts] is returned first: ties
    stay in the order of the chunk list. *)
Lemma searchCode_ties_keep_list_order :
  sampleEmbed 0 ["query"] = Some [[PrimFloat.one; PrimFloat.zero]]
  ∧ chunkSimilarity [PrimFloat.one; PrimFloat.zero] tiedEarlier = Some PrimFloat.one
  ∧ chunkSimilarity [PrimFloat.one; PrimFloat.zero] tiedLater = Some PrimFloat.one
  ∧ String.ltb (file tiedEarlier) (file tiedLater) = true
  ∧ searchCode sampleEmbed "query" [tiedLater; tiedEarlier] 10 sampleWorld
    = Some ([tiedLater; tiedEarlier], mkWorld (fs sampleWorld) 1).
Proof. split_and!; vm_compute; reflexivity. Qed.

Lemma searchCode_stable_descending_witness :
  sampleEmbed (embedCalls sampleWorld) ["query"]
  = Some ([PrimFloat.one; PrimFloat.zero] :: [])
  ∧ Forall (λ c, Double.isNaN (scoreOf [PrimFloat.one; PrimFloat.zero] c) = false)
      [tiedLater; tiedEarlier]
  ∧ ∃ ranked,
      searchCode sampleEmbed "query" [tiedLater; tiedEarlier] 10 sampleWorld
      = Some (take 10 ranked, mkWorld (fs sampleWorld) (S (embedCalls sampleWorld)))
      ∧ ranked ≡ₚ [tiedLater; tiedEarlier]
      ∧ StronglySorted
          (λ c1 c2, PrimFloat.leb (scoreOf [PrimFloat.one; PrimFloat.zero] c2)
                      (scoreOf [PrimFloat.one; PrimFloat.zero] c1) = true) ranked
      ∧ ∀ s, filter (λ c, PrimFloat.eqb (scoreOf [PrimFloat.one; PrimFloat.zero] c) s
                          = true) ranked
             = filter (λ c, PrimFloat.eqb (scoreOf [PrimFloat.one; PrimFloat.zero] c) s
                            = true) [tiedLater; tiedEarlier].
Proof.
  assert (H1 : sampleEmbed (embedCalls sampleWorld) ["query"]
               = Some ([PrimFloat.one; PrimFloat.zero] :: [])) by reflexivity.
  assert (H2 : Forall (λ c, Double.isNaN (scoreOf [PrimFloat.one; PrimFloat.zero] c)
                            = false) [tiedLater; tiedEarlier]).
  { repeat constructor; vm_compute; reflexivity. }
  split; [exact H1|]. split; [exact H2|].
  exact (searchCode_stable_descending sampleEmbed "query" [tiedLater; tiedEarlier]
           10 sampleWorld [PrimFloat.one; PrimFloat.zero] [] H1 H2).
Defined.

(** C9, counterexample. The provider answers with vectors that hold the
    negative zero, and [index] builds an index of one chunk from a project
    of one file.  [save] writes the negative zero as [0], and the index that
    [load] leaves holds the positive zero in its place: the chunk list is
    not the one that was saved, and the chunk that [search] returns from
    the loaded index is not the chunk it returns from the saved one. *)
Lemma CodeIndex_save_load_negative_zero :
  ∃ indexed saved searched,
    CodeIndex_index negativeZeroEmbed negativeZeroGlob (mkIndex []) "/proj"
      negativeZeroWorld
    = Some (mkIndex [negativeZeroChunk], indexed)
    ∧ CodeIndex_save sampleNumberToString (mkIndex [negativeZeroChunk])
        "/proj/index.json" indexed
      = Some ((), saved)
    ∧ fs saved !! "/proj/index.json"
      = Some (TextFile
                (JSON.text
                   (JSON.chars "[{" ++ JSON.quoteString "file" ++ JSON.chars ":"
                    ++ JSON.quoteString "a.ts" ++ JSON.chars ","
                    ++ JSON.quoteString "startLine" ++ JSON.chars ":0,"
                    ++ JSON.quoteString "endLine" ++ JSON.chars ":0,"
                    ++ JSON.quoteString "content" ++ JSON.chars ":"
                    ++ JSON.quoteString "const a = 1;" ++ JSON.chars ","
                    ++ JSON.quoteString "embedding" ++ JSON.chars ":[0]}]")))
    ∧ CodeIndex_load sampleStringToNumber (mkIndex []) "/proj/index.json" saved
      = Some (LoadedIndex (mkIndex [positiveZeroChunk]), saved)
    ∧ [positiveZeroChunk] ≠ [negativeZeroChunk]
    ∧ CodeIndex_search negativeZeroEmbed (mkIndex [negativeZeroChunk]) "const" 5 saved
      = Some ([negativeZeroChunk], searched)
    ∧ CodeIndex_search negativeZeroEmbed (mkIndex [positiveZeroChunk]) "const" 5 saved
      = Some ([positiveZeroChunk], searched).
Proof.
  do 3 eexists. split_and!.
  - vm_compute. reflexivity.
  - vm_compute. reflexivity.
  - vm_compute. reflexivity.
  - vm_compute. reflexivity.
  - intros H.
    apply (f_equal (λ cs, default [] (head cs ≫= embedding))) in H.
    apply (f_equal (λ e, default PrimFloat.nan (head e))) in H.
    by apply Double_zero_neq.
  - vm_compute. reflexivity.
  - vm_compute. reflexivity.
Qed.

Lemma CodeIndex_save_load_witness :
  Forall (JSON.survives sampleNumberToString sampleStringToNumber)
    (storedNumbers (chunks (mkIndex [tiedLater; tiedEarlier])))
  ∧ Forall (λ c, Double.isSafe (startLine c) ∧ Double.isSafe (endLine c))
      (chunks (mkIndex [tiedLater; tiedEarlier]))
  ∧ CodeIndex_save sampleNumberToString (mkIndex [tiedLater; tiedEarlier])
      "/proj/index.json" saveWorld
    = Some ((), mkWorld
                  (<["/proj/index.json" :=
                       TextFile (JSON.stringify sampleNumberToString
                                   (chunksToJson [tiedLater; tiedEarlier]))]>
                     (fs saveWorld)) 0)
  ∧ ∃ loaded,
      CodeIndex_load sampleStringToNumber (mkIndex []) "/proj/index.json"
        (mkWorld
           (<["/proj/index.json" :=
                TextFile (JSON.stringify sampleNumberToString
                            (chunksToJson [tiedLater; tiedEarlier]))]>
              (fs saveWorld)) 0)
      = Some (LoadedIndex loaded,
              mkWorld
                (<["/proj/index.json" :=
                     TextFile (JSON.stringify sampleNumberToString
                                 (chunksToJson [tiedLater; tiedEarlier]))]>
                   (fs saveWorld)) 0)
      ∧ embedCalls
          (mkWorld
             (<["/proj/index.json" :=
                  TextFile (JSON.stringify sampleNumberToString
                              (chunksToJson [tiedLater; tiedEarlier]))]>
                (fs saveWorld)) 0)
        = embedCalls saveWorld
      ∧ chunks loaded = chunks (mkIndex [tiedLater; tiedEarlier])
      ∧ ∀ embeddingsCreate query topK w0,
          CodeIndex_search embeddingsCreate loaded query topK w0
          = CodeIndex_search embeddingsCreate (mkIndex [tiedLater; tiedEarlier])
              query topK w0.
Proof.
  assert (H1 : Forall (JSON.survives sampleNumberToString sampleStringToNumber)
                 (storedNumbers (chunks (mkIndex [tiedLater; tiedEarlier])))).
  { repeat constructor; vm_compute; reflexivity. }
  assert (H2 : Forall (λ c, Double.isSafe (startLine c) ∧ Double.isSafe (endLine c))
                 (chunks (mkIndex [tiedLater; tiedEarlier]))).
  { repeat constructor; vm_compute; reflexivity. }
  assert (H3 : CodeIndex_save sampleNumberToString (mkIndex [tiedLater; tiedEarlier])
                 "/proj/index.json" saveWorld
               = Some ((), mkWorld
                             (<["/proj/index.json" :=
                                  TextFile (JSON.stringify sampleNumberToString
                                              (chunksToJson [tiedLater; tiedEarlier]))]>
                                (fs saveWorld)) 0)) by reflexivity.
  split; [exact H1|]. split; [exact H2|]. split; [exact H3|].
  exact (CodeIndex_save_load sampleNumberToString sampleStringToNumber
           (mkIndex [tiedLater; tiedEarlier]) (mkIndex []) "/proj/index.json"
           saveWorld _ H1 H2 H3).
Defined.

(** * Part IV: further properties of the engine *)

(** ** Lines, split and joined *)

Lemma splitOn_nonempty sep s : Str.splitOn sep s ≠ [].
Proof.
  destruct s as [|c s]; simpl; [done|].
  destruct (Ascii.eqb c sep); [done|]. by destruct (Str.splitOn sep s).
Qed.

Lemma joinWith_cons sep p q rest :
  Str.joinWith sep (p :: q :: rest) = p +:+ sep +:+ Str.joinWith sep (q :: rest).
Proof. done. Qed.

Lemma joinWith_splitOn sep s :
  Str.joinWith (Str.ofChar sep) (Str.splitOn sep s) = s.
Proof.
  induction s as [|c s IH]; simpl; [done|].
  pose proof (splitOn_nonempty sep s) as Hne.
  destruct (Ascii.eqb c sep) eqn:E.
  - apply Ascii.eqb_eq in E as ->.
    destruct (Str.splitOn sep s) as [|l ls]; [done|].
    rewrite joinWith_cons, IH. done.
  - destruct (Str.splitOn sep s) as [|l ls]; [done|].
    destruct ls as [|l' ls].
    + simpl in *. by rewrite IH.
    + rewrite joinWith_cons. rewrite joinWith_cons in IH. by rewrite <- IH.
Qed.

Lemma string_app_assoc (a b c : string) : (a +:+ b) +:+ c = a +:+ (b +:+ c).
Proof.
  induction a as [|x a IH]; [done|].
  change (String x ((a +:+ b) +:+ c) = String x (a +:+ b +:+ c)). by rewrite IH.
Qed.

Lemma joinWith_app sep xs ys :
  xs ≠ [] → ys ≠ [] →
  Str.joinWith sep (xs ++ ys) = Str.joinWith sep xs +:+ sep +:+ Str.joinWith sep ys.
Proof.
  intros Hx Hy. induction xs as [|x xs IH]; [done|].
  destruct xs as [|x' xs].
  - simpl. destruct ys; done.
  - change ((x :: x' :: xs) ++ ys) with (x :: (x' :: xs) ++ ys).
    simpl app at 1. rewrite !joinWith_cons.
    change (x' :: xs ++ ys) with ((x' :: xs) ++ ys).
    rewrite IH by done. by rewrite !string_app_assoc.
Qed.

(** Joining texts is joining their lines. *)
Lemma joinWith_concat_splitOn sep ss :
  Str.joinWith (Str.ofChar sep) (concat (Str.splitOn sep <$> ss))
  = Str.joinWith (Str.ofChar sep) ss.
Proof.
  induction ss as [|s ss IH]; [done|]. csimpl.
  destruct ss as [|s' ss].
  - csimpl. rewrite app_nil_r. apply joinWith_splitOn.
  - rewrite joinWith_app.
    + rewrite joinWith_splitOn, IH. done.
    + apply splitOn_nonempty.
    + csimpl. pose proof (splitOn_nonempty sep s'). destruct (Str.splitOn sep s'); done.
Qed.

(** ** [chunkCode]: what the chunks hold *)

Lemma tiles_snoc a cs b c :
  tiles a cs b → startLine c = b → b ≤ endLine c →
  tiles a (cs ++ [c]) (S (endLine c)).
Proof.
  revert a. induction cs as [|c' cs IH]; intros a Ht Hs Hle; simpl in *.
  - subst. done.
  - destruct Ht as (H1 & H2 & H3). split_and!; [done|done|]. by apply IH.
Qed.

Lemma lineRange_snoc all start i line :
  start ≤ i → all !! i = Some line →
  lineRange all start i = take (i - start) (drop start all) ++ [line].
Proof.
  intros Hle Hi. unfold lineRange.
  replace (S i - start) with (S (i - start)) by lia.
  apply take_S_r. rewrite lookup_drop. by replace (start + (i - start)) with i by lia.
Qed.

Lemma charCount_snoc ls l : charCount (ls ++ [l]) = charCount ls + String.length l.
Proof. unfold charCount. rewrite fmap_app, sum_list_with_app. simpl. lia. Qed.

Lemma chunkLoop_structure f chunkSize all lines :
  ∀ i chunks cur start len chunks' cur' start',
    lines = drop i all → i ≤ length all → start ≤ i →
    cur = take (i - start) (drop start all) →
    len = charCount cur →
    tiles 0 chunks start →
    Forall (chunkOf f all) chunks →
    Forall (closedAtBreak chunkSize all) chunks →
    chunkLoop f chunkSize lines i chunks cur start len = (chunks', cur', start') →
    start' ≤ length all ∧ cur' = drop start' all ∧ tiles 0 chunks' start'
    ∧ Forall (chunkOf f all) chunks'
    ∧ Forall (closedAtBreak chunkSize all) chunks'.
Proof.
  induction lines as [|line rest IH];
    intros i chunks cur start len chunks' cur' start' Hlines Hi Hstart Hcur Hlen
      Htiles Hof Hclosed Hrun; simpl in Hrun.
  - inversion Hrun; subst chunks' cur' start'.
    assert (length all ≤ i).
    { destruct (decide (length all ≤ i)); [done|].
      assert (Hlt : i < length all) by lia.
      apply lookup_lt_is_Some_2 in Hlt as [x Hx].
      rewrite (drop_S _ _ _ Hx) in Hlines. done. }
    assert (i = length all) as -> by lia.
    split_and!; [lia| |done|done|done].
    rewrite Hcur. apply take_ge. rewrite length_drop. lia.
  - assert (Hline : all !! i = Some line).
    { rewrite <- (Nat.add_0_r i), <- lookup_drop, <- Hlines. done. }
    assert (Hrest : rest = drop (S i) all).
    { rewrite (drop_S _ _ _ Hline) in Hlines. by inversion Hlines. }
    assert (Hlt : i < length all) by (by eapply lookup_lt_Some).
    assert (Hrange : cur ++ [line] = lineRange all start i).
    { rewrite (lineRange_snoc _ _ _ _ Hstart Hline). by rewrite Hcur. }
    assert (Hcount : length (cur ++ [line]) = S i - start).
    { rewrite Hrange. unfold lineRange. rewrite length_take, length_drop. lia. }
    destruct ((matchesDeclaration line || (chunkSize <=? len + String.length line))
              && (5 <? length (cur ++ [line]))) eqn:Hbreak.
    + apply andb_prop in Hbreak as [Hwhy Hmany]. apply Nat.ltb_lt in Hmany.
      eapply IH in Hrun; [exact Hrun|done|lia|lia| | | | |].
      * by rewrite Nat.sub_diag.
      * done.
      * by apply (tiles_snoc 0 chunks start
                    (mkChunk f start i (Str.join (cur ++ [line])) None)).
      * apply Forall_app; split; [done|]. constructor; [|done].
        unfold chunkOf. simpl. rewrite Hrange. by split_and!.
      * apply Forall_app; split; [done|]. constructor; [|done].
        split; simpl; [lia|]. exists line. split; [done|].
        apply orb_prop in Hwhy as [Hd|Hs]; [by left|right].
        apply Nat.leb_le in Hs. rewrite <- Hrange, charCount_snoc. lia.
    + eapply IH in Hrun; [exact Hrun|done|lia|lia| | |done|done|done].
      * rewrite Hrange. unfold lineRange. done.
      * rewrite charCount_snoc. lia.
Qed.

(** The chunks of a text: consecutive line ranges from the first line to
    the last, each chunk holding the lines of its range; every chunk but the
    last was closed at a breakpoint. *)
Lemma chunkCode_structure f code chunkSize :
  let all := Str.split code in
  let cs := chunkCode f code chunkSize in
  cs ≠ [] ∧ tiles 0 cs (length all)
  ∧ Forall (chunkOf f all) cs
  ∧ Forall (closedAtBreak chunkSize all) (removelast cs).
Proof.
  intros all cs. subst cs. unfold chunkCode. fold all.
  assert (Hne : 0 < length all).
  { pose proof (splitOn_nonempty Str.newline code). unfold all, Str.split.
    destruct (Str.splitOn Str.newline code); [done|simpl; lia]. }
  destruct (chunkLoop f chunkSize all 0 [] [] 0 0) as [[chunks cur] start] eqn:Hrun.
  eapply (chunkLoop_structure f chunkSize all) in Hrun
    as (Hstart & Hcur & Htiles & Hof & Hclosed);
    [|done|lia|lia|done|done|done|constructor|constructor].
  destruct (0 <? length cur) eqn:Hlen.
  - apply Nat.ltb_lt in Hlen.
    assert (Hs : start < length all).
    { rewrite Hcur, length_drop in Hlen. lia. }
    split_and!.
    + by destruct chunks.
    + replace (length all) with (S (length all - 1)) at 2 by lia.
      apply (tiles_snoc 0 chunks start
               (mkChunk f start (length all - 1) (Str.join cur) None));
        [done|done|simpl; lia].
    + apply Forall_app; split; [done|]. constructor; [|done].
      unfold chunkOf. simpl. split_and!; [done|done|lia|lia|].
      unfold lineRange. rewrite take_ge; [by rewrite Hcur|].
      rewrite length_drop. lia.
    + by rewrite removelast_last.
  - apply Nat.ltb_ge in Hlen.
    assert (start = length all) as ->.
    { rewrite Hcur, length_drop in Hlen. lia. }
    split_and!; [|done|done|by apply Forall_removelast].
    intros ->. simpl in Htiles. lia.
Qed.

Lemma tiles_le a cs b : tiles a cs b → a ≤ b.
Proof.
  revert a. induction cs as [|c cs IH]; intros a H; simpl in H; [lia|].
  destruct H as (_ & H1 & H2). apply IH in H2. lia.
Qed.

Lemma tiles_concat f all a cs b :
  tiles a cs b → Forall (chunkOf f all) cs →
  concat ((λ c, lineRange all (startLine c) (endLine c)) <$> cs)
  = take (b - a) (drop a all).
Proof.
  revert a. induction cs as [|c cs IH]; intros a Ht Hof; simpl in Ht.
  - subst. by rewrite Nat.sub_diag.
  - destruct Ht as (Hs & Hle & Ht). inversion Hof as [|? ? Hc Hcs]; subst.
    csimpl. rewrite (IH _ Ht Hcs). apply tiles_le in Ht.
    unfold lineRange.
    replace (drop (S (endLine c)) all)
      with (drop (S (endLine c) - startLine c) (drop (startLine c) all)).
    + rewrite take_take_drop. f_equal. lia.
    + rewrite drop_drop. f_equal. lia.
Qed.

Lemma lineRange_lines all first last :
  first ≤ last → last < length all →
  Forall (λ l, Str.lacks Str.newline l = true) all →
  lineRange all first last ≠ []
  ∧ Forall (λ l, Str.lacks Str.newline l = true) (lineRange all first last).
Proof.
  intros Hle Hlt Hall. unfold lineRange. split.
  - intros Hnil. apply (f_equal length) in Hnil.
    rewrite length_take, length_drop in Hnil. simpl in Hnil. lia.
  - apply Forall_take, Forall_drop, Hall.
Qed.

(** X1. Joining the contents of the chunks with line breaks gives the text
    back: the chunker loses no line, repeats none and keeps their order. *)
Theorem chunkCode_join_contents (f code : string) (chunkSize : nat) :
  Str.join (content <$> chunkCode f code chunkSize) = code.
Proof.
  destruct (chunkCode_structure f code chunkSize) as (_ & Htiles & Hof & _).
  unfold Str.join. rewrite <- joinWith_concat_splitOn.
  rewrite <- list_fmap_compose.
  replace (concat ((Str.splitOn Str.newline ∘ content) <$> chunkCode f code chunkSize))
    with (Str.split code); [apply joinWith_splitOn|].
  pose proof (tiles_concat f _ _ _ _ Htiles Hof) as Hall.
  rewrite drop_0, take_ge in Hall by lia. rewrite <- Hall at 1.
  f_equal. apply Forall_fmap_ext_1.
  eapply Forall_impl; [exact Hof|]. intros c (_ & _ & Hle & Hlt & Hc). simpl.
  rewrite Hc.
  destruct (lineRange_lines (Str.split code) (startLine c) (endLine c))
    as [Hne Hlacks]; [done|done|apply splitOn_lacks|].
  symmetry. by apply splitOn_joinWith.
Qed.

(** X2. [chunkCode] always returns at least one chunk, and the line ranges of
    the chunks follow one another: the first starts at line 0, each next one
    starts on the line after the end of the one before, and the last ends on
    the last line of the text. *)
Theorem chunkCode_ranges_consecutive (f code : string) (chunkSize : nat) :
  chunkCode f code chunkSize ≠ []
  ∧ tiles 0 (chunkCode f code chunkSize) (length (Str.split code)).
Proof.
  destruct (chunkCode_structure f code chunkSize) as (Hne & Htiles & _).
  by split.
Qed.

(** X3. Every chunk carries the file name it was given, no embedding, and
    as content exactly the lines [startLine], ..., [endLine] of the text,
    joined by line breaks; its range lies within the text. *)
Theorem chunkCode_content_is_range (f code : string) (chunkSize : nat) :
  Forall (λ c, file c = f ∧ embedding c = None
               ∧ startLine c ≤ endLine c < length (Str.split code)
               ∧ content c
                 = Str.join (lineRange (Str.split code) (startLine c) (endLine c))
               ∧ lineCount c = S (endLine c) - startLine c)
    (chunkCode f code chunkSize).
Proof.
  destruct (chunkCode_structure f code chunkSize) as (_ & _ & Hof & _).
  eapply Forall_impl; [exact Hof|].
  intros c (Hf & He & Hle & Hlt & Hc). split_and!; try done.
  destruct (lineRange_lines (Str.split code) (startLine c) (endLine c))
    as [Hne Hlacks]; [done|done|apply splitOn_lacks|].
  unfold lineCount. rewrite Hc. unfold Str.split, Str.join in *.
  rewrite splitOn_joinWith by done.
  unfold lineRange. rewrite length_take, length_drop. lia.
Qed.

(** X4. A chunk other than the last ends where the loop met a breakpoint:
    its last line matches the declaration pattern, or its lines hold at
    least [chunkSize] characters (line breaks not counted).  A declaration
    line therefore closes the chunk it is in; it does not open the next. *)
Theorem chunkCode_closed_at_breakpoint (f code : string) (chunkSize : nat) :
  Forall (λ c, ∃ lastLine,
            Str.split code !! endLine c = Some lastLine
            ∧ (matchesDeclaration lastLine = true
               ∨ chunkSize
                 ≤ charCount (lineRange (Str.split code) (startLine c) (endLine c))))
    (removelast (chunkCode f code chunkSize)).
Proof.
  destruct (chunkCode_structure f code chunkSize) as (_ & _ & _ & Hclosed).
  eapply Forall_impl; [exact Hclosed|]. by intros c [_ H].
Qed.

(** X5. A text of at most six lines is never split: [chunkCode] returns one
    chunk that holds the whole text. *)
Theorem chunkCode_short_text (f code : string) (chunkSize : nat) :
  length (Str.split code) ≤ 6 →
  chunkCode f code chunkSize
  = [mkChunk f 0 (length (Str.split code) - 1) code None].
Proof.
  intros Hshort.
  destruct (chunkCode_structure f code chunkSize) as (Hne & Htiles & Hof & Hclosed).
  destruct (chunkCode f code chunkSize) as [|c [|c' rest]]; [done| |].
  - simpl in Htiles. destruct Htiles as (Hs & _ & He).
    inversion Hof as [|? ? (Hf & Hemb & _ & _ & Hc) _]; subst.
    destruct c as [cf cs ce cc cemb]. simpl in *. subst.
    f_equal. f_equal; [lia|].
    unfold lineRange. rewrite drop_0, take_ge by lia. apply joinWith_splitOn.
  - exfalso. simpl in Htiles. destruct Htiles as (Hs & _ & Hs' & Hle' & _).
    inversion Hclosed as [|? ? [Hmany _] _]; subst.
    inversion Hof as [|? ? _ Hof']; subst.
    inversion Hof' as [|? ? (_ & _ & _ & Hlt & _) _]; subst. lia.
Qed.

Lemma chunkCode_short_text_witness :
  length (Str.split ("const a = 1;" +:+ nl +:+ "const b = 2;")) ≤ 6
  ∧ chunkCode "a.ts" ("const a = 1;" +:+ nl +:+ "const b = 2;") 1000
    = [mkChunk "a.ts" 0
         (length (Str.split ("const a = 1;" +:+ nl +:+ "const b = 2;")) - 1)
         ("const a = 1;" +:+ nl +:+ "const b = 2;") None].
Proof.
  assert (H : length (Str.split ("const a = 1;" +:+ nl +:+ "const b = 2;")) ≤ 6)
    by (vm_compute; lia).
  split; [exact H|].
  exact (chunkCode_short_text "a.ts" ("const a = 1;" +:+ nl +:+ "const b = 2;") 1000 H).
Defined.

(** ** Loops that only read *)

(** A loop whose body leaves the world as it is fails as soon as one of its
    elements makes the body fail. *)
Lemma forEach_fails {A S} (xs : list A) (body : S → A → M S) (s : S) (w : World)
    (x : A) :
  (∀ s y w0 s' w', body s y w0 = Some (s', w') → w' = w0) →
  x ∈ xs → (∀ s', body s' x w = None) →
  forEach xs body s w = None.
Proof.
  intros Hreads Hx Hfail. revert s.
  induction xs as [|y xs IH]; intros s; [by apply elem_of_nil in Hx|].
  simpl. unfold bind. destruct (body s y w) as [[s' w']|] eqn:Hy; [|done].
  apply Hreads in Hy as Hw. subst w'.
  apply elem_of_cons in Hx as [->|Hx]; [by rewrite Hfail in Hy|by apply IH].
Qed.

Lemma readFile_None p w :
  (∀ code, fs w !! p ≠ Some (TextFile code)) → readFile p w = None.
Proof.
  intros H. unfold readFile. destruct (fs w !! p) as [[text|]|] eqn:E; try done.
  by destruct (H text).
Qed.

(** ** The semantic index: embedding, indexing, searching *)

Section Index.

Variable embeddingsCreate : nat → list string → option (list (list PrimFloat.float)).
Variable embedText : string → list PrimFloat.float.
Variable glob : string → M (list string).

Lemma zip_with_embedding (batch : list CodeChunk) :
  zip_with (λ c e, mkChunk (file c) (startLine c) (endLine c) (content c) (Some e))
    batch (embedText <$> (content <$> batch))
  = withEmbedding embedText <$> batch.
Proof. induction batch as [|c batch IH]; csimpl; [done|]. by rewrite IH. Qed.

Lemma embedBatches_result fuel :
  (∀ n texts, embeddingsCreate n texts = Some (embedText <$> texts)) →
  ∀ rest embedded w,
    length rest ≤ fuel →
    embedBatches embeddingsCreate fuel rest embedded w
    = Some (embedded ++ (withEmbedding embedText <$> rest),
            mkWorld (fs w) (embedCalls w + (length rest + 99) / 100)).
Proof.
  intros Hanswers.
  induction fuel as [|fuel IH]; intros rest embedded w Hfuel.
  - destruct rest; [|simpl in Hfuel; lia]. simpl. unfold ret.
    rewrite app_nil_r. destruct w. simpl. by rewrite Nat.add_0_r.
  - destruct rest as [|c rest].
    + simpl. unfold ret. rewrite app_nil_r. destruct w. simpl.
      by rewrite Nat.add_0_r.
    + cbn [embedBatches]. unfold bind, createEmbeddings. rewrite Hanswers.
      rewrite !length_fmap, Nat.ltb_irrefl.
      rewrite IH.
      * rewrite zip_with_embedding. cbn [fs embedCalls].
        rewrite <- app_assoc, <- fmap_app, take_drop.
        do 3 f_equal. rewrite length_drop. unfold batchSize.
        assert (1 ≤ length (c :: rest)) by (simpl; lia).
        generalize dependent (length (c :: rest)). intros L _ HL.
        generalize (embedCalls w). intros k.
        destruct (decide (L < 100)).
        { replace ((L - 100 + 99) / 100) with 0
            by (symmetry; apply Nat.div_small; lia).
          replace ((L + 99) / 100) with 1; [lia|].
          apply (Nat.div_unique _ _ _ (L - 1)); lia. }
        replace (L + 99) with ((L - 100 + 99) + 1 * 100) by lia.
        rewrite Nat.div_add by lia. lia.
      * rewrite length_drop. unfold batchSize. simpl in *. lia.
Qed.

(** X6. When the provider answers every request with one vector per text,
    the vector of a text depending on the text only, [embedChunks] returns
    the chunks in their order, each with the embedding of its content
    attached and nothing else changed, and calls the provider once per batch
    of 100 chunks: [ceil(n / 100)] calls for [n] chunks, none for an empty
    list. *)
Theorem embedChunks_batches (cs : list CodeChunk) (w : World) :
  (∀ n texts, embeddingsCreate n texts = Some (embedText <$> texts)) →
  embedChunks embeddingsCreate cs w
  = Some (withEmbedding embedText <$> cs,
          mkWorld (fs w) (embedCalls w + (length cs + 99) / 100)).
Proof. intros Hanswers. unfold embedChunks. by rewrite embedBatches_result. Qed.

Lemma collectChunks projectRoot w fileNames codes :
  Forall2 (λ f code, fs w !! NodePath.join projectRoot f = Some (TextFile code))
    fileNames codes →
  ∀ allChunks,
    forEach fileNames
      (λ allChunks fileName,
         let* code := readFile (NodePath.join projectRoot fileName) in
         ret (allChunks ++ chunkCode fileName code defaultChunkSize))
      allChunks w
    = Some (allChunks
            ++ concat (zip_with (λ f code, chunkCode f code defaultChunkSize)
                         fileNames codes), w).
Proof.
  induction 1 as [|f code fileNames codes Hf _ IH]; intros allChunks.
  - simpl. unfold ret. by rewrite app_nil_r.
  - cbn [forEach zip_with concat]. unfold bind at 1 2.
    rewrite (proj2 (readFile_Some _ _ _ _) (conj Hf eq_refl)).
    unfold ret at 1. rewrite IH. by rewrite <- app_assoc.
Qed.

(** X7. When [glob] lists files that can all be read and the provider
    answers every request with one vector per text, [index] leaves an index
    that holds the chunks of each file, in the order of the listing, each
    with the embedding of its content; what the index held before is
    dropped.  The provider is called once per batch of 100 chunks. *)
Theorem CodeIndex_index_chunks (self : CodeIndex) (projectRoot : string)
    (w w1 : World) (fileNames codes : list string) :
  (∀ n texts, embeddingsCreate n texts = Some (embedText <$> texts)) →
  glob projectRoot w = Some (fileNames, w1) →
  Forall2 (λ f code, fs w1 !! NodePath.join projectRoot f = Some (TextFile code))
    fileNames codes →
  let allChunks :=
    concat (zip_with (λ f code, chunkCode f code defaultChunkSize) fileNames codes) in
  CodeIndex_index embeddingsCreate glob self projectRoot w
  = Some (mkIndex (withEmbedding embedText <$> allChunks),
          mkWorld (fs w1) (embedCalls w1 + (length allChunks + 99) / 100)).
Proof.
  intros Hanswers Hglob Hread allChunks. unfold CodeIndex_index.
  rewrite (bind_Some _ _ _ _ _ Hglob).
  rewrite (bind_Some _ _ _ _ _ (collectChunks projectRoot w1 fileNames codes Hread [])).
  simpl app. fold allChunks.
  unfold bind, embedChunks; rewrite embedBatches_result by done.
  done.
Qed.

End Index.

Lemma embedChunks_batches_witness :
  (∀ n texts, sampleEmbed n texts = Some (sampleVector <$> texts))
  ∧ embedChunks sampleEmbed [tiedLater; tiedEarlier] sampleWorld
    = Some (withEmbedding sampleVector <$> [tiedLater; tiedEarlier],
            mkWorld (fs sampleWorld)
              (embedCalls sampleWorld + (length [tiedLater; tiedEarlier] + 99) / 100)).
Proof.
  assert (H : ∀ n texts, sampleEmbed n texts = Some (sampleVector <$> texts))
    by reflexivity.
  split; [exact H|].
  exact (embedChunks_batches sampleEmbed sampleVector [tiedLater; tiedEarlier]
           sampleWorld H).
Defined.

Lemma CodeIndex_index_chunks_witness :
  (∀ n texts, sampleEmbed n texts = Some (sampleVector <$> texts))
  ∧ sampleGlob "/proj" sampleWorld = Some (["src/auth.ts"], sampleWorld)
  ∧ Forall2 (λ f code, fs sampleWorld !! NodePath.join "/proj" f = Some (TextFile code))
      ["src/auth.ts"] ["login(process.argv[2]);"]
  ∧ let allChunks :=
      concat (zip_with (λ f code, chunkCode f code defaultChunkSize)
                ["src/auth.ts"] ["login(process.argv[2]);"]) in
    CodeIndex_index sampleEmbed sampleGlob (mkIndex [tiedLater]) "/proj" sampleWorld
    = Some (mkIndex (withEmbedding sampleVector <$> allChunks),
            mkWorld (fs sampleWorld)
              (embedCalls sampleWorld + (length allChunks + 99) / 100)).
Proof.
  assert (H0 : ∀ n texts, sampleEmbed n texts = Some (sampleVector <$> texts))
    by reflexivity.
  assert (H1 : sampleGlob "/proj" sampleWorld = Some (["src/auth.ts"], sampleWorld))
    by reflexivity.
  assert (H2 : Forall2 (λ f code, fs sampleWorld !! NodePath.join "/proj" f
                                  = Some (TextFile code))
                 ["src/auth.ts"] ["login(process.argv[2]);"]).
  { constructor; [vm_compute; reflexivity|constructor]. }
  split; [exact H0|]. split; [exact H1|]. split; [exact H2|].
  exact (CodeIndex_index_chunks sampleEmbed sampleVector sampleGlob (mkIndex [tiedLater])
           "/proj" sampleWorld sampleWorld ["src/auth.ts"] ["login(process.argv[2]);"]
           H0 H1 H2).
Defined.

Section Searching.

Variable embeddingsCreate : nat → list string → option (list (list PrimFloat.float)).
Variable glob : string → M (list string).

(** X8. [index] rejects as soon as one listed file cannot be read (it is
    missing, or is not a text file), whatever the other files hold. *)
Theorem CodeIndex_index_unreadable (self : CodeIndex) (projectRoot : string)
    (w w1 : World) (fileNames : list string) (f : string) :
  glob projectRoot w = Some (fileNames, w1) →
  f ∈ fileNames →
  (∀ code, fs w1 !! NodePath.join projectRoot f ≠ Some (TextFile code)) →
  CodeIndex_index embeddingsCreate glob self projectRoot w = None.
Proof.
  intros Hglob Hf Hmissing. unfold CodeIndex_index.
  rewrite (bind_Some _ _ _ _ _ Hglob). unfold bind at 1.
  rewrite (forEach_fails fileNames _ [] w1 f); [done| |done|].
  - intros s y w0 s' w'. unfold bind, ret.
    destruct (readFile _ w0) as [[code w2]|] eqn:Hr; [|done].
    apply readFile_Some in Hr as [_ ->]. by intros [= _ ->].
  - intros s'. unfold bind. by rewrite readFile_None.
Qed.

Lemma scored_with_embeddings (q : list PrimFloat.float) (cs : list CodeChunk) :
  Forall (λ c, is_Some (embedding c)) cs →
  ∃ scored,
    mapM (λ chunk, score ← chunkSimilarity q chunk; Some (chunk, score)) cs
    = Some scored
    ∧ fst <$> scored = cs.
Proof.
  induction 1 as [|c cs [e He] _ (scored & Hs & Hfst)].
  - by exists [].
  - exists ((c, cosineSimilarity q e) :: scored). split; [|by csimpl; rewrite Hfst].
    cbn [mapM]. rewrite Hs. unfold chunkSimilarity. by rewrite He.
Qed.

(** X9. When the provider answers the request for the query with at least
    one vector and every chunk has an embedding, [searchCode] returns (it
    does not throw): it calls the provider once, for the query, and returns
    [min(topK, n)] chunks, all taken from the chunk list, none more often
    than it occurs there.  This holds whatever the similarities are, [NaN]
    included. *)
Theorem searchCode_returns (query : string) (cs : list CodeChunk) (topK : nat)
    (w : World) (q : list PrimFloat.float) (more : list (list PrimFloat.float)) :
  embeddingsCreate (embedCalls w) [query] = Some (q :: more) →
  Forall (λ c, is_Some (embedding c)) cs →
  ∃ found,
    searchCode embeddingsCreate query cs topK w
    = Some (found, mkWorld (fs w) (S (embedCalls w)))
    ∧ length found = min topK (length cs)
    ∧ found ⊆+ cs.
Proof.
  intros Hanswer Hemb.
  destruct (scored_with_embeddings q cs Hemb) as (scored & Hs & Hfst).
  exists (fst <$> take topK (jsSort byScoreDescending scored)). split_and!.
  - unfold searchCode, bind. rewrite (createEmbeddings_answer _ _ _ _ Hanswer).
    by rewrite Hs.
  - rewrite length_fmap, length_take,
      (Permutation_length (jsSort_Permutation byScoreDescending scored)).
    by rewrite <- Hfst, length_fmap.
  - rewrite <- Hfst. apply fmap_submseteq.
    etrans; [apply submseteq_take|]. by rewrite jsSort_Permutation.
Qed.

(** X10. [searchCode] throws exactly when the provider rejects the request
    for the query, or answers it with no vector, or some chunk has no
    embedding while the embedding of the query is not empty (reading
    component 0 of a missing embedding throws). *)
Theorem searchCode_throws (query : string) (cs : list CodeChunk) (topK : nat)
    (w : World) :
  searchCode embeddingsCreate query cs topK w = None
  ↔ embeddingsCreate (embedCalls w) [query] = None
    ∨ embeddingsCreate (embedCalls w) [query] = Some []
    ∨ ∃ q more, embeddingsCreate (embedCalls w) [query] = Some (q :: more)
                ∧ q ≠ [] ∧ Exists (λ c, embedding c = None) cs.
Proof.
  unfold searchCode, bind, createEmbeddings.
  destruct (embeddingsCreate (embedCalls w) [query]) as [[|q more]|] eqn:Hanswer.
  - split; [by right; left|done].
  - destruct (mapM _ cs) as [scored|] eqn:Hs.
    + split; [done|]. intros [H|[H|(q' & more' & [= <- <-] & Hq & Hex)]]; [done..|].
      exfalso.
      apply mapM_Some_1 in Hs. apply Exists_exists in Hex as (c & Hc & Hnone).
      apply list_elem_of_lookup in Hc as [i Hi].
      destruct (Forall2_lookup_l _ _ _ _ _ Hs Hi) as (p & _ & Hp).
      unfold chunkSimilarity in Hp. rewrite Hnone in Hp. by destruct q.
    + split; [intros _|done]. right; right. exists q, more.
      assert (Hnot : ¬ Forall (λ c, is_Some (chunkSimilarity q c)) cs).
      { intros Hall.
        assert (is_Some (mapM (λ chunk, score ← chunkSimilarity q chunk;
                                         Some (chunk, score)) cs)) as [? H].
        { apply mapM_is_Some. eapply Forall_impl; [exact Hall|].
          intros c [s Hc]. simpl. rewrite Hc. by eexists. }
        by rewrite Hs in H. }
      apply not_Forall_Exists in Hnot; [|intros c; apply _].
      apply Exists_exists in Hnot as (c & Hc & Hnone).
      unfold compose, chunkSimilarity in Hnone.
      destruct (embedding c) eqn:He; [destruct Hnone; by eexists|].
      destruct q; [destruct Hnone; by eexists|].
      split_and!; [done|done|]. apply Exists_exists. eauto.
  - split; [by left|done].
Qed.

End Searching.

Lemma searchCode_returns_witness :
  sampleEmbed (embedCalls sampleWorld) ["query"]
  = Some ([PrimFloat.one; PrimFloat.zero] :: [])
  ∧ Forall (λ c, is_Some (embedding c)) [tiedLater; tiedEarlier]
  ∧ ∃ found,
      searchCode sampleEmbed "query" [tiedLater; tiedEarlier] 1 sampleWorld
      = Some (found, mkWorld (fs sampleWorld) (S (embedCalls sampleWorld)))
      ∧ length found = min 1 (length [tiedLater; tiedEarlier])
      ∧ found ⊆+ [tiedLater; tiedEarlier].
Proof.
  assert (H0 : sampleEmbed (embedCalls sampleWorld) ["query"]
               = Some ([PrimFloat.one; PrimFloat.zero] :: [])) by reflexivity.
  assert (H : Forall (λ c, is_Some (embedding c)) [tiedLater; tiedEarlier]).
  { repeat constructor; by eexists. }
  split; [exact H0|]. split; [exact H|].
  exact (searchCode_returns sampleEmbed "query" [tiedLater; tiedEarlier] 1 sampleWorld
           [PrimFloat.one; PrimFloat.zero] [] H0 H).
Defined.

Lemma CodeIndex_index_unreadable_witness :
  sampleGlob "/proj" (mkWorld ∅ 0) = Some (["src/auth.ts"], mkWorld ∅ 0)
  ∧ "src/auth.ts" ∈ ["src/auth.ts"]
  ∧ (∀ code, fs (mkWorld ∅ 0) !! NodePath.join "/proj" "src/auth.ts"
             ≠ Some (TextFile code))
  ∧ CodeIndex_index sampleEmbed sampleGlob (mkIndex []) "/proj" (mkWorld ∅ 0) = None.
Proof.
  assert (H1 : sampleGlob "/proj" (mkWorld ∅ 0) = Some (["src/auth.ts"], mkWorld ∅ 0))
    by reflexivity.
  assert (H2 : "src/auth.ts" ∈ ["src/auth.ts"]) by (by left).
  assert (H3 : ∀ code, fs (mkWorld ∅ 0) !! NodePath.join "/proj" "src/auth.ts"
                       ≠ Some (TextFile code)) by (intros code; by vm_compute).
  split; [exact H1|]. split; [exact H2|]. split; [exact H3|].
  exact (CodeIndex_index_unreadable sampleEmbed sampleGlob (mkIndex []) "/proj"
           (mkWorld ∅ 0) (mkWorld ∅ 0) ["src/auth.ts"] "src/auth.ts" H1 H2 H3).
Defined.

(** ** The similarity measure *)

Lemma dotProductFrom_comm a :
  ∀ b sum, dotProductFrom sum a b = dotProductFrom sum b a.
Proof.
  induction a as [|x a IH]; intros [|y b] sum; simpl; try done.
  by rewrite IH, Double_mul_comm.
Qed.

(** X12. The measure is symmetric on vectors of equal length. *)
Theorem cosineSimilarity_symmetric (a b : list PrimFloat.float) :
  length a = length b → cosineSimilarity a b = cosineSimilarity b a.
Proof.
  intros Hlen.
  rewrite (cosineSimilarity_value a b Hlen), (cosineSimilarity_value b a (eq_sym Hlen)).
  unfold dotProduct. by rewrite dotProductFrom_comm, (Double_mul_comm (magnitude a)).
Qed.

Lemma cosineSimilarity_symmetric_witness :
  length [PrimFloat.one; PrimFloat.zero] = length [PrimFloat.one; PrimFloat.one]
  ∧ cosineSimilarity [PrimFloat.one; PrimFloat.zero] [PrimFloat.one; PrimFloat.one]
    = cosineSimilarity [PrimFloat.one; PrimFloat.one] [PrimFloat.one; PrimFloat.zero].
Proof.
  split; [reflexivity|].
  exact (cosineSimilarity_symmetric [PrimFloat.one; PrimFloat.zero]
           [PrimFloat.one; PrimFloat.one] eq_refl).
Defined.

Lemma cosineLoop_NaN b a :
  ∀ i normA normB, ∃ normA' normB',
    cosineLoop a b i (PrimFloat.nan, normA, normB) = (PrimFloat.nan, normA', normB').
Proof.
  induction a as [|x a IH]; intros i normA normB; [by eexists _, _|].
  cbn [cosineLoop]. rewrite Double_add_nan_l. apply IH.
Qed.

Lemma cosineLoop_short b a :
  ∀ i acc, i ≤ length b → length b < i + length a →
    ∃ normA normB, cosineLoop a b i acc = (PrimFloat.nan, normA, normB).
Proof.
  induction a as [|x a IH]; intros i [[dot normA] normB] Hi Hlen; simpl in Hlen.
  - lia.
  - cbn [cosineLoop]. unfold component.
    destruct (b !! i) as [y|] eqn:Hy.
    + apply lookup_lt_Some in Hy. apply IH; lia.
    + cbn [default]. rewrite Double_mul_nan_r, Double_add_nan_r.
      apply cosineLoop_NaN.
Qed.

(** X13. When the second vector is shorter than the first, the similarity is
    [NaN]: the loop runs over the first vector and reads the missing
    components of the second as [undefined]. *)
Theorem cosineSimilarity_shorter_second (a b : list PrimFloat.float) :
  length b < length a → cosineSimilarity a b = PrimFloat.nan.
Proof.
  intros Hlen. unfold cosineSimilarity.
  destruct (cosineLoop_short b a 0 (PrimFloat.zero, PrimFloat.zero, PrimFloat.zero))
    as (nA & nB & ->); [lia|lia|].
  apply Double_div_nan_l.
Qed.

Lemma cosineSimilarity_shorter_second_witness :
  length [PrimFloat.one] < length [PrimFloat.one; PrimFloat.zero]
  ∧ cosineSimilarity [PrimFloat.one; PrimFloat.zero] [PrimFloat.one] = PrimFloat.nan.
Proof.
  assert (H : length [PrimFloat.one] < length [PrimFloat.one; PrimFloat.zero])
    by (simpl; lia).
  split; [exact H|].
  exact (cosineSimilarity_shorter_second [PrimFloat.one; PrimFloat.zero]
           [PrimFloat.one] H).
Defined.

Lemma cosineLoop_ignores_rest b extra a :
  ∀ i acc, i + length a ≤ length b →
    cosineLoop a (b ++ extra) i acc = cosineLoop a b i acc.
Proof.
  induction a as [|x a IH]; intros i [[dot normA] normB] Hlen; [done|].
  simpl in Hlen. cbn [cosineLoop]. unfold component.
  rewrite lookup_app_l by lia. apply IH. lia.
Qed.

(** X14. Components of the second vector beyond the length of the first are
    never read: a longer second vector gives the similarity of its
    truncation, and no error. *)
Theorem cosineSimilarity_longer_second (a b extra : list PrimFloat.float) :
  length a ≤ length b →
  cosineSimilarity a (b ++ extra) = cosineSimilarity a b.
Proof.
  intros Hlen. unfold cosineSimilarity.
  by rewrite cosineLoop_ignores_rest by (simpl; lia).
Qed.

Lemma cosineSimilarity_longer_second_witness :
  length [PrimFloat.one; PrimFloat.zero] ≤ length [PrimFloat.one; PrimFloat.one]
  ∧ cosineSimilarity [PrimFloat.one; PrimFloat.zero]
      ([PrimFloat.one; PrimFloat.one] ++ [PrimFloat.infinity])
    = cosineSimilarity [PrimFloat.one; PrimFloat.zero] [PrimFloat.one; PrimFloat.one].
Proof.
  assert (H : length [PrimFloat.one; PrimFloat.zero]
              ≤ length [PrimFloat.one; PrimFloat.one]) by (simpl; lia).
  split; [exact H|].
  exact (cosineSimilarity_longer_second [PrimFloat.one; PrimFloat.zero]
           [PrimFloat.one; PrimFloat.one] [PrimFloat.infinity] H).
Defined.

(** ** Sorting with a comparator that compares a key *)

Section SortByKey.

Context {A : Type}.
Variable compareFn : A → A → number.
Variable key : A → R.

Lemma sortInsert_perm (x : A) sorted :
  sortInsert compareFn x sorted ≡ₚ x :: sorted.
Proof.
  apply sortInsert_Permutation.
Qed.

Lemma jsSort_perm (items : list A) : jsSort compareFn items ≡ₚ items.
Proof.
  apply jsSort_Permutation.
Qed.

Lemma sortInsert_by_key (x : A) sorted :
  (∀ x y, Number.isPositive (compareFn x y) = true ↔ (key x < key y)%R) →
  StronglySorted (λ p q, (key q <= key p)%R) sorted →
  StronglySorted (λ p q, (key q <= key p)%R) (sortInsert compareFn x sorted).
Proof.
  intros Hkey Hsorted. induction sorted as [|y rest IH]; simpl.
  - repeat constructor.
  - inversion Hsorted as [|? ? Hs Hle]; subst.
    destruct (isPositive (compareFn x y)) eqn:Hcmp;
      unfold isPositive, number_signed in Hcmp.
    + apply Hkey in Hcmp. constructor; [by apply IH|].
      rewrite sortInsert_perm. constructor; [lra|done].
    + assert (Hge : (key y <= key x)%R).
      { destruct (Rle_dec (key y) (key x)) as [|Hn]; [done|].
        assert (Hlt : (key x < key y)%R) by lra.
        apply Hkey in Hlt. congruence. }
      constructor; [done|]. constructor; [done|].
      eapply Forall_impl; [exact Hle|]. simpl. intros z Hz. lra.
Qed.

Lemma jsSort_by_key (items : list A) :
  (∀ x y, Number.isPositive (compareFn x y) = true ↔ (key x < key y)%R) →
  StronglySorted (λ p q, (key q <= key p)%R) (jsSort compareFn items).
Proof.
  intros Hkey. induction items as [|x rest IH]; simpl; [constructor|].
  by apply sortInsert_by_key.
Qed.

Lemma sortInsert_keeps_ties (x : A) sorted (r : R) :
  (∀ x y, Number.isPositive (compareFn x y) = true ↔ (key x < key y)%R) →
  filter (λ p, key p = r) (sortInsert compareFn x sorted)
  = filter (λ p, key p = r) (x :: sorted).
Proof.
  intros Hkey. induction sorted as [|y rest IH]; simpl; [done|].
  destruct (isPositive (compareFn x y)) eqn:Hcmp; [|done].
  unfold isPositive, number_signed in Hcmp. apply Hkey in Hcmp.
  rewrite filter_cons, IH, !filter_cons.
  destruct (decide (key y = r)), (decide (key x = r)); try done.
  lra.
Qed.

Lemma jsSort_keeps_ties (items : list A) (r : R) :
  (∀ x y, Number.isPositive (compareFn x y) = true ↔ (key x < key y)%R) →
  filter (λ p, key p = r) (jsSort compareFn items) = filter (λ p, key p = r) items.
Proof.
  intros Hkey. induction items as [|x rest IH]; simpl; [done|].
  rewrite sortInsert_keeps_ties by done. by rewrite !filter_cons, IH.
Qed.

End SortByKey.

Lemma StronglySorted_weaken {A} (R1 R2 : relation A) (l : list A) :
  (∀ x y, R1 x y → R2 x y) → StronglySorted R1 l → StronglySorted R2 l.
Proof.
  intros Himp. induction 1 as [|x l _ IH Hall]; constructor; [done|].
  eapply Forall_impl; [exact Hall|]. intros y. apply Himp.
Qed.

(** ** Picking the files *)

Lemma isPositive_sub_Num (x y : R) :
  Number.isPositive (Number.sub (Num y) (Num x)) = true ↔ (x < y)%R.
Proof.
  unfold Number.sub, Number.neg, Number.add, Number.isPositive.
  destruct (Rlt_dec 0 (y + - x)); split; intros; try done; lra.
Qed.

Lemma byEntryDescending_key (x y : string * Q) :
  Number.isPositive (byEntryDescending x y) = true ↔ (Q2R (snd x) < Q2R (snd y))%R.
Proof. apply isPositive_sub_Num. Qed.

(** X15. [getTopFiles] returns the first [n] file names of the entries sorted
    by score, highest first: [min(n, size)] names.  The sort is stable, so
    entries of equal score stay in the order of the map. *)
Theorem getTopFiles_ranked (scores : list (string * Q)) (n : nat) :
  ∃ ranked,
    getTopFiles scores n = fst <$> take n ranked
    ∧ length (getTopFiles scores n) = min n (length scores)
    ∧ ranked ≡ₚ scores
    ∧ StronglySorted (λ p q, (snd q <= snd p)%Q) ranked
    ∧ ∀ v, filter (λ p, Qeq_bool (snd p) v = true) ranked
           = filter (λ p, Qeq_bool (snd p) v = true) scores.
Proof.
  exists (jsSort byEntryDescending scores). split_and!.
  - done.
  - unfold getTopFiles.
    by rewrite length_fmap, length_take, (Permutation_length (jsSort_perm _ scores)).
  - apply jsSort_perm.
  - eapply StronglySorted_weaken; [|apply (jsSort_by_key _ (λ p, Q2R (snd p)))].
    + intros p q H. by apply Qreals.Rle_Qle.
    + apply byEntryDescending_key.
  - intros v.
    rewrite (list_filter_iff _ (λ p, Q2R (snd p) = Q2R v)).
    + rewrite (list_filter_iff (λ p, Qeq_bool (snd p) v = true) (λ p, Q2R (snd p) = Q2R v)).
      * apply jsSort_keeps_ties, byEntryDescending_key.
      * intros p. rewrite Qeq_bool_iff. split; [apply Qreals.Qeq_eqR|apply Qreals.eqR_Qeq].
    + intros p. rewrite Qeq_bool_iff. split; [apply Qreals.Qeq_eqR|apply Qreals.eqR_Qeq].
Qed.

Lemma allChars_impl (P Q : Ascii.ascii → bool) s :
  (∀ c, P c = true → Q c = true) → allChars P s = true → allChars Q s = true.
Proof.
  intros Himp. induction s as [|c s IH]; simpl; [done|].
  intros [Hc Hs]%andb_prop. by rewrite (Himp c Hc), IH.
Qed.

Lemma blankOthers_chars s :
  allChars (λ c, isLowerAlnum c || Ascii.eqb c space) (blankOthers s) = true.
Proof.
  induction s as [|c s IH]; simpl; [done|]. rewrite IH, andb_true_r.
  destruct (isLowerAlnum c) eqn:E; [by rewrite E|]. by rewrite Ascii.eqb_refl, orb_true_r.
Qed.

Lemma splitRuns_chars (P : Ascii.ascii → bool) s :
  allChars P s = true →
  ∀ inRun, Forall (λ piece,
             allChars (λ c, P c && negb (ImportRegex.isWhitespace c)) piece = true)
             (splitRuns inRun s).
Proof.
  induction s as [|c s IH]; simpl; intros Hs inRun.
  - by constructor.
  - apply andb_prop in Hs as [Hc Hs].
    destruct (ImportRegex.isWhitespace c) eqn:Hw.
    + destruct inRun; [by apply IH|]. constructor; [done|by apply IH].
    + specialize (IH Hs false). destruct (splitRuns false s) as [|piece pieces].
      * repeat constructor. simpl. by rewrite Hc, Hw.
      * inversion IH; subst. constructor; [|done]. simpl. by rewrite Hc, Hw.
Qed.

(** X16. Every keyword that [extractKeywords] returns has more than three
    characters, all of them lower-case letters or digits: no empty piece,
    no upper case and no punctuation ever reaches the comparison of
    keywords. *)
Theorem extractKeywords_words (text : string) :
  Forall (λ w, 3 < String.length w ∧ allChars isLowerAlnum w = true)
    (extractKeywords text).
Proof.
  unfold extractKeywords. apply Forall_forall. intros w Hw.
  apply list_elem_of_filter in Hw as [Hlen Hw]. split; [done|].
  pose proof (splitRuns_chars _ _ (blankOthers_chars (toLowerCase text)) false) as Hall.
  rewrite Forall_forall in Hall. specialize (Hall w Hw).
  eapply allChars_impl; [|exact Hall].
  intros c [Hc Hs]%andb_prop. apply orb_prop in Hc as [Hc|Hc]; [done|].
  apply Ascii.eqb_eq in Hc as ->. done.
Qed.

(** ** Selection within the token budget *)

Lemma fileTokens_read projectRoot w f code :
  fs w !! NodePath.join projectRoot f = Some (TextFile code) →
  fileTokens projectRoot w f = estimateTokens code.
Proof. intros H. unfold fileTokens. by rewrite H. Qed.

Lemma takeIfFits_loop projectRoot limit w ranked :
  Forall (readable projectRoot w) ranked →
  ∀ selected total,
    ∃ kept,
      forEach ranked (takeIfFits projectRoot limit) (selected, total) w
      = Some ((selected ++ kept,
               total + sum_list (fileTokens projectRoot w <$> kept)), w)
      ∧ sublist kept ranked
      ∧ (total ≤ limit →
         total + sum_list (fileTokens projectRoot w <$> kept) ≤ limit)
      ∧ ∀ f, f ∈ ranked → f ∉ kept →
          limit < total + sum_list (fileTokens projectRoot w <$> kept)
                  + fileTokens projectRoot w f.
Proof.
  induction 1 as [|f ranked [code Hf] _ IH]; intros selected total.
  - exists []. simpl. unfold ret. rewrite app_nil_r, Nat.add_0_r.
    split_and!; [done|done|done|]. intros f Hf. by apply elem_of_nil in Hf.
  - cbn [forEach]. unfold bind at 1. unfold takeIfFits at 1. unfold bind at 1.
    rewrite (proj2 (readFile_Some _ _ _ _) (conj Hf eq_refl)).
    pose proof (fileTokens_read _ _ _ _ Hf) as Htok.
    destruct (total + estimateTokens code <=? limit) eqn:Hfit; unfold ret at 1.
    + apply Nat.leb_le in Hfit.
      destruct (IH (selected ++ [f]) (total + estimateTokens code))
        as (kept & Hrun & Hsub & Hle & Hskip).
      exists (f :: kept). rewrite Hrun. csimpl. rewrite Htok, <- app_assoc.
      split_and!.
      * do 3 f_equal. lia.
      * by constructor.
      * intros _. specialize (Hle Hfit). lia.
      * intros g Hg Hng. apply not_elem_of_cons in Hng as [Hne Hng].
        apply elem_of_cons in Hg as [->|Hg]; [done|].
        specialize (Hskip g Hg Hng). lia.
    + apply Nat.leb_gt in Hfit.
      destruct (IH selected total) as (kept & Hrun & Hsub & Hle & Hskip).
      exists kept. rewrite Hrun. split_and!; [done|by constructor|done|].
      intros g Hg Hng. apply elem_of_cons in Hg as [->|Hg]; [|by apply Hskip].
      rewrite Htok. lia.
Qed.

(** X17. When the ranked files can be read, [selectWithinBudget] returns a
    selection taken from the 100 best-ranked files, in ranking order, whose
    estimated sizes add up to at most [maxTokens].  A ranked file is left out
    only when it does not fit beside the files selected; smaller files
    ranked after it are still taken. *)
Theorem selectWithinBudget_fits (scores : list (string * Q))
    (projectRoot : string) (limit : nat) (w : World) :
  Forall (readable projectRoot w) (getTopFiles scores 100) →
  ∃ selected,
    selectWithinBudget scores projectRoot limit w = Some (selected, w)
    ∧ sublist selected (getTopFiles scores 100)
    ∧ sum_list (fileTokens projectRoot w <$> selected) ≤ limit
    ∧ ∀ f, f ∈ getTopFiles scores 100 → f ∉ selected →
        limit < sum_list (fileTokens projectRoot w <$> selected)
                + fileTokens projectRoot w f.
Proof.
  intros Hread.
  destruct (takeIfFits_loop projectRoot limit w _ Hread [] 0)
    as (kept & Hrun & Hsub & Hle & Hskip).
  exists kept. unfold selectWithinBudget, bind. rewrite Hrun.
  split_and!; [done|done|apply Hle; lia|done].
Qed.

Lemma selectWithinBudget_fits_witness :
  Forall (readable "/proj" sampleWorld) (getTopFiles [("src/auth.ts", 0.15%Q)] 100)
  ∧ ∃ selected,
      selectWithinBudget [("src/auth.ts", 0.15%Q)] "/proj" 20000 sampleWorld
      = Some (selected, sampleWorld)
      ∧ sublist selected (getTopFiles [("src/auth.ts", 0.15%Q)] 100)
      ∧ sum_list (fileTokens "/proj" sampleWorld <$> selected) ≤ 20000
      ∧ ∀ f, f ∈ getTopFiles [("src/auth.ts", 0.15%Q)] 100 → f ∉ selected →
          20000 < sum_list (fileTokens "/proj" sampleWorld <$> selected)
                  + fileTokens "/proj" sampleWorld f.
Proof.
  assert (H : Forall (readable "/proj" sampleWorld)
                (getTopFiles [("src/auth.ts", 0.15%Q)] 100)).
  { repeat constructor. exists "login(process.argv[2]);". vm_compute. reflexivity. }
  split; [exact H|].
  exact (selectWithinBudget_fits [("src/auth.ts", 0.15%Q)] "/proj" 20000 sampleWorld H).
Defined.

Lemma insertionOrder_fold (xs : list string) :
  ∀ seen : list string,
    NoDup seen →
    let result :=
      fold_left (λ seen x, if bool_decide (x ∈ seen) then seen else seen ++ [x])
        xs seen in
    NoDup result ∧ ∀ x, x ∈ result ↔ x ∈ seen ∨ x ∈ xs.
Proof.
  induction xs as [|y xs IH]; intros seen Hnd; simpl.
  - split; [done|]. intros x. rewrite elem_of_nil. tauto.
  - destruct (bool_decide (y ∈ seen)) eqn:Hy.
    + apply bool_decide_eq_true in Hy.
      destruct (IH seen Hnd) as [H1 H2]. split; [done|].
      intros x. rewrite H2, elem_of_cons. split; [tauto|].
      intros [H|[->|H]]; tauto.
    + apply bool_decide_eq_false in Hy.
      destruct (IH (seen ++ [y])) as [H1 H2].
      { apply NoDup_app. split_and!; [done| |apply NoDup_singleton].
        intros x Hx ->%list_elem_of_singleton. done. }
      split; [done|]. intros x.
      rewrite H2, elem_of_app, list_elem_of_singleton, elem_of_cons. tauto.
Qed.

Lemma insertionOrder_NoDup xs : NoDup (insertionOrder xs).
Proof. apply (insertionOrder_fold xs []). constructor. Qed.

Lemma elem_of_insertionOrder xs x : x ∈ insertionOrder xs ↔ x ∈ xs.
Proof.
  destruct (insertionOrder_fold xs [] (NoDup_nil_2)) as [_ H].
  unfold insertionOrder. rewrite H, elem_of_nil. tauto.
Qed.

Lemma matchKeywords_loop projectRoot keywords w fileNames :
  Forall (readable projectRoot w) fileNames →
  ∀ keywordMatches,
    ∃ found,
      forEach fileNames (matchKeywords projectRoot keywords) keywordMatches w
      = Some (keywordMatches ++ found, w)
      ∧ sublist found fileNames.
Proof.
  induction 1 as [|f fileNames [code Hf] _ IH]; intros keywordMatches.
  - exists []. simpl. unfold ret. by rewrite app_nil_r.
  - cbn [forEach]. unfold bind at 1. unfold matchKeywords at 1. unfold bind at 1.
    rewrite (proj2 (readFile_Some _ _ _ _) (conj Hf eq_refl)).
    destruct (2 <? _); unfold ret at 1.
    + destruct (IH (keywordMatches ++ [f])) as (found & Hrun & Hsub).
      exists (f :: found). rewrite Hrun, <- app_assoc. split; [done|by constructor].
    + destruct (IH keywordMatches) as (found & Hrun & Hsub).
      exists found. rewrite Hrun. split; [done|by constructor].
Qed.

Lemma getTopFiles_keys scores n :
  sublist (getTopFiles scores n) (fst <$> jsSort byEntryDescending scores)
  ∧ fst <$> jsSort byEntryDescending scores ≡ₚ fst <$> scores.
Proof.
  split.
  - unfold getTopFiles. apply fmap_sublist, sublist_take.
  - by rewrite jsSort_perm.
Qed.

Section SelectionProperties.

Variable getProjectFiles : string → M (list string).

(** X18. When the project files can all be read, [selectContextForTask]
    returns (it does not throw) a selection of project files, none twice,
    whose estimated sizes add up to at most the budget [maxTokens] (20000
    when no budget is given); the world is left as [getProjectFiles] left
    it. *)
Theorem selectContextForTask_selection (projectRoot task : string)
    (options : option SelectOptions) (w w1 : World) (fileNames : list string) :
  getProjectFiles projectRoot w = Some (fileNames, w1) →
  Forall (readable projectRoot w1) fileNames →
  ∃ selected,
    selectContextForTask getProjectFiles projectRoot task options w
    = Some (selected, w1)
    ∧ selected ⊆ fileNames
    ∧ NoDup selected
    ∧ sum_list (fileTokens projectRoot w1 <$> selected)
      ≤ default 20000 (options ≫= maxTokens).
Proof.
  intros Hfiles Hread. unfold selectContextForTask.
  rewrite (bind_Some _ _ _ _ _ Hfiles).
  destruct (buildDependencyGraph_invariant projectRoot w1 fileNames)
    with (all := list_to_set (C := gset string) fileNames)
    as (graph & Hgraph & _).
  { intros f Hf. rewrite Forall_forall in Hread.
    destruct (Hread f Hf) as [code Hc]. unfold importsOf. rewrite Hc. by eexists. }
  unfold buildDependencyGraph. rewrite (bind_Some _ _ _ _ _ Hgraph).
  destruct (matchKeywords_loop projectRoot (extractKeywords task) w1 fileNames Hread [])
    as (found & Hfound & Hsub).
  rewrite (bind_Some _ _ _ _ _ Hfound). simpl app.
  set (seeds := insertionOrder _).
  set (scores := rankFiles graph seeds defaultRankOptions).
  assert (Hseeds : ∀ f, f ∈ seeds → f ∈ fileNames).
  { intros f Hf. apply elem_of_insertionOrder, elem_of_app in Hf as [Hf|Hf].
    - by apply list_elem_of_filter in Hf as [_ Hf].
    - by eapply elem_of_sublist. }
  assert (Hkeys : fst <$> rankedEntries fileNames seeds scores
                  = insertionOrder (fileNames ++ seeds)).
  { unfold rankedEntries. rewrite <- list_fmap_compose. apply list_fmap_id. }
  destruct (getTopFiles_keys (rankedEntries fileNames seeds scores) 100)
    as [Htop Hperm].
  rewrite Hkeys in Hperm.
  assert (Hin : ∀ f, f ∈ getTopFiles (rankedEntries fileNames seeds scores) 100 →
                     f ∈ fileNames).
  { intros f Hf. eapply elem_of_sublist in Hf; [|exact Htop].
    rewrite Hperm in Hf. apply elem_of_insertionOrder, elem_of_app in Hf as [Hf|Hf];
      [done|by apply Hseeds]. }
  assert (Hnd : NoDup (getTopFiles (rankedEntries fileNames seeds scores) 100)).
  { eapply sublist_NoDup; [|exact Htop]. rewrite Hperm. apply insertionOrder_NoDup. }
  destruct (takeIfFits_loop projectRoot (default 20000 (options ≫= maxTokens)) w1
              (getTopFiles (rankedEntries fileNames seeds scores) 100)) with
    (selected := @nil string) (total := 0)
    as (kept & Hrun & Hkept & Hle & _).
  { apply Forall_forall. intros f Hf. rewrite Forall_forall in Hread.
    apply Hread. by apply Hin. }
  exists kept. unfold selectWithinBudget, bind. rewrite Hrun. split_and!.
  - done.
  - intros f Hf. apply Hin. by eapply elem_of_sublist.
  - by eapply sublist_NoDup.
  - apply Hle. lia.
Qed.

End SelectionProperties.

Lemma selectContextForTask_selection_witness :
  sampleGlob "/proj" sampleWorld = Some (["src/auth.ts"], sampleWorld)
  ∧ Forall (readable "/proj" sampleWorld) ["src/auth.ts"]
  ∧ ∃ selected,
      selectContextForTask sampleGlob "/proj" sampleTask None sampleWorld
      = Some (selected, sampleWorld)
      ∧ selected ⊆ ["src/auth.ts"]
      ∧ NoDup selected
      ∧ sum_list (fileTokens "/proj" sampleWorld <$> selected)
        ≤ default 20000 (None ≫= maxTokens).
Proof.
  assert (H1 : sampleGlob "/proj" sampleWorld = Some (["src/auth.ts"], sampleWorld))
    by reflexivity.
  assert (H2 : Forall (readable "/proj" sampleWorld) ["src/auth.ts"]).
  { repeat constructor. exists "login(process.argv[2]);". vm_compute. reflexivity. }
  split; [exact H1|]. split; [exact H2|].
  exact (selectContextForTask_selection sampleGlob "/proj" sampleTask None
           sampleWorld sampleWorld ["src/auth.ts"] H1 H2).
Defined.

(** ** The dependency graph, continued *)

(** X19. [buildDependencyGraph] rejects as soon as one listed file cannot be
    read, whatever the other files hold: no partial graph is returned. *)
Theorem buildDependencyGraph_unreadable (projectRoot : string)
    (fileNames : list string) (w : World) (f : string) :
  f ∈ fileNames →
  (∀ code, fs w !! NodePath.join projectRoot f ≠ Some (TextFile code)) →
  buildDependencyGraph projectRoot fileNames w = None.
Proof.
  intros Hf Hmissing. unfold buildDependencyGraph.
  apply (forEach_fails fileNames _ _ w f); [|done|].
  - intros s y w0 s' w'. unfold visitFile, bind, ret.
    destruct (readFile _ w0) as [[code w2]|] eqn:Hr; [|done].
    apply readFile_Some in Hr as [_ ->]. by intros [= _ ->].
  - intros s'. unfold visitFile, bind. by rewrite readFile_None.
Qed.

Lemma buildDependencyGraph_unreadable_witness :
  "b.ts" ∈ ["a.ts"; "b.ts"]
  ∧ (∀ code, fs importWorld !! NodePath.join "/proj" "b.ts" ≠ Some (TextFile code))
  ∧ buildDependencyGraph "/proj" ["a.ts"; "b.ts"] importWorld = None.
Proof.
  assert (H1 : "b.ts" ∈ ["a.ts"; "b.ts"]) by (right; left).
  assert (H2 : ∀ code, fs importWorld !! NodePath.join "/proj" "b.ts"
                       ≠ Some (TextFile code)) by (intros code; by vm_compute).
  split; [exact H1|]. split; [exact H2|].
  exact (buildDependencyGraph_unreadable "/proj" ["a.ts"; "b.ts"] importWorld "b.ts" H1 H2).
Defined.

Lemma buildDependencyGraph_edges_witness :
  (∀ f, f ∈ ["a.ts"] →
     ∃ code, fs importWorld !! NodePath.join "/proj" f = Some (TextFile code))
  ∧ ∃ g,
      buildDependencyGraph "/proj" ["a.ts"] importWorld = Some (g, importWorld)
      ∧ nodes g = list_to_set ["a.ts"]
      ∧ dom (edges g) = nodes g
      ∧ mirrored g
      ∧ (∀ v importers, reverseEdges g !! v = Some importers → importers ⊆ nodes g)
      ∧ (∀ u v, v ∈ default ∅ (edges g !! u)
           ↔ u ∈ ["a.ts"]
             ∧ ∃ code importPath,
                 fs importWorld !! NodePath.join "/proj" u = Some (TextFile code)
                 ∧ importPath ∈ ImportRegex.captures code
                 ∧ Str.startsWith "." importPath = true
                 ∧ resolveImport u importPath = Some v
                 ∧ Str.isEmpty v = false).
Proof.
  assert (H : ∀ f, f ∈ ["a.ts"] →
     ∃ code, fs importWorld !! NodePath.join "/proj" f = Some (TextFile code)).
  { intros f Hf. apply list_elem_of_singleton in Hf as ->.
    exists "import { b } from './b';". vm_compute. reflexivity. }
  split; [exact H|].
  exact (buildDependencyGraph_edges "/proj" ["a.ts"] importWorld H).
Defined.

(** ** The assembler, continued *)

Section Assembler.

Variable embeddingsCreate : nat → list string → option (list (list PrimFloat.float)).
Variable countTokens : string → nat.
Variable truncateToTokens : string → nat → string.
Variable buildRepoMap : string → M RepoMap.
Variable selectContextForTask : string → string → nat → M (list string).

(** X20. Phase 2 of the assembler: when the relevant files can be read, the
    loop appends the sections of a subsequence of them, in order, and adds
    their token counts to the running total.  A file is left out only when
    its section does not fit the total budget; files after it that fit are
    still appended. *)
Theorem appendFiles_skips_only_on_overflow (projectRoot : string)
    (config : ContextConfig) (relevantFiles : list string) (parts : list string)
    (total : nat) (w : World) :
  Forall (readable projectRoot w) relevantFiles →
  ∃ kept,
    appendFiles countTokens projectRoot config relevantFiles (parts, total) w
    = Some ((parts ++ (sectionOf projectRoot w <$> kept),
             total + sum_list ((λ f, countTokens (sectionOf projectRoot w f)) <$> kept)),
            w)
    ∧ sublist kept relevantFiles
    ∧ ∀ f, f ∈ relevantFiles → f ∉ kept →
        maxTotalTokens config
        < total + sum_list ((λ f, countTokens (sectionOf projectRoot w f)) <$> kept)
          + countTokens (sectionOf projectRoot w f).
Proof.
  unfold appendFiles. intros Hread. revert parts total.
  induction Hread as [|f relevantFiles [code Hf] _ IH]; intros parts total.
  - exists []. simpl. unfold ret. rewrite app_nil_r, Nat.add_0_r.
    split_and!; [done|done|]. intros f Hf. by apply elem_of_nil in Hf.
  - cbn [forEach]. unfold bind at 1 2.
    rewrite (proj2 (readFile_Some _ _ _ _) (conj Hf eq_refl)).
    assert (Hsec : sectionOf projectRoot w f = fileSection f code).
    { unfold sectionOf. by rewrite Hf. }
    destruct (total + countTokens (fileSection f code) <=? maxTotalTokens config)
      eqn:Hfit; unfold ret at 1.
    + destruct (IH (parts ++ [fileSection f code])
                  (total + countTokens (fileSection f code)))
        as (kept & Hrun & Hsub & Hskip).
      exists (f :: kept). rewrite Hrun. csimpl. rewrite Hsec, <- app_assoc.
      split_and!.
      * do 3 f_equal. lia.
      * by constructor.
      * intros g Hg Hng. apply not_elem_of_cons in Hng as [Hne Hng].
        apply elem_of_cons in Hg as [->|Hg]; [done|].
        specialize (Hskip g Hg Hng). lia.
    + apply Nat.leb_gt in Hfit.
      destruct (IH parts total) as (kept & Hrun & Hsub & Hskip).
      exists kept. rewrite Hrun. split_and!; [done|by constructor|].
      intros g Hg Hng. apply elem_of_cons in Hg as [->|Hg]; [|by apply Hskip].
      rewrite Hsec. lia.
Qed.


Lemma appendFiles_bound projectRoot config relevantFiles :
  ∀ parts total w parts' total' w',
    appendFiles countTokens projectRoot config relevantFiles (parts, total) w
    = Some ((parts', total'), w') →
    total ≤ total' ∧ total' ≤ Nat.max total (maxTotalTokens config)
    ∧ parts `prefix_of` parts'.
Proof.
  unfold appendFiles.
  induction relevantFiles as [|f relevantFiles IH];
    intros parts total w parts' total' w' Hrun.
  - simpl in Hrun. inversion Hrun; subst. split_and!; [lia|lia|done].
  - cbn [forEach] in Hrun. unfold bind at 1 2 in Hrun.
    destruct (readFile _ w) as [[code w1]|]; [|done].
    destruct (total + countTokens (fileSection f code) <=? maxTotalTokens config)
      eqn:Hfit; unfold ret at 1 in Hrun; apply IH in Hrun as (H1 & H2 & H3).
    + apply Nat.leb_le in Hfit. split_and!; [lia|lia|].
      etrans; [|exact H3]. by apply prefix_app_r.
    + done.
Qed.

Lemma appendChunks_bound config searchResults :
  ∀ parts total,
    let result := appendChunks countTokens config searchResults (parts, total) in
    total ≤ snd result ∧ snd result ≤ Nat.max total (maxTotalTokens config)
    ∧ parts `prefix_of` fst result.
Proof.
  induction searchResults as [|c rest IH]; intros parts total; simpl.
  - split_and!; [lia|lia|done].
  - destruct (total + countTokens (chunkSection c) <=? maxTotalTokens config) eqn:Hfit.
    + apply Nat.leb_le in Hfit.
      destruct (IH (parts ++ [chunkSection c]) (total + countTokens (chunkSection c)))
        as (H1 & H2 & H3).
      split_and!; [lia|lia|]. etrans; [|exact H3]. by apply prefix_app_r.
    + apply IH.
Qed.

(** X21. The count the assembler keeps never passes the total budget, unless
    the map text alone is larger: the running total returned with the parts
    is at least the count of the map text and at most the larger of that
    count and [maxTotalTokens].  The first part is always the repository
    structure. *)
Theorem assembleParts_counted_within_budget (projectRoot task : string)
    (index : CodeIndex) (config : ContextConfig) (w w' : World)
    (parts : list string) (total : nat) :
  assembleParts embeddingsCreate countTokens truncateToTokens buildRepoMap
    selectContextForTask projectRoot task index config w
  = Some ((parts, total), w') →
  ∃ mapText rest,
    parts = ("## Repository Structure" +:+ nl +:+ mapText) :: rest
    ∧ countTokens mapText ≤ total
    ∧ total ≤ Nat.max (countTokens mapText) (maxTotalTokens config).
Proof.
  unfold assembleParts. intros Hrun. unfold bind at 1 in Hrun.
  destruct (buildRepoMap projectRoot w) as [[repoMap w1]|]; [|done].
  set (mapText := if repoMapTokens config <? countTokens (formatRepoMap repoMap)
                  then truncateToTokens (formatRepoMap repoMap) (repoMapTokens config)
                  else formatRepoMap repoMap) in Hrun.
  unfold bind at 1 in Hrun.
  destruct (selectContextForTask _ _ _ w1) as [[relevantFiles w2]|]; [|done].
  unfold bind at 1 in Hrun.
  assert (Hphase2 : ∀ afterFiles w3,
    (if 0 <? length relevantFiles
     then appendFiles countTokens projectRoot config relevantFiles
            (([] ++ ["## Repository Structure" +:+ nl +:+ mapText])
             ++ [nl +:+ "## Relevant Files"], 0 + countTokens mapText)
     else ret ([] ++ ["## Repository Structure" +:+ nl +:+ mapText],
               0 + countTokens mapText)) w2 = Some (afterFiles, w3) →
    countTokens mapText ≤ snd afterFiles
    ∧ snd afterFiles ≤ Nat.max (countTokens mapText) (maxTotalTokens config)
    ∧ ["## Repository Structure" +:+ nl +:+ mapText] `prefix_of` fst afterFiles).
  { intros [parts2 total2] w3 H2. destruct (0 <? length relevantFiles).
    - apply appendFiles_bound in H2 as (H1 & H2 & H3). simpl in *.
      split_and!; [lia|lia|]. etrans; [|exact H3]. by eexists.
    - inversion H2; subst. simpl. split_and!; [lia|lia|done]. }
  destruct (_ w2) as [[afterFiles w3]|] eqn:H2 in Hrun; [|done].
  apply Hphase2 in H2 as (Hlow & Hhigh & Hpre). clear Hphase2.
  unfold bind at 1 in Hrun.
  destruct (CodeIndex_search _ _ _ _ w3) as [[searchResults w4]|]; [|done].
  unfold ret in Hrun. inversion Hrun as [[Hres Hw]]. clear Hrun.
  destruct afterFiles as [parts2 total2]. simpl in *.
  assert (Hfinal : total2 ≤ total
                   ∧ total ≤ Nat.max total2 (maxTotalTokens config)
                   ∧ parts2 `prefix_of` parts).
  { unfold appendRelatedCode in Hres. simpl in Hres.
    destruct ((0 <? length searchResults) && (total2 <? maxTotalTokens config)).
    - pose proof (appendChunks_bound config searchResults
                    (parts2 ++ [nl +:+ "## Related Code"]) total2) as Hb.
      simpl in Hb. rewrite Hres in Hb. simpl in Hb. destruct Hb as (H1 & H2 & H3).
      split_and!; [done|done|]. etrans; [|exact H3]. by apply prefix_app_r.
    - inversion Hres; subst. split_and!; [lia|lia|done]. }
  destruct Hfinal as (H1 & H2 & H3).
  assert (Hpre' : ["## Repository Structure" +:+ nl +:+ mapText] `prefix_of` parts)
    by (by etrans).
  destruct Hpre' as [rest ->]. exists mapText, rest. split_and!; [done|lia|lia].
Qed.

End Assembler.

Section AssemblerBudgets.

Variable embeddingsCreate : nat → list string → option (list (list PrimFloat.float)).
Variable countTokens : string → nat.
Variable truncateToTokens : string → nat → string.
Variable buildRepoMap : string → M RepoMap.
Variable selectContextForTask : string → string → nat → M (list string).

Lemma appendChunks_budget_only config1 config2 searchResults :
  maxTotalTokens config1 = maxTotalTokens config2 →
  ∀ state,
    appendChunks countTokens config1 searchResults state
    = appendChunks countTokens config2 searchResults state.
Proof.
  intros Hmax. induction searchResults as [|c rest IH]; intros [parts total]; [done|].
  simpl. rewrite Hmax. destruct (_ <=? _); apply IH.
Qed.

(** X22. The budget [searchResultTokens] of the configuration is never
    consulted: two configurations that differ only in it give the same
    context.  What the search results may add is bounded by [maxTotalTokens]
    alone. *)
Theorem assembleContext_ignores_searchResultTokens (projectRoot task : string)
    (index : CodeIndex) (config : ContextConfig) (budget : nat) (w : World) :
  assembleContext embeddingsCreate countTokens truncateToTokens buildRepoMap
    selectContextForTask projectRoot task index
    (mkConfig (repoMapTokens config) (relevantFileTokens config) budget
       (maxTotalTokens config)) w
  = assembleContext embeddingsCreate countTokens truncateToTokens buildRepoMap
      selectContextForTask projectRoot task index config w.
Proof.
  unfold assembleContext, assembleParts, appendFiles, appendRelatedCode.
  cbn [repoMapTokens relevantFileTokens maxTotalTokens].
  unfold bind.
  destruct (buildRepoMap projectRoot w) as [[repoMap w1]|]; [|done].
  destruct (selectContextForTask _ _ _ w1) as [[relevantFiles w2]|]; [|done].
  match goal with
  | |- match match ?m with _ => _ end with _ => _ end = _ =>
      destruct m as [[afterFiles w3]|]; [|done]
  end.
  destruct (CodeIndex_search _ _ _ _ w3) as [[searchResults w4]|]; [|done].
  unfold ret.
  destruct (_ && _); [|done].
  by rewrite (appendChunks_budget_only _ config).
Qed.

End AssemblerBudgets.

Lemma appendFiles_skips_only_on_overflow_witness :
  Forall (readable "/proj" sampleWorld) ["src/auth.ts"]
  ∧ ∃ kept,
      appendFiles estimateTokens "/proj" sampleConfig ["src/auth.ts"] ([], 0) sampleWorld
      = Some (([] ++ (sectionOf "/proj" sampleWorld <$> kept),
               0 + sum_list ((λ f, estimateTokens (sectionOf "/proj" sampleWorld f))
                               <$> kept)),
              sampleWorld)
      ∧ sublist kept ["src/auth.ts"]
      ∧ ∀ f, f ∈ ["src/auth.ts"] → f ∉ kept →
          maxTotalTokens sampleConfig
          < 0 + sum_list ((λ f, estimateTokens (sectionOf "/proj" sampleWorld f))
                            <$> kept)
            + estimateTokens (sectionOf "/proj" sampleWorld f).
Proof.
  assert (H : Forall (readable "/proj" sampleWorld) ["src/auth.ts"]).
  { repeat constructor. exists "login(process.argv[2]);". vm_compute. reflexivity. }
  split; [exact H|].
  exact (appendFiles_skips_only_on_overflow estimateTokens "/proj" sampleConfig
           ["src/auth.ts"] [] 0 sampleWorld H).
Defined.

Lemma assembleParts_counted_within_budget_witness :
  assembleParts sampleEmbed estimateTokens sampleTruncate sampleRepoMap sampleSelect
    "/proj" sampleTask (mkIndex []) sampleConfig sampleWorld
  = Some (([ "## Repository Structure" +:+ nl;
             nl +:+ "## Relevant Files";
             fileSection "src/auth.ts" "login(process.argv[2]);" ], 12),
          mkWorld (fs sampleWorld) 1)
  ∧ ∃ mapText rest,
      [ "## Repository Structure" +:+ nl;
        nl +:+ "## Relevant Files";
        fileSection "src/auth.ts" "login(process.argv[2]);" ]
      = ("## Repository Structure" +:+ nl +:+ mapText) :: rest
      ∧ estimateTokens mapText ≤ 12
      ∧ 12 ≤ Nat.max (estimateTokens mapText) (maxTotalTokens sampleConfig).
Proof.
  assert (H : assembleParts sampleEmbed estimateTokens sampleTruncate sampleRepoMap
                sampleSelect "/proj" sampleTask (mkIndex []) sampleConfig sampleWorld
              = Some (([ "## Repository Structure" +:+ nl;
                         nl +:+ "## Relevant Files";
                         fileSection "src/auth.ts" "login(process.argv[2]);" ], 12),
                      mkWorld (fs sampleWorld) 1)).
  { vm_compute. reflexivity. }
  split; [exact H|].
  exact (assembleParts_counted_within_budget sampleEmbed estimateTokens sampleTruncate
           sampleRepoMap sampleSelect "/proj" sampleTask (mkIndex []) sampleConfig
           sampleWorld _ _ _ H).
Defined.

(** ** The dynamic context *)

Lemma JsMap_get_set {V} (k : string) (v : V) m : JsMap.get k (JsMap.set k v m) = Some v.
Proof.
  induction m as [|[k' v'] m IH]; simpl.
  - by rewrite String.eqb_refl.
  - destruct (String.eqb k' k) eqn:E; simpl; [by rewrite String.eqb_refl|by rewrite E].
Qed.

Lemma JsMap_get_set_ne {V} (k q : string) (v : V) m :
  q ≠ k → JsMap.get q (JsMap.set k v m) = JsMap.get q m.
Proof.
  intros Hne. induction m as [|[k' v'] m IH]; simpl.
  - destruct (String.eqb k q) eqn:E; [|done]. by apply String.eqb_eq in E.
  - destruct (String.eqb k' k) eqn:E; simpl.
    + apply String.eqb_eq in E as ->.
      destruct (String.eqb k q) eqn:E'; [|done]. by apply String.eqb_eq in E'.
    + by rewrite IH.
Qed.

Lemma JsMap_get_delete {V} (k : string) (m : list (string * V)) :
  JsMap.get k (JsMap.delete k m) = None.
Proof.
  induction m as [|[k' v'] m IH]; simpl; [done|].
  destruct (String.eqb k' k) eqn:E; [done|]. simpl. by rewrite E.
Qed.

Lemma JsMap_get_delete_ne {V} (k q : string) (m : list (string * V)) :
  q ≠ k → JsMap.get q (JsMap.delete k m) = JsMap.get q m.
Proof.
  intros Hne. induction m as [|[k' v'] m IH]; simpl; [done|].
  destruct (String.eqb k' k) eqn:E; simpl.
  - apply String.eqb_eq in E as ->.
    destruct (String.eqb k q) eqn:E'; [|done]. by apply String.eqb_eq in E'.
  - by rewrite IH.
Qed.

Lemma JsMap_delete_absent {V} (k : string) (m : list (string * V)) :
  JsMap.get k m = None → JsMap.delete k m = m.
Proof.
  induction m as [|[k' v'] m IH]; simpl; [done|].
  destruct (String.eqb k' k); [done|]. intros H. by rewrite IH.
Qed.

Lemma JsMap_delete_set {V} (k : string) (v : V) m :
  JsMap.delete k (JsMap.set k v m) = JsMap.delete k m.
Proof.
  induction m as [|[k' v'] m IH]; simpl.
  - by rewrite String.eqb_refl.
  - destruct (String.eqb k' k) eqn:E; simpl; [by rewrite String.eqb_refl|].
    by rewrite E, IH.
Qed.

Section DynamicProperties.

Variable countTokens : string → nat.

Lemma fold_left_total (contents : list string) (start : nat) :
  fold_left (λ total fileContent, total + countTokens fileContent) contents start
  = start + sum_list (countTokens <$> contents).
Proof.
  revert start. induction contents as [|c contents IH]; intros start; csimpl; [lia|].
  rewrite IH. lia.
Qed.

Lemma getTotalTokens_sum self :
  getTotalTokens countTokens self
  = countTokens (baseContext self)
    + sum_list (countTokens <$> JsMap.values (addedFiles self)).
Proof. unfold getTotalTokens. apply fold_left_total. Qed.

Lemma values_set_total k c m :
  sum_list (countTokens <$> JsMap.values (JsMap.set k c m))
  + default 0 (countTokens <$> JsMap.get k m)
  = sum_list (countTokens <$> JsMap.values m) + countTokens c.
Proof.
  unfold JsMap.values. induction m as [|[k' v'] m IH]; csimpl; [lia|].
  destruct (String.eqb k' k); csimpl; lia.
Qed.

Lemma values_delete_total k m :
  sum_list (countTokens <$> JsMap.values (JsMap.delete k m))
  ≤ sum_list (countTokens <$> JsMap.values m).
Proof.
  unfold JsMap.values. induction m as [|[k' v'] m IH]; csimpl; [lia|].
  destruct (String.eqb k' k); csimpl; lia.
Qed.

(** X23. The verdict of [addFile].  When it answers [true], the content
    fitted beside everything counted so far, the file is in the context with
    that content, and the total stays within the budget.  When it answers
    [false], the content did not fit and the context is left as it was. *)
Theorem addFile_verdict (self : DynamicContext) (filePath fileContent : string) :
  let result := addFile countTokens self filePath fileContent in
  if fst result then
    getTotalTokens countTokens self + countTokens fileContent ≤ tokenBudget self
    ∧ JsMap.get filePath (addedFiles (snd result)) = Some fileContent
    ∧ tokenBudget (snd result) = tokenBudget self
    ∧ getTotalTokens countTokens (snd result) ≤ tokenBudget self
  else
    tokenBudget self < getTotalTokens countTokens self + countTokens fileContent
    ∧ snd result = self.
Proof.
  unfold addFile.
  destruct (tokenBudget self <? _) eqn:Hover; simpl.
  - apply Nat.ltb_lt in Hover. by split.
  - apply Nat.ltb_ge in Hover. split_and!; [done|apply JsMap_get_set|done|].
    rewrite getTotalTokens_sum in *. simpl.
    pose proof (values_set_total filePath fileContent (addedFiles self)). lia.
Qed.

(** X24. What an accepted [addFile] does to the total: the new content is
    added and, when the path was already in the context, the content it
    replaces is taken off.  The test before it adds the new content to the
    whole current total, the replaced content included, so a replacement
    that would fit can be refused. *)
Theorem addFile_total (self : DynamicContext) (filePath fileContent : string) :
  fst (addFile countTokens self filePath fileContent) = true →
  getTotalTokens countTokens (snd (addFile countTokens self filePath fileContent))
  + default 0 (countTokens <$> JsMap.get filePath (addedFiles self))
  = getTotalTokens countTokens self + countTokens fileContent.
Proof.
  unfold addFile. destruct (tokenBudget self <? _); [done|]. intros _. simpl.
  rewrite !getTotalTokens_sum. simpl.
  pose proof (values_set_total filePath fileContent (addedFiles self)). lia.
Qed.

(** X25. [removeFile] takes the path out of the context, leaves the other
    paths as they are and never raises the total. *)
Theorem removeFile_lookup (self : DynamicContext) (filePath : string) :
  JsMap.get filePath (addedFiles (removeFile self filePath)) = None
  ∧ (∀ other, other ≠ filePath →
       JsMap.get other (addedFiles (removeFile self filePath))
       = JsMap.get other (addedFiles self))
  ∧ getTotalTokens countTokens (removeFile self filePath)
    ≤ getTotalTokens countTokens self.
Proof.
  unfold removeFile. simpl. split_and!.
  - apply JsMap_get_delete.
  - intros other Hne. by apply JsMap_get_delete_ne.
  - rewrite !getTotalTokens_sum. simpl.
    pose proof (values_delete_total filePath (addedFiles self)). lia.
Qed.

(** X26. Adding a file under a path that is not in the context and removing
    it again gives the context back, whether or not the file was accepted. *)
Theorem removeFile_addFile (self : DynamicContext) (filePath fileContent : string) :
  JsMap.get filePath (addedFiles self) = None →
  removeFile (snd (addFile countTokens self filePath fileContent)) filePath = self.
Proof.
  intros Hfresh. unfold addFile, removeFile.
  destruct (tokenBudget self <? _); simpl.
  - rewrite JsMap_delete_absent by done. by destruct self.
  - rewrite JsMap_delete_set, JsMap_delete_absent by done. by destruct self.
Qed.

End DynamicProperties.

Lemma addFile_total_witness :
  fst (addFile estimateTokens (DynamicContext_new "base" (Some 10)) "a.ts" "const a = 1;")
  = true
  ∧ getTotalTokens estimateTokens
      (snd (addFile estimateTokens (DynamicContext_new "base" (Some 10)) "a.ts"
              "const a = 1;"))
    + default 0 (estimateTokens
                   <$> JsMap.get "a.ts" (addedFiles (DynamicContext_new "base" (Some 10))))
    = getTotalTokens estimateTokens (DynamicContext_new "base" (Some 10))
      + estimateTokens "const a = 1;".
Proof.
  split; [reflexivity|].
  exact (addFile_total estimateTokens (DynamicContext_new "base" (Some 10)) "a.ts"
           "const a = 1;" eq_refl).
Defined.

(** A replacement that would fit is refused: the context holds 8 of its 10
    tokens in [a.ts]; new content of 8 tokens for [a.ts] is tested as 16. *)
Lemma addFile_refuses_fitting_replacement :
  let self :=
    mkDynamicContext "" [("a.ts", "0123456789012345678901234567890a")] 10 in
  getTotalTokens estimateTokens self = 8
  ∧ estimateTokens "const renamed = 1; // 32 chars.." = 8
  ∧ addFile estimateTokens self "a.ts" "const renamed = 1; // 32 chars.."
    = (false, self).
Proof. vm_compute. by split_and!. Qed.

Lemma removeFile_addFile_witness :
  JsMap.get "a.ts" (addedFiles (DynamicContext_new "base" (Some 10))) = None
  ∧ removeFile
      (snd (addFile estimateTokens (DynamicContext_new "base" (Some 10)) "a.ts"
              "const a = 1;")) "a.ts"
    = DynamicContext_new "base" (Some 10).
Proof.
  split; [reflexivity|].
  exact (removeFile_addFile estimateTokens (DynamicContext_new "base" (Some 10)) "a.ts"
           "const a = 1;" eq_refl).
Defined.

(** ** The repository map *)

Section RepoMapProperties.

Variable glob : string → M (list string).
Variable Tree : Type.
Variable parse : Language → string → Tree.
Variable extractSymbols : Tree → string → list Symbol.

Lemma mapFile_loop projectRoot w fileNames :
  Forall (readable projectRoot w) fileNames →
  ∀ fileMap total,
    ∃ added,
      forEach fileNames (mapFile Tree parse extractSymbols projectRoot)
        (fileMap, total) w
      = Some ((fileMap ++ added,
               total + sum_list ((λ fm, length (symbols fm)) <$> added)), w)
      ∧ sublist (path <$> added) fileNames
      ∧ Forall (λ fm, listed Tree parse extractSymbols projectRoot w (path fm) (symbols fm)) added
      ∧ ∀ f found, f ∈ fileNames → listed Tree parse extractSymbols projectRoot w f found →
          mkFileMap f found ∈ added.
Proof.
  induction 1 as [|f fileNames [code Hf] _ IH]; intros fileMap total.
  - exists []. simpl. unfold ret. rewrite app_nil_r, Nat.add_0_r.
    split_and!; [done|done|done|]. intros f found Hf. by apply elem_of_nil in Hf.
  - cbn [forEach]. unfold bind at 1. unfold mapFile at 1. unfold bind at 1.
    rewrite (proj2 (readFile_Some _ _ _ _) (conj Hf eq_refl)).
    unfold parseFile.
    destruct (parsers (NodePath.extname f)) as [language|] eqn:Hp.
    + destruct (0 <? length (extractSymbols (parse language code) code)) eqn:Hn;
        unfold ret at 1.
      * apply Nat.ltb_lt in Hn.
        destruct (IH (fileMap ++ [mkFileMap f (extractSymbols (parse language code) code)])
                    (total + length (extractSymbols (parse language code) code)))
          as (added & Hrun & Hsub & Hall & Hevery).
        exists (mkFileMap f (extractSymbols (parse language code) code) :: added).
        rewrite Hrun, <- app_assoc. csimpl. split_and!.
        -- do 3 f_equal. lia.
        -- by constructor.
        -- constructor; [|done]. exists language, code. simpl.
           split_and!; [done|done|done|]. intros Hnil. rewrite Hnil in Hn. simpl in Hn. lia.
        -- intros g found Hg Hlisted. apply elem_of_cons in Hg as [->|Hg].
           ++ destruct Hlisted as (l' & c' & Hp' & Hf' & -> & _).
              rewrite Hp in Hp'. rewrite Hf in Hf'. inversion Hp'. inversion Hf'. by left.
           ++ right. by apply Hevery.
      * apply Nat.ltb_ge in Hn.
        destruct (IH fileMap total) as (added & Hrun & Hsub & Hall & Hevery).
        exists added. rewrite Hrun. split_and!; [done|by constructor|done|].
        intros g found Hg Hlisted. apply elem_of_cons in Hg as [->|Hg]; [|by apply Hevery].
        destruct Hlisted as (l' & c' & Hp' & Hf' & -> & Hne).
        rewrite Hp in Hp'. rewrite Hf in Hf'. inversion Hp'. inversion Hf'. subst.
        destruct (extractSymbols (parse l' c') c'); [done|simpl in Hn; lia].
    + unfold ret at 1.
      destruct (IH fileMap total) as (added & Hrun & Hsub & Hall & Hevery).
      exists added. rewrite Hrun. split_and!; [done|by constructor|done|].
      intros g found Hg Hlisted. apply elem_of_cons in Hg as [->|Hg]; [|by apply Hevery].
      destruct Hlisted as (l' & c' & Hp' & _). congruence.
Qed.

(** X27. When [glob] lists files that can all be read, [buildRepoMap] returns
    a map whose files are, in the order of the listing, exactly the listed
    files that have a parser for their extension and at least one symbol,
    each with the symbols found in it; [totalSymbols] is the number of
    symbols over all files of the map. *)
Theorem buildRepoMap_listing (projectRoot : string) (w w1 : World)
    (fileNames : list string) :
  glob projectRoot w = Some (fileNames, w1) →
  Forall (readable projectRoot w1) fileNames →
  ∃ repoMap,
    buildRepoMap glob Tree parse extractSymbols projectRoot w = Some (repoMap, w1)
    ∧ totalSymbols repoMap
      = sum_list ((λ fm, length (symbols fm)) <$> files repoMap)
    ∧ sublist (path <$> files repoMap) fileNames
    ∧ Forall (λ fm, listed Tree parse extractSymbols projectRoot w1 (path fm) (symbols fm)) (files repoMap)
    ∧ ∀ f found, f ∈ fileNames → listed Tree parse extractSymbols projectRoot w1 f found →
        mkFileMap f found ∈ files repoMap.
Proof.
  intros Hglob Hread. unfold buildRepoMap. rewrite (bind_Some _ _ _ _ _ Hglob).
  destruct (mapFile_loop projectRoot w1 fileNames Hread [] 0)
    as (added & Hrun & Hsub & Hall & Hevery).
  rewrite (bind_Some _ _ _ _ _ Hrun). eexists. split; [reflexivity|]. simpl.
  by split_and!.
Qed.

End RepoMapProperties.

Lemma buildRepoMap_listing_witness :
  sampleGlob "/proj" sampleWorld = Some (["src/auth.ts"], sampleWorld)
  ∧ Forall (readable "/proj" sampleWorld) ["src/auth.ts"]
  ∧ ∃ repoMap,
      buildRepoMap sampleGlob string sampleParse sampleSymbols "/proj" sampleWorld
      = Some (repoMap, sampleWorld)
      ∧ totalSymbols repoMap
        = sum_list ((λ fm, length (symbols fm)) <$> files repoMap)
      ∧ sublist (path <$> files repoMap) ["src/auth.ts"]
      ∧ Forall (λ fm, listed string sampleParse sampleSymbols "/proj" sampleWorld
                        (path fm) (symbols fm)) (files repoMap)
      ∧ ∀ f found, f ∈ ["src/auth.ts"] →
          listed string sampleParse sampleSymbols "/proj" sampleWorld f found →
          mkFileMap f found ∈ files repoMap.
Proof.
  assert (H1 : sampleGlob "/proj" sampleWorld = Some (["src/auth.ts"], sampleWorld))
    by reflexivity.
  assert (H2 : Forall (readable "/proj" sampleWorld) ["src/auth.ts"]).
  { repeat constructor. exists "login(process.argv[2]);". vm_compute. reflexivity. }
  split; [exact H1|]. split; [exact H2|].
  exact (buildRepoMap_listing sampleGlob string sampleParse sampleSymbols "/proj"
           sampleWorld sampleWorld ["src/auth.ts"] H1 H2).
Defined.

Lemma string_app_nil_r (s : string) : s +:+ "" = s.
Proof.
  induction s as [|c s IH]; [done|].
  change (String c (s +:+ "") = String c s). by rewrite IH.
Qed.

Lemma fold_left_append {A} (g : A → string) (l : list A) (start : string) :
  fold_left (λ output x, output +:+ g x) l start
  = start +:+ fold_left (λ output x, output +:+ g x) l "".
Proof.
  revert start. induction l as [|x l IH]; intros start; simpl.
  - by rewrite string_app_nil_r.
  - rewrite IH, (IH ("" +:+ g x)). by rewrite string_app_assoc.
Qed.

(** The text [formatRepoMap] writes for one file. *)
Lemma formatRepoMap_step (output : string) (fileMap : FileMap) :
  fold_left
    (λ output symbol,
       output
       +:+ Str.join ((λ line, "│ " +:+ line) <$> Str.split (signature symbol))
       +:+ nl)
    (symbols fileMap) (output +:+ path fileMap +:+ ":" +:+ nl) +:+ nl
  = output
    +:+ (fold_left
           (λ output symbol,
              output
              +:+ Str.join ((λ line, "│ " +:+ line) <$> Str.split (signature symbol))
              +:+ nl)
           (symbols fileMap) ("" +:+ path fileMap +:+ ":" +:+ nl) +:+ nl).
Proof.
  rewrite (fold_left_append
             (λ symbol, Str.join ((λ line, "│ " +:+ line) <$> Str.split (signature symbol))
                        +:+ nl)
             (symbols fileMap) (output +:+ _)).
  rewrite (fold_left_append
             (λ symbol, Str.join ((λ line, "│ " +:+ line) <$> Str.split (signature symbol))
                        +:+ nl)
             (symbols fileMap) ("" +:+ _)).
  by rewrite !string_app_assoc.
Qed.

(** X28. The text of a repository map is the texts of its files one after the
    other: formatting a map whose file list is a concatenation gives the
    concatenation of the two texts.  [totalSymbols] plays no part. *)
Theorem formatRepoMap_app (first second : list FileMap) (n n1 n2 : nat) :
  formatRepoMap (mkRepoMap (first ++ second) n)
  = formatRepoMap (mkRepoMap first n1) +:+ formatRepoMap (mkRepoMap second n2).
Proof.
  unfold formatRepoMap. simpl files. rewrite fold_left_app.
  generalize (fold_left
    (λ output fileMap,
       fold_left
         (λ output symbol,
            output
            +:+ Str.join ((λ line, "│ " +:+ line) <$> Str.split (signature symbol))
            +:+ nl)
         (symbols fileMap) (output +:+ path fileMap +:+ ":" +:+ nl) +:+ nl)
    first "").
  intros start. revert start.
  induction second as [|fileMap second IH]; intros start.
  - simpl. by rewrite string_app_nil_r.
  - cbn [fold_left]. rewrite IH, (IH (_ +:+ nl)).
    rewrite (formatRepoMap_step start fileMap). by rewrite string_app_assoc.
Qed.

(** ** The ranker with seeds *)

Lemma getScore_boostSeeds_nonneg boost seedFiles :
  (∀ seed, (0 <= boost seed)%Q) →
  ∀ scores, (∀ k, (0 <= getScore scores k)%Q) →
  ∀ k, (0 <= getScore (boostSeeds boost seedFiles scores) k)%Q.
Proof.
  intros Hb. induction seedFiles as [|seed rest IH]; intros scores Hs k; [done|].
  rewrite getScore_boostSeeds_cons. apply IH. intros j.
  rewrite getScore_insert. destruct (decide (seed = j)); [|done].
  specialize (Hs seed). specialize (Hb seed). lra.
Qed.

(** X29. Whatever the seeds, every entry of the map [rankFiles] returns is
    non-negative (damping between 0 and 1, reverse edges mirroring the
    forward edges, as [buildDependencyGraph] leaves them). *)
Theorem rankFiles_scores_nonneg (graph : FileGraph) (seedFiles : list string)
    (options : RankOptions) :
  (0 <= default 0.85 (damping options))%Q →
  (default 0.85 (damping options) <= 1)%Q →
  mirrored graph →
  map_Forall (λ _ score, (0 <= score)%Q) (rankFiles graph seedFiles options).
Proof.
  intros Hd0 Hd1 _.
  assert (Hall : ∀ k, (0 <= getScore (rankFiles graph seedFiles options) k)%Q).
  { unfold rankFiles, rankFilesBoosted.
    induction (default 20 (iterations options)) as [|n IH]; simpl.
    - apply getScore_boostSeeds_nonneg; [intros _; by vm_compute|].
      intros k. apply getScore_initialScores_nonneg, QofNat_nonneg.
    - intros k. apply getScore_rankPass_nonneg; [done|done|apply QofNat_nonneg|done]. }
  intros k score Hk. specialize (Hall k). unfold getScore in Hall.
  by rewrite Hk in Hall.
Qed.

Lemma rankFiles_scores_nonneg_witness :
  (0 <= default 0.85 (damping defaultRankOptions))%Q
  ∧ (default 0.85 (damping defaultRankOptions) <= 1)%Q
  ∧ mirrored cycleGraph
  ∧ map_Forall (λ _ score, (0 <= score)%Q)
      (rankFiles cycleGraph ["a.ts"; "zz.ts"] defaultRankOptions).
Proof.
  assert (H0 : (0 <= default 0.85 (damping defaultRankOptions))%Q) by (by vm_compute).
  assert (H1 : (default 0.85 (damping defaultRankOptions) <= 1)%Q) by (by vm_compute).
  split; [exact H0|]. split; [exact H1|]. split; [exact cycleGraph_mirrored|].
  exact (rankFiles_scores_nonneg cycleGraph ["a.ts"; "zz.ts"] defaultRankOptions
           H0 H1 cycleGraph_mirrored).
Defined.
